(** * Idle-RPGv2: battle simulation engine and matchmaking pairing

    A shallow embedding of the server-side battle service
    (battle-service: simulateBattle and everything it calls), of the
    helpers in utils/battle-utils.js, of the two battle-state constructors
    (models/character-model.js and models/battle-model.js) and of the
    queue operations of services/matchmaking.js.

    JavaScript numbers are modelled as exact rationals ([Q]); equalities
    between computed numbers are therefore stated with [==].  Where the
    source rounds a product of fractions ([Math.round] in
    applyDamageReduction, [Math.pow] in calculateExpForNextLevel) the
    double-precision value can fall on the other side of a rounding
    boundary than the exact one, so the theorems about these functions
    state bounds, not values.  A number computed from a field that an
    object does not have is NaN ([Num]).  [Math.random] is modelled by a
    stream of draws, the state carrying the number of draws consumed so
    far.  The ability catalogue (abilities.json) is not part of the
    sources and is a parameter of the development. *)

From Stdlib Require Import QArith Qround Qminmax Lqa ZArith Lia Ascii String.
From stdpp Require Import base option list strings gmap pretty.

Local Open Scope Q_scope.

(** ** JavaScript numeric helpers *)

(** [Math.round]: nearest integer, ties towards +infinity. *)
Definition Math_round (x : Q) : Q := inject_Z (Qfloor (x + (1 # 2))).

Definition Math_floor (x : Q) : Q := inject_Z (Qfloor x).

Definition Math_min (x y : Q) : Q := Qmin x y.
Definition Math_max (x y : Q) : Q := Qmax x y.

(** [x <= y], [x < y], [x >= y], [x > y] as the booleans JavaScript
    computes. *)
Definition leq (x y : Q) : bool := Qle_bool x y.
Definition ltq (x y : Q) : bool := negb (Qle_bool y x).
Definition geq (x y : Q) : bool := Qle_bool y x.
Definition gtq (x y : Q) : bool := negb (Qle_bool x y).

(** Truthiness of an optional numeric field: absent and [0] are falsy. *)
Definition truthy (o : option Q) : bool :=
  match o with
  | Some v => negb (Qeq_bool v 0)
  | None => false
  end.

(** [o || d] for an optional numeric field. *)
Definition orElse (o : option Q) (d : Q) : Q :=
  match o with
  | Some v => if Qeq_bool v 0 then d else v
  | None => d
  end.

(** *** Numbers that can be NaN

    Reading a field that an object does not have gives [undefined], and
    arithmetic with it gives NaN.  The two counters that the battle
    updates with such fields, currentHealth and currentMana, are numbers
    of this kind.  Every comparison with NaN is false, and [Math.min] and
    [Math.floor] of NaN are NaN. *)
Inductive Num := Finite (q : Q) | NaN.

Coercion Finite : Q >-> Num.

(** The number that arithmetic sees in a field that may be missing. *)
Definition fieldNumber (o : option Q) : Num :=
  match o with
  | Some q => Finite q
  | None => NaN
  end.

Definition num_op (f : Q -> Q -> Q) (x y : Num) : Num :=
  match x, y with
  | Finite a, Finite b => Finite (f a b)
  | _, _ => NaN
  end.

Definition num_test (r : Q -> Q -> bool) (x y : Num) : bool :=
  match x, y with
  | Finite a, Finite b => r a b
  | _, _ => false
  end.

Definition nadd : Num -> Num -> Num := num_op Qplus.
Definition nsub : Num -> Num -> Num := num_op Qminus.
Definition nmul : Num -> Num -> Num := num_op Qmult.
Definition ndiv : Num -> Num -> Num := num_op Qdiv.
Definition nmin : Num -> Num -> Num := num_op Math_min.

Definition nfloor (x : Num) : Num :=
  match x with
  | Finite a => Finite (Math_floor a)
  | NaN => NaN
  end.

Definition nleq : Num -> Num -> bool := num_test leq.
Definition ngeq : Num -> Num -> bool := num_test geq.
Definition ngtq : Num -> Num -> bool := num_test gtq.

(** [time.toFixed(1)] read back with [parseFloat], for the non-negative
    numbers that the battle log carries. *)
Definition toFixed1 (x : Q) : Q := Math_round (x * 10) / 10.

(** [s.charAt(0).toUpperCase() + s.slice(1)] on ASCII letters. *)
Definition upperAscii (c : ascii) : ascii :=
  let n := nat_of_ascii c in
  if ((97 <=? n)%nat && (n <=? 122)%nat)%bool then ascii_of_nat (n - 32) else c.

Definition capitalize (s : string) : string :=
  match s with
  | EmptyString => EmptyString
  | String c rest => String (upperAscii c) rest
  end.

(** ** Data model *)

Record Stats := mkStats {
  minPhysicalDamage : Q;
  maxPhysicalDamage : Q;
  criticalChance : Q;
  attackSpeed : Q;
  minMagicDamage : Q;
  maxMagicDamage : Q;
  spellCritChance : Q;
  health : Q;
  mana : Q;
  physicalDamageReduction : Q;
  magicDamageReduction : Q
}.

Record Buff := mkBuff {
  buff_name : string;
  buff_type : string;
  buff_amount : Q;
  buff_duration : Q;
  buff_endTime : Q
}.

(** A periodic effect object.  The source builds it with a [damage] field
    and no [amount] field (damage-over-time abilities, burning) or with an
    [amount] field and no [damage] field (periodic abilities); the field
    that the object does not have is [None]. *)
Record PeriodicEffect := mkEffect {
  pe_name : string;
  pe_type : string;
  pe_amount : option Q;
  pe_damage : option Q;
  pe_duration : Q;
  pe_interval : Q;
  pe_lastProcTime : Q;
  pe_endTime : Q;
  pe_sourceName : string
}.

(** A persisted character record, as read from characters.json. *)
Record CharacterData := mkCharacterData {
  cd_id : string;
  cd_name : string;
  cd_playerId : string;
  cd_stats : Stats;
  cd_rotation : list string;
  cd_attackType : string;
  cd_level : option Q
}.

(** The battle-ready character state of character-model's
    createBattleState: the persisted fields plus the mutable ones. *)
Record Character := mkCharacter {
  char_id : string;
  char_name : string;
  playerId : string;
  stats : Stats;
  rotation : list string;
  attackType : string;
  level : option Q;
  currentHealth : Num;
  currentMana : Num;
  cooldowns : gmap string Q;
  periodicEffects : list PeriodicEffect;
  buffs : list Buff;
  nextAbilityIndex : nat
}.

(** *** Ability definitions (external, read-only) *)

Record BuffEffect := mkBuffEffect {
  be_type : string;
  be_amount : option Q;
  be_duration : Q;
  be_targetsSelf : option bool;
  be_magicDamageScaling : bool;
  be_scalingRate : option Q;
  be_baseAmount : option Q;
  be_maxAmount : option Q
}.

Record HealEffect := mkHealEffect { he_multiplier : Q }.

Record DotEffect := mkDotEffect {
  de_type : string;
  de_damage : Q;
  de_duration : Q;
  de_interval : option Q
}.

Record PeriodicSpec := mkPeriodicSpec {
  ps_type : string;
  ps_amount : Q;
  ps_duration : Q;
  ps_interval : Q
}.

Record MultiAttack := mkMultiAttack {
  ma_count : option nat;
  ma_delay : option Q
}.

Record CriticalEffect := mkCriticalEffect {
  ce_type : string;
  ce_damagePercent : Q;
  ce_duration : Q;
  ce_interval : option Q
}.

Record Ability := mkAbility {
  ab_id : string;
  ab_name : string;
  ab_type : string;
  ab_cooldown : Q;
  ab_manaCost : option Q;
  ab_damage : option string;
  ab_damageMultiplier : option Q;
  ab_buffEffect : option BuffEffect;
  ab_healEffect : option HealEffect;
  ab_dotEffect : option DotEffect;
  ab_periodicEffect : option PeriodicSpec;
  ab_guaranteedCrit : bool;
  ab_multiAttack : option MultiAttack;
  ab_selfDamagePercent : option Q;
  ab_criticalEffect : option CriticalEffect;
  ab_baseCritBonus : option Q
}.

(** *** The battle log *)

(** One constructor per message template of the source; the numbers and
    names interpolated into the template are the constructor's arguments
    (a [Num] where the number is computed from currentHealth or
    currentMana, an [option Q] where it is a field of a periodic effect
    that may be missing). *)
Inductive Message :=
  | MsgBattleStarted (n1 n2 : string)
  | MsgInitialState (n : string) (h m : Num)
  | MsgWins (n : string)
  | MsgTimeLimitWins (n : string)
  | MsgTimeLimitDraw
  | MsgFinalState (n : string) (h : Num) (percent : option Q) (m : Num)
  | MsgAbility (attacker : string) (casts : bool) (ability : string)
  | MsgBuffPhysicalReduction (attacker : string) (casts : bool) (ability : string) (amount duration : Q)
  | MsgBuffDamageIncrease (attacker : string) (casts : bool) (ability : string) (amount duration : Q)
  | MsgBuffAttackSlow (attacker : string) (casts : bool) (ability defender : string) (amount duration : Q)
  | MsgBuffOther (attacker : string) (casts : bool) (ability type : string) (duration : Q)
  | MsgManaDrainCast (attacker ability defender : string) (drained : Num)
  | MsgManaGain (who : string) (amount : option Q) (effect : string)
  | MsgBacklash (attacker : string) (selfDamage : Q) (ability : string)
  | MsgSelfDefeat (attacker : string)
  | MsgBurningApplied (defender : string) (dotDamage duration : Q)
  | MsgPhysicalHit (attacker attack : string) (crit : bool) (defender : string) (dmg : Q)
  | MsgMagicHit (attacker attack : string) (crit : bool) (defender : string) (dmg : Q)
  | MsgDefeated (who : string)
  | MsgRefreshed (who what : string) (duration : Q)
  | MsgBuffGained (who what : string) (duration : Q)
  | MsgAffectedBy (who what : string) (duration : Q)
  | MsgHealed (who : string) (amount : Num)
  | MsgEffectDamage (who : string) (dmg : option Q) (effect : string)
  | MsgDefeatedBy (who effect : string)
  | MsgBurnedToAsh (who : string)
  | MsgLosesMana (who : string) (drained : Num) (effect : string)
  | MsgRegenHealth (who : string) (amount : option Q) (effect : string)
  | MsgRegenMana (who : string) (amount : option Q) (effect : string)
  | MsgEffectExpired (effect who : string)
  | MsgBuffExpired (buff who : string).

Record LogEntry := mkLogEntry {
  entry_time : Q;
  entry_message : Message
}.

(** The battle state of battle-model's createBattleState.  [draws] counts
    the calls to [Math.random] made so far. *)
Record BattleState := mkBattleState {
  character1 : Character;
  character2 : Character;
  log : list LogEntry;
  rounds : nat;
  winner : option string;
  draws : nat
}.

(** The two combatant slots of a battle state. *)
Inductive Side := First | Second.

Definition other (sd : Side) : Side :=
  match sd with First => Second | Second => First end.

#[global] Instance Side_eq_dec : EqDecision Side.
Proof. solve_decision. Defined.

(** *** Field updates (in-place mutation of the source) *)

Definition set_currentHealth (v : Num) (c : Character) : Character :=
  mkCharacter (char_id c) (char_name c) (playerId c) (stats c) (rotation c)
    (attackType c) (level c) v (currentMana c) (cooldowns c)
    (periodicEffects c) (buffs c) (nextAbilityIndex c).

Definition set_currentMana (v : Num) (c : Character) : Character :=
  mkCharacter (char_id c) (char_name c) (playerId c) (stats c) (rotation c)
    (attackType c) (level c) (currentHealth c) v (cooldowns c)
    (periodicEffects c) (buffs c) (nextAbilityIndex c).

Definition set_cooldowns (v : gmap string Q) (c : Character) : Character :=
  mkCharacter (char_id c) (char_name c) (playerId c) (stats c) (rotation c)
    (attackType c) (level c) (currentHealth c) (currentMana c) v
    (periodicEffects c) (buffs c) (nextAbilityIndex c).

Definition set_periodicEffects (v : list PeriodicEffect) (c : Character) : Character :=
  mkCharacter (char_id c) (char_name c) (playerId c) (stats c) (rotation c)
    (attackType c) (level c) (currentHealth c) (currentMana c) (cooldowns c)
    v (buffs c) (nextAbilityIndex c).

Definition set_buffs (v : list Buff) (c : Character) : Character :=
  mkCharacter (char_id c) (char_name c) (playerId c) (stats c) (rotation c)
    (attackType c) (level c) (currentHealth c) (currentMana c) (cooldowns c)
    (periodicEffects c) v (nextAbilityIndex c).

Definition set_nextAbilityIndex (v : nat) (c : Character) : Character :=
  mkCharacter (char_id c) (char_name c) (playerId c) (stats c) (rotation c)
    (attackType c) (level c) (currentHealth c) (currentMana c) (cooldowns c)
    (periodicEffects c) (buffs c) v.

Definition set_buff_endTime (v : Q) (b : Buff) : Buff :=
  mkBuff (buff_name b) (buff_type b) (buff_amount b) (buff_duration b) v.

Definition set_pe_endTime (v : Q) (e : PeriodicEffect) : PeriodicEffect :=
  mkEffect (pe_name e) (pe_type e) (pe_amount e) (pe_damage e) (pe_duration e)
    (pe_interval e) (pe_lastProcTime e) v (pe_sourceName e).

Definition set_pe_lastProcTime (v : Q) (e : PeriodicEffect) : PeriodicEffect :=
  mkEffect (pe_name e) (pe_type e) (pe_amount e) (pe_damage e) (pe_duration e)
    (pe_interval e) v (pe_endTime e) (pe_sourceName e).

Definition set_pe_sourceName (v : string) (e : PeriodicEffect) : PeriodicEffect :=
  mkEffect (pe_name e) (pe_type e) (pe_amount e) (pe_damage e) (pe_duration e)
    (pe_interval e) (pe_lastProcTime e) (pe_endTime e) v.

Definition getC (s : BattleState) (sd : Side) : Character :=
  match sd with First => character1 s | Second => character2 s end.

Definition setC (sd : Side) (c : Character) (s : BattleState) : BattleState :=
  match sd with
  | First => mkBattleState c (character2 s) (log s) (rounds s) (winner s) (draws s)
  | Second => mkBattleState (character1 s) c (log s) (rounds s) (winner s) (draws s)
  end.

Definition updC (sd : Side) (f : Character -> Character) (s : BattleState) : BattleState :=
  setC sd (f (getC s sd)) s.

Definition set_winner (w : option string) (s : BattleState) : BattleState :=
  mkBattleState (character1 s) (character2 s) (log s) (rounds s) w (draws s).

Definition incr_rounds (s : BattleState) : BattleState :=
  mkBattleState (character1 s) (character2 s) (log s) (S (rounds s)) (winner s) (draws s).

(** ** utils/battle-utils.js *)

Definition createLogEntry (time : Q) (message : Message) : LogEntry :=
  mkLogEntry (toFixed1 time) message.

(** [battleState.log.push(createLogEntry(time, message))]. *)
Definition pushLog (time : Q) (message : Message) (s : BattleState) : BattleState :=
  mkBattleState (character1 s) (character2 s)
    (log s ++ [createLogEntry time message]) (rounds s) (winner s) (draws s).

(** The product is taken exactly.  In double precision a product that
    lies halfway between two whole numbers (45 * (1 - 0.3) = 31.5) can
    come out just below and round to the lower one. *)
Definition applyDamageReduction (baseDamage damageReduction : Q) : Q :=
  let reductionMultiplier := Math_min (8 # 10) (damageReduction / 100) in
  Math_max 1 (Math_round (baseDamage * (1 - reductionMultiplier))).

Definition hasEnoughMana (character : Character) (ability : Ability) : bool :=
  negb (truthy (ab_manaCost ability))
  || ngeq (currentMana character) (orElse (ab_manaCost ability) 0).

(** The names that every plain object inherits from [Object.prototype]. *)
Definition objectPrototypeKeys : list string :=
  ["constructor"; "__defineGetter__"; "__defineSetter__"; "hasOwnProperty";
   "__lookupGetter__"; "__lookupSetter__"; "isPrototypeOf"; "propertyIsEnumerable";
   "toString"; "valueOf"; "__proto__"; "toLocaleString"]%string.

(** Whether [cooldowns[id]] is an inherited member instead of a stored
    number: the object has no entry of its own under [id] (an own entry
    hides the inherited one) and [id] is a name of [Object.prototype].
    Such a member is a function or an object: it is truthy, so that
    [cooldowns[id] || 0] is that member, and [time >= member] is false. *)
Definition inheritedMember (cooldowns : gmap string Q) (id : string) : bool :=
  match cooldowns !! id with
  | Some _ => false
  | None => existsb (String.eqb id) objectPrototypeKeys
  end.

Definition getEffectiveAttackSpeed (character : Character) : Q :=
  let attackSpeedModifier :=
    fold_left (fun m buff =>
                 if String.eqb (buff_type buff) "attackSpeedReduction"
                 then m * (1 + buff_amount buff / 100)
                 else m)
              (buffs character) 1 in
  attackSpeed (stats character) * attackSpeedModifier.

(** ** The battle service *)

Record AttackResult := mkAttackResult {
  damage : Q;
  isCritical : bool;
  baseDamage : Q
}.

(** The formatted result, battle-model's formatBattleResult (the
    generated battle id and the wall-clock timestamp are left out). *)
Record BattleResult := mkBattleResult {
  res_character : Character;
  res_characterExp : Q;
  res_opponent : Character;
  res_opponentExp : Q;
  res_winner : option string;
  res_log : list LogEntry;
  res_rounds : nat;
  res_isMatchmade : bool
}.

(** The loop variables of simulateBattle together with the battle state. *)
Record Schedule := mkSchedule {
  battleState : BattleState;
  char1NextAttack : Q;
  char2NextAttack : Q;
  battleTime : Q
}.

Definition maxBattleTime : Q := 300.

(** [attacker.buffs.forEach(...)] of the two attack functions: the
    damageIncrease buffs of the attacker, applied in list order, rounding
    after each. *)
Definition applyDamageBuffs (bs : list Buff) (baseDamage : Q) : Q :=
  fold_left (fun d buff =>
               if String.eqb (buff_type buff) "damageIncrease"
               then Math_round (d * (1 + buff_amount buff / 100))
               else d)
            bs baseDamage.

(** The reduction buffs of type [ty] of the defender, added in list
    order to the base reduction. *)
Definition addReductionBuffs (ty : string) (bs : list Buff) (damageReduction : Q) : Q :=
  fold_left (fun r buff =>
               if String.eqb (buff_type buff) ty
               then r + buff_amount buff / 100
               else r)
            bs damageReduction.

(** The magnitude of a buff cast by a character with statistics [st]
    (first lines of processBuffAbility). *)
Definition buffAmountOf (be : BuffEffect) (st : Stats) : Q :=
  if be_magicDamageScaling be then
    let avgMagicDmg := (minMagicDamage st + maxMagicDamage st) / 2 in
    let scalingRate := orElse (be_scalingRate be) (2 # 10) in
    let baseAmount := orElse (be_baseAmount be) 15 in
    let maxAmount := orElse (be_maxAmount be) 35 in
    Math_min maxAmount (baseAmount + Math_round (avgMagicDmg * scalingRate))
  else orElse (be_amount be) 0.

Definition isMagic (ability : Ability) : bool := String.eqb (ab_type ability) "magic".

(** [ability.damage === kind]. *)
Definition damageIs (ability : Ability) (kind : string) : bool :=
  match ab_damage ability with
  | Some d => String.eqb d kind
  | None => false
  end.

Section BattleService.

(** The successive values returned by [Math.random()]. *)
Variable random : nat -> Q.

(** The ability catalogue behind ability-service's getAbility. *)
Variable abilities : list Ability.

Definition Math_random (s : BattleState) : Q * BattleState :=
  (random (draws s),
   mkBattleState (character1 s) (character2 s) (log s) (rounds s) (winner s)
     (S (draws s))).

Definition randomInt (min max : Q) (s : BattleState) : Q * BattleState :=
  let '(r, s) := Math_random s in
  (Math_floor (r * (max - min + 1)) + min, s).

Definition calculateCritical (critChance : Q) (s : BattleState) : bool * BattleState :=
  let '(r, s) := Math_random s in
  (leq (r * 100) critChance, s).

Definition getAbility (abilityId : string) : option Ability :=
  List.find (fun ability => String.eqb (ab_id ability) abilityId) abilities.

Definition getAbilityByName (name : string) : option Ability :=
  List.find (fun ability => String.eqb (ab_name ability) name) abilities.

Definition performPhysicalAttack (s : BattleState) (a : Side) (time : Q)
    (attackName : string) (multiplier : Q) (guaranteedCrit : bool)
    : AttackResult * BattleState :=
  let attacker := getC s a in
  let defender := getC s (other a) in
  let minDmg := minPhysicalDamage (stats attacker) in
  let maxDmg := maxPhysicalDamage (stats attacker) in
  let '(r, s) := randomInt minDmg maxDmg s in
  let baseDamage := Math_round (r * multiplier) in
  let baseDamage := applyDamageBuffs (buffs attacker) baseDamage in
  let critChance := criticalChance (stats attacker) in
  let '(isCrit, s) :=
    if guaranteedCrit then (true, s) else calculateCritical critChance s in
  let baseDamage := if isCrit then Math_round (baseDamage * 2) else baseDamage in
  let damageReduction :=
    addReductionBuffs "physicalReduction" (buffs defender)
      (physicalDamageReduction (stats defender) / 100) in
  let finalDamage := applyDamageReduction baseDamage (damageReduction * 100) in
  let s := updC (other a) (fun d => set_currentHealth (nsub (currentHealth d) finalDamage) d) s in
  let s := pushLog time
             (MsgPhysicalHit (char_name attacker) attackName isCrit
                (char_name defender) finalDamage) s in
  let s := if nleq (currentHealth (getC s (other a))) 0
           then pushLog time (MsgDefeated (char_name defender)) s
           else s in
  (mkAttackResult finalDamage isCrit baseDamage, s).

Definition performMagicAttack (s : BattleState) (a : Side) (time : Q)
    (attackName : string) (multiplier : Q) : AttackResult * BattleState :=
  let attacker := getC s a in
  let defender := getC s (other a) in
  let minDmg := minMagicDamage (stats attacker) in
  let maxDmg := maxMagicDamage (stats attacker) in
  let '(r, s) := randomInt minDmg maxDmg s in
  let baseDamage := Math_round (r * multiplier) in
  let baseDamage := applyDamageBuffs (buffs attacker) baseDamage in
  let ability := getAbilityByName attackName in
  let critChance := spellCritChance (stats attacker) in
  let critChance :=
    match ability with
    | Some ab => if truthy (ab_baseCritBonus ab)
                 then critChance + orElse (ab_baseCritBonus ab) 0
                 else critChance
    | None => critChance
    end in
  let '(isCrit, s) := calculateCritical critChance s in
  let baseDamage := if isCrit then Math_round (baseDamage * 2) else baseDamage in
  let damageReduction :=
    addReductionBuffs "magicReduction" (buffs defender)
      (magicDamageReduction (stats defender) / 100) in
  let finalDamage := applyDamageReduction baseDamage (damageReduction * 100) in
  let s := updC (other a) (fun d => set_currentHealth (nsub (currentHealth d) finalDamage) d) s in
  let s := pushLog time
             (MsgMagicHit (char_name attacker) attackName isCrit
                (char_name defender) finalDamage) s in
  let s := if nleq (currentHealth (getC s (other a))) 0
           then pushLog time (MsgDefeated (char_name defender)) s
           else s in
  (mkAttackResult finalDamage isCrit baseDamage, s).

Definition performBasicAttack (s : BattleState) (a : Side) (time : Q) : BattleState :=
  if String.eqb (attackType (getC s a)) "magic"
  then snd (performMagicAttack s a time "Basic Magic Attack" 1)
  else snd (performPhysicalAttack s a time "Basic Attack" 1 false).

(** [character.buffs.find(b => b.type === buff.type)], with the index of
    the entry found. *)
Definition findBuff (ty : string) (bs : list Buff) : option (nat * Buff) :=
  list_find (fun b => buff_type b = ty) bs.

Definition findEffect (ty : string) (es : list PeriodicEffect) : option (nat * PeriodicEffect) :=
  list_find (fun e => pe_type e = ty) es.

Definition applyBuff (s : BattleState) (target : Side) (time : Q) (buff : Buff) : BattleState :=
  let character := getC s target in
  match findBuff (buff_type buff) (buffs character) with
  | Some (i, existingBuff) =>
      let s := updC target
                 (fun c => set_buffs
                    (<[i := set_buff_endTime (time + buff_duration buff) existingBuff]>
                       (buffs c)) c) s in
      pushLog time (MsgRefreshed (char_name character) (buff_name buff) (buff_duration buff)) s
  | None =>
      let s := updC target (fun c => set_buffs (buffs c ++ [buff]) c) s in
      pushLog time (MsgBuffGained (char_name character) (buff_name buff) (buff_duration buff)) s
  end.

Definition applyPeriodicEffect (s : BattleState) (source target : Side) (time : Q)
    (effect : PeriodicEffect) : BattleState :=
  let tgt := getC s target in
  match findEffect (pe_type effect) (periodicEffects tgt) with
  | Some (i, existingEffect) =>
      let refreshed :=
        set_pe_lastProcTime time
          (set_pe_endTime (time + pe_duration effect) existingEffect) in
      let s := updC target
                 (fun c => set_periodicEffects (<[i := refreshed]> (periodicEffects c)) c) s in
      pushLog time (MsgRefreshed (char_name tgt) (pe_name effect) (pe_duration effect)) s
  | None =>
      let effect := set_pe_sourceName (char_name (getC s source)) effect in
      let s := updC target
                 (fun c => set_periodicEffects (periodicEffects c ++ [effect]) c) s in
      pushLog time (MsgAffectedBy (char_name tgt) (pe_name effect) (pe_duration effect)) s
  end.

Definition applyHeal (s : BattleState) (who : Side) (time : Q) (healEffect : HealEffect)
    : Num * BattleState :=
  let character := getC s who in
  let minDamage := minMagicDamage (stats character) in
  let maxDamage := maxMagicDamage (stats character) in
  let avgDamage := (minDamage + maxDamage) / 2 in
  let healAmount := Math_round (avgDamage * he_multiplier healEffect) in
  let previousHealth := currentHealth character in
  let s := updC who (fun c => set_currentHealth
                       (nmin (health (stats c)) (nadd (currentHealth c) healAmount)) c) s in
  let actualHeal := nsub (currentHealth (getC s who)) previousHealth in
  let s := pushLog time (MsgHealed (char_name character) actualHeal) s in
  (actualHeal, s).

(** One hit of a multi-attack: physical unless the ability says magic. *)
Definition multiAttackHit (s : BattleState) (a : Side) (hitTime : Q)
    (ability : Ability) (hit : nat) : BattleState :=
  let attackName := (ab_name ability ++ " (Hit " ++ pretty hit ++ ")")%string in
  let multiplier := orElse (ab_damageMultiplier ability) 1 in
  if damageIs ability "physical" then
    snd (performPhysicalAttack s a hitTime attackName multiplier false)
  else if damageIs ability "magic" then
    snd (performMagicAttack s a hitTime attackName multiplier)
  else
    snd (performPhysicalAttack s a hitTime attackName multiplier false).

(** [for (let i = ...; i < attackCount; i++)] with [n] iterations left. *)
Fixpoint multiAttackLoop (n i : nat) (s : BattleState) (a : Side) (time : Q)
    (ability : Ability) (attackDelay : Q) : BattleState :=
  match n with
  | O => s
  | S n' =>
      if nleq (currentHealth (getC s (other a))) 0 then s
      else
        let hitTime := time + (1 # 10) + inject_Z (Z.of_nat i) * attackDelay in
        let s := multiAttackHit s a hitTime ability (i + 1) in
        multiAttackLoop n' (S i) s a time ability attackDelay
  end.

Definition processMultiAttackAbility (s : BattleState) (a : Side) (time : Q)
    (ability : Ability) (ma : MultiAttack) : BattleState :=
  let s := pushLog time
             (MsgAbility (char_name (getC s a)) (isMagic ability) (ab_name ability)) s in
  let attackCount :=
    match ma_count ma with
    | Some O | None => 2%nat
    | Some c => c
    end in
  let attackDelay := orElse (ma_delay ma) (5 # 10) in
  let s := multiAttackHit s a (time + (1 # 10)) ability 1 in
  multiAttackLoop (attackCount - 1) 1 s a time ability attackDelay.

Definition processBuffAbility (s : BattleState) (a : Side) (time : Q)
    (ability : Ability) (be : BuffEffect) : BattleState :=
  let attacker := getC s a in
  let defender := getC s (other a) in
  let buffAmount := buffAmountOf be (stats attacker) in
  let buffTarget :=
    match be_targetsSelf be with
    | Some false => other a
    | _ => a
    end in
  let s := applyBuff s buffTarget time
             (mkBuff (ab_name ability) (be_type be) buffAmount (be_duration be)
                (time + be_duration be)) in
  let who := char_name attacker in
  let casts := isMagic ability in
  if String.eqb (be_type be) "physicalReduction" then
    pushLog time (MsgBuffPhysicalReduction who casts (ab_name ability) buffAmount (be_duration be)) s
  else if String.eqb (be_type be) "damageIncrease" then
    pushLog time (MsgBuffDamageIncrease who casts (ab_name ability) buffAmount (be_duration be)) s
  else if String.eqb (be_type be) "attackSpeedReduction" then
    pushLog time (MsgBuffAttackSlow who casts (ab_name ability) (char_name defender)
                    buffAmount (be_duration be)) s
  else
    pushLog time (MsgBuffOther who casts (ab_name ability) (be_type be) (be_duration be)) s.

Definition processHealAbility (s : BattleState) (a : Side) (time : Q)
    (ability : Ability) (he : HealEffect) : BattleState :=
  let s := pushLog time
             (MsgAbility (char_name (getC s a)) (isMagic ability) (ab_name ability)) s in
  snd (applyHeal s a time he).

Definition processDotAbility (s : BattleState) (a : Side) (time : Q)
    (ability : Ability) (de : DotEffect) : BattleState :=
  let s :=
    if damageIs ability "physical" then
      snd (performPhysicalAttack s a time (ab_name ability)
             (orElse (ab_damageMultiplier ability) (11 # 10)) false)
    else if damageIs ability "magic" then
      snd (performMagicAttack s a time (ab_name ability)
             (orElse (ab_damageMultiplier ability) (11 # 10)))
    else s in
  applyPeriodicEffect s a (other a) time
    (mkEffect (capitalize (de_type de)) (de_type de) None (Some (de_damage de))
       (de_duration de) (orElse (de_interval de) 1) time
       (time + de_duration de) "").

Definition processPeriodicAbility (s : BattleState) (a : Side) (time : Q)
    (ability : Ability) (ps : PeriodicSpec) : BattleState :=
  let abilityMessage :=
    MsgAbility (char_name (getC s a)) (isMagic ability) (ab_name ability) in
  let s := applyPeriodicEffect s a (other a) time
             (mkEffect (ab_name ability) (ps_type ps) (Some (ps_amount ps)) None
                (ps_duration ps) (ps_interval ps) time
                (time + ps_duration ps) "") in
  if String.eqb (ps_type ps) "manaDrain" then
    let manaDrained := nmin (currentMana (getC s (other a))) (ps_amount ps) in
    let s := updC (other a) (fun d => set_currentMana (nsub (currentMana d) manaDrained) d) s in
    let s := updC a (fun c => set_currentMana
                       (nmin (mana (stats c)) (nadd (currentMana c) (ps_amount ps))) c) s in
    let s := pushLog time
               (MsgManaDrainCast (char_name (getC s a)) (ab_name ability)
                  (char_name (getC s (other a))) manaDrained) s in
    if ngtq manaDrained 0
    then pushLog (time + (1 # 10))
           (MsgManaGain (char_name (getC s a)) (Some (ps_amount ps)) (ab_name ability)) s
    else s
  else pushLog time abilityMessage s.

Definition processDamageAbility (s : BattleState) (a : Side) (time : Q)
    (ability : Ability) : BattleState :=
  if damageIs ability "physical" then
    snd (performPhysicalAttack s a time (ab_name ability)
           (orElse (ab_damageMultiplier ability) 1) false)
  else if damageIs ability "magic" then
      let damageMultiplier := orElse (ab_damageMultiplier ability) (15 # 10) in
      let '(attackResult, s) :=
        performMagicAttack s a time (ab_name ability) damageMultiplier in
      let s :=
        if truthy (ab_selfDamagePercent ability) && gtq (damage attackResult) 0 then
          let selfDamage :=
            Math_round (damage attackResult
                        * (orElse (ab_selfDamagePercent ability) 0 / 100)) in
          if gtq selfDamage 0 then
            let s := updC a (fun c => set_currentHealth
                               (nsub (currentHealth c) selfDamage) c) s in
            let s := pushLog (time + (1 # 10))
                       (MsgBacklash (char_name (getC s a)) selfDamage (ab_name ability)) s in
            if nleq (currentHealth (getC s a)) 0
            then pushLog (time + (2 # 10)) (MsgSelfDefeat (char_name (getC s a))) s
            else s
          else s
        else s in
      match ab_criticalEffect ability with
      | Some ce =>
          if isCritical attackResult && String.eqb (ce_type ce) "burning" then
            let attacker := getC s a in
            let avgMagicDmg :=
              (minMagicDamage (stats attacker) + maxMagicDamage (stats attacker)) / 2 in
            let dotDamage := Math_round (avgMagicDmg * (ce_damagePercent ce / 100)) in
            let s := applyPeriodicEffect s a (other a) time
                       (mkEffect "Burning" "burning" None (Some dotDamage) (ce_duration ce)
                          (orElse (ce_interval ce) 1) time
                          (time + ce_duration ce) "") in
            pushLog (time + (2 # 10))
              (MsgBurningApplied (char_name (getC s (other a))) dotDamage (ce_duration ce)) s
          else s
      | None => s
      end
  else performBasicAttack s a time.

Definition processAbility (s : BattleState) (a : Side) (time : Q)
    (ability : Ability) : BattleState :=
  match ab_buffEffect ability with
  | Some be => processBuffAbility s a time ability be
  | None =>
  match ab_healEffect ability with
  | Some he => processHealAbility s a time ability he
  | None =>
  match ab_dotEffect ability with
  | Some de => processDotAbility s a time ability de
  | None =>
  match ab_periodicEffect ability with
  | Some ps => processPeriodicAbility s a time ability ps
  | None =>
  if ab_guaranteedCrit ability then
    snd (performPhysicalAttack s a time (ab_name ability)
           (orElse (ab_damageMultiplier ability) (12 # 10)) true)
  else
  match ab_multiAttack ability with
  | Some ma => processMultiAttackAbility s a time ability ma
  | None => processDamageAbility s a time ability
  end end end end end.

Definition processAttack (s : BattleState) (a : Side) (time : Q) : BattleState :=
  let attacker := getC s a in
  let usable :=
    match rotation attacker !! nextAbilityIndex attacker with
    | Some nextAbilityId =>
        let cooldownEnd := orElse (cooldowns attacker !! nextAbilityId) 0 in
        if negb (inheritedMember (cooldowns attacker) nextAbilityId)
           && geq time cooldownEnd then
          match getAbility nextAbilityId with
          | Some ability => if hasEnoughMana attacker ability then Some ability else None
          | None => None
          end
        else None
    | None => None
    end in
  match usable with
  | Some ability =>
      let s := if truthy (ab_manaCost ability)
               then updC a (fun c => set_currentMana
                              (nsub (currentMana c) (orElse (ab_manaCost ability) 0)) c) s
               else s in
      let s := updC a (fun c => set_cooldowns
                         (<[ab_id ability := time + ab_cooldown ability]> (cooldowns c)) c) s in
      let s := processAbility s a time ability in
      updC a (fun c => set_nextAbilityIndex
                ((nextAbilityIndex c + 1) mod length (rotation c))%nat c) s
  | None => performBasicAttack s a time
  end.

(** The [switch (effect.type)] of processCharacterEffects: one tick of
    [effect] on the character in slot [c].  An unknown type only logs a
    console warning, which leaves the battle state alone. *)
Definition tickEffect (s : BattleState) (c : Side) (time : Q)
    (effect : PeriodicEffect) : BattleState :=
  let ty := pe_type effect in
  if String.eqb ty "poison" then
    let s := updC c (fun ch => set_currentHealth
                       (nsub (currentHealth ch) (fieldNumber (pe_damage effect))) ch) s in
    let s := pushLog time
               (MsgEffectDamage (char_name (getC s c)) (pe_damage effect) (pe_name effect)) s in
    if nleq (currentHealth (getC s c)) 0
    then pushLog time (MsgDefeatedBy (char_name (getC s c)) (pe_name effect)) s
    else s
  else if String.eqb ty "burning" then
    let s := updC c (fun ch => set_currentHealth
                       (nsub (currentHealth ch) (fieldNumber (pe_damage effect))) ch) s in
    let s := pushLog time
               (MsgEffectDamage (char_name (getC s c)) (pe_damage effect) (pe_name effect)) s in
    if nleq (currentHealth (getC s c)) 0
    then pushLog time (MsgBurnedToAsh (char_name (getC s c))) s
    else s
  else if String.eqb ty "manaDrain" then
    let source :=
      if String.eqb (pe_sourceName effect) (char_name (character1 s))
      then First else Second in
    let manaDrained := nmin (currentMana (getC s c)) (fieldNumber (pe_amount effect)) in
    let s := updC c (fun ch => set_currentMana (nsub (currentMana ch) manaDrained) ch) s in
    let s := updC source
               (fun src => set_currentMana
                  (nmin (mana (stats src))
                     (nadd (currentMana src) (fieldNumber (pe_amount effect)))) src) s in
    if ngtq manaDrained 0 then
      let s := pushLog time
                 (MsgLosesMana (char_name (getC s c)) manaDrained (pe_name effect)) s in
      pushLog (time + (1 # 10))
        (MsgManaGain (char_name (getC s source)) (pe_amount effect) (pe_name effect)) s
    else s
  else if String.eqb ty "regeneration" then
    let healAmount := pe_amount effect in
    let s := updC c (fun ch => set_currentHealth
                       (nmin (health (stats ch))
                          (nadd (currentHealth ch) (fieldNumber healAmount))) ch) s in
    pushLog time (MsgRegenHealth (char_name (getC s c)) healAmount (pe_name effect)) s
  else if String.eqb ty "manaRegen" then
    let manaAmount := pe_amount effect in
    let s := updC c (fun ch => set_currentMana
                       (nmin (mana (stats ch))
                          (nadd (currentMana ch) (fieldNumber manaAmount))) ch) s in
    pushLog time (MsgRegenMana (char_name (getC s c)) manaAmount (pe_name effect)) s
  else s.

(** Whether the effect procs at [time]. *)
Definition effectDue (time : Q) (effect : PeriodicEffect) : bool :=
  geq time (pe_lastProcTime effect + pe_interval effect)
  && ltq time (pe_endTime effect).

(** The body of the first loop of processCharacterEffects at index [i].
    The loop only visits indices below the current length, so the lookup
    always succeeds. *)
Definition effectStep (s : BattleState) (c : Side) (time : Q) (i : nat) : BattleState :=
  match periodicEffects (getC s c) !! i with
  | None => s
  | Some effect =>
      let s :=
        if effectDue time effect then
          let s := tickEffect s c time effect in
          updC c (fun ch => set_periodicEffects
                    (<[i := set_pe_lastProcTime time effect]> (periodicEffects ch)) ch) s
        else s in
      if geq time (pe_endTime effect) then
        let s := updC c (fun ch => set_periodicEffects (delete i (periodicEffects ch)) ch) s in
        pushLog time (MsgEffectExpired (pe_name effect) (char_name (getC s c))) s
      else s
  end.

(** [for (let i = n - 1; i >= 0; i--)]. *)
Fixpoint effectsLoop (n : nat) (s : BattleState) (c : Side) (time : Q) : BattleState :=
  match n with
  | O => s
  | S i => effectsLoop i (effectStep s c time i) c time
  end.

Definition buffStep (s : BattleState) (c : Side) (time : Q) (i : nat) : BattleState :=
  match buffs (getC s c) !! i with
  | None => s
  | Some buff =>
      if geq time (buff_endTime buff) then
        let s := updC c (fun ch => set_buffs (delete i (buffs ch)) ch) s in
        pushLog time (MsgBuffExpired (buff_name buff) (char_name (getC s c))) s
      else s
  end.

Fixpoint buffsLoop (n : nat) (s : BattleState) (c : Side) (time : Q) : BattleState :=
  match n with
  | O => s
  | S i => buffsLoop i (buffStep s c time i) c time
  end.

Definition processCharacterEffects (s : BattleState) (c : Side) (time : Q) : BattleState :=
  let s := effectsLoop (length (periodicEffects (getC s c))) s c time in
  buffsLoop (length (buffs (getC s c))) s c time.

Definition processEffects (s : BattleState) (time : Q) : BattleState :=
  let s := processCharacterEffects s First time in
  processCharacterEffects s Second time.

Definition healthPercent (c : Character) : Num :=
  nmul (ndiv (currentHealth c) (health (stats c))) 100.

Definition logFinalState (s : BattleState) (battleTime : Q) : BattleState :=
  let final (c : Character) :=
    MsgFinalState (char_name c) (nfloor (currentHealth c))
      (match currentHealth c with
       | Finite h =>
           if gtq h 0 then Some (toFixed1 (h / health (stats c) * 100)) else None
       | NaN => None
       end)
      (nfloor (currentMana c)) in
  let s := pushLog (battleTime + (1 # 10)) (final (character1 s)) s in
  pushLog (battleTime + (2 # 10)) (final (character2 s)) s.

Definition determineWinner (s : BattleState) (battleTime : Q) : BattleState :=
  if nleq (currentHealth (character1 s)) 0 then
    let s := set_winner (Some (char_id (character2 s))) s in
    let s := pushLog battleTime (MsgWins (char_name (character2 s))) s in
    logFinalState s battleTime
  else if nleq (currentHealth (character2 s)) 0 then
    let s := set_winner (Some (char_id (character1 s))) s in
    let s := pushLog battleTime (MsgWins (char_name (character1 s))) s in
    logFinalState s battleTime
  else
    let char1HealthPercent := healthPercent (character1 s) in
    let char2HealthPercent := healthPercent (character2 s) in
    let s :=
      if ngtq char1HealthPercent char2HealthPercent then
        let s := set_winner (Some (char_id (character1 s))) s in
        pushLog battleTime (MsgTimeLimitWins (char_name (character1 s))) s
      else if ngtq char2HealthPercent char1HealthPercent then
        let s := set_winner (Some (char_id (character2 s))) s in
        pushLog battleTime (MsgTimeLimitWins (char_name (character2 s))) s
      else
        let s := set_winner None s in
        pushLog battleTime MsgTimeLimitDraw s in
    logFinalState s battleTime.

(** character-model's createBattleState. *)
Definition createCharacterBattleState (character : CharacterData) : Character :=
  mkCharacter (cd_id character) (cd_name character) (cd_playerId character)
    (cd_stats character) (cd_rotation character) (cd_attackType character)
    (cd_level character)
    (health (cd_stats character)) (mana (cd_stats character)) ∅ [] [] 0.

(** battle-model's createBattleState. *)
Definition createBattleState (character1 character2 : Character) : BattleState :=
  mkBattleState character1 character2 [] 0 None 0.

Definition initializeBattleLog (s : BattleState) : BattleState :=
  let c1 := character1 s in
  let c2 := character2 s in
  let s := pushLog 0 (MsgBattleStarted (char_name c1) (char_name c2)) s in
  let s := pushLog (1 # 10)
             (MsgInitialState (char_name c1) (currentHealth c1) (currentMana c1)) s in
  pushLog (2 # 10) (MsgInitialState (char_name c2) (currentHealth c2) (currentMana c2)) s.

(** The loop condition of simulateBattle. *)
Definition battleContinues (sch : Schedule) : bool :=
  ngtq (currentHealth (character1 (battleState sch))) 0
  && ngtq (currentHealth (character2 (battleState sch))) 0
  && ltq (battleTime sch) maxBattleTime.

(** The loop body of simulateBattle. *)
Definition battleRound (sch : Schedule) : Schedule :=
  let s := battleState sch in
  if leq (char1NextAttack sch) (char2NextAttack sch) then
    let battleTime := char1NextAttack sch in
    let s := processAttack s First battleTime in
    let next1 := char1NextAttack sch + getEffectiveAttackSpeed (character1 s) in
    let s := processEffects s battleTime in
    mkSchedule (incr_rounds s) next1 (char2NextAttack sch) battleTime
  else
    let battleTime := char2NextAttack sch in
    let s := processAttack s Second battleTime in
    let next2 := char2NextAttack sch + getEffectiveAttackSpeed (character2 s) in
    let s := processEffects s battleTime in
    mkSchedule (incr_rounds s) (char1NextAttack sch) next2 battleTime.

(** The [while] loop of simulateBattle; [None] when [fuel] rounds do not
    reach the end of the battle. *)
Fixpoint battleLoop (fuel : nat) (sch : Schedule) : option Schedule :=
  if battleContinues sch then
    match fuel with
    | O => None
    | S fuel' => battleLoop fuel' (battleRound sch)
    end
  else Some sch.

(** character-model's calculateBattleExperience (with its own randomInt,
    which draws from the same [Math.random]). *)
Definition calculateBattleExperience (isWinner : bool) (characterLevel : Q)
    (isMatchmade : bool) (s : BattleState) : Q * BattleState :=
  if negb isMatchmade then (0, s)
  else
    let levelMultiplier := 1 + (characterLevel - 1) * (1 # 10) in
    let '(baseExp, s) := if isWinner then randomInt 20 30 s else randomInt 5 10 s in
    (Math_round (baseExp * levelMultiplier), s).

Definition isWinnerOf (w : option string) (c : Character) : bool :=
  match w with
  | Some i => String.eqb i (char_id c)
  | None => false
  end.

Definition formatBattleResult (s : BattleState) (isMatchmade : bool) : BattleResult :=
  let c1 := character1 s in
  let c2 := character2 s in
  let '(char1Exp, s1) :=
    if isMatchmade
    then calculateBattleExperience (isWinnerOf (winner s) c1) (orElse (level c1) 1) isMatchmade s
    else (0, s) in
  let '(char2Exp, _) :=
    if isMatchmade
    then calculateBattleExperience (isWinnerOf (winner s) c2) (orElse (level c2) 1) isMatchmade s1
    else (0, s1) in
  mkBattleResult c1 char1Exp c2 char2Exp (winner s) (log s) (rounds s) isMatchmade.

Definition initialSchedule (character1 character2 : CharacterData) : Schedule :=
  let s := createBattleState (createCharacterBattleState character1)
             (createCharacterBattleState character2) in
  mkSchedule (initializeBattleLog s) 0 0 0.

Definition simulateBattle (fuel : nat) (character1 character2 : CharacterData)
    (isMatchmade : bool) : option BattleResult :=
  match battleLoop fuel (initialSchedule character1 character2) with
  | Some sch =>
      let s := determineWinner (battleState sch) (battleTime sch) in
      Some (formatBattleResult s isMatchmade)
  | None => None
  end.

End BattleService.

(** ** services/matchmaking.js *)

Module Matchmaking.

Record QueueEntry := mkQueueEntry {
  characterId : string;
  playerId : string;
  timestamp : string
}.

Record MatchInfo := mkMatchInfo {
  opponentId : string;
  battleId : string
}.

(** The two module-level variables of the service, and the number of
    battles started so far (each started battle gets a fresh id). *)
Record State := mkState {
  matchmakingQueue : list QueueEntry;
  pendingMatchNotifications : gmap string MatchInfo;
  battlesStarted : nat
}.

Inductive QueueResult :=
  | MatchFound (m : MatchInfo)
  | StillSearching (queuePosition : option nat)
  | AddedToQueue (queuePosition : option nat).

Inductive StatusResult :=
  | NotInQueue (m : option MatchInfo)
  | InQueue (queuePosition : option nat) (queueTime : string).

Section Service.

(** [startBattle(characterId1, characterId2).id]: the id of the battle
    that the n-th call simulates and saves.  Its effects on the
    persisted battle logs and characters are outside the queue state. *)
Variable startBattle : nat -> string -> string -> string.

Definition getQueuePosition (st : State) (cid : string) : option nat :=
  match list_find (fun entry => characterId entry = cid) (matchmakingQueue st) with
  | Some (index, _) => Some (index + 1)%nat
  | None => None
  end.

(** The predicate of [matchmakingQueue.find] in findMatch. *)
Definition isOpponentFor (cid pid : string) (entry : QueueEntry) : bool :=
  negb (String.eqb (characterId entry) cid) && negb (String.eqb (playerId entry) pid).

Definition findMatch (cid pid : string) (st : State) : option MatchInfo * State :=
  match List.find (isOpponentFor cid pid) (matchmakingQueue st) with
  | None => (None, st)
  | Some opponent =>
      let queue :=
        List.filter (fun entry =>
                  negb (String.eqb (characterId entry) cid)
                  && negb (String.eqb (characterId entry) (characterId opponent)))
               (matchmakingQueue st) in
      let battle := startBattle (battlesStarted st) cid (characterId opponent) in
      let matchInfo := mkMatchInfo cid battle in
      (Some (mkMatchInfo (characterId opponent) battle),
       mkState queue
         (<[characterId opponent := matchInfo]> (pendingMatchNotifications st))
         (S (battlesStarted st)))
  end.

Definition addToQueue (cid pid now : string) (st : State) : QueueResult * State :=
  match pendingMatchNotifications st !! cid with
  | Some m =>
      (MatchFound m,
       mkState (matchmakingQueue st) (delete cid (pendingMatchNotifications st))
         (battlesStarted st))
  | None =>
      match list_find (fun entry => characterId entry = cid) (matchmakingQueue st) with
      | Some (i, existingEntry) =>
          let st := mkState
                      (<[i := mkQueueEntry (characterId existingEntry)
                                (playerId existingEntry) now]> (matchmakingQueue st))
                      (pendingMatchNotifications st) (battlesStarted st) in
          (StillSearching (getQueuePosition st cid), st)
      | None =>
          let st := mkState (matchmakingQueue st ++ [mkQueueEntry cid pid now])
                      (pendingMatchNotifications st) (battlesStarted st) in
          match findMatch cid pid st with
          | (Some m, st) => (MatchFound m, st)
          | (None, st) => (AddedToQueue (getQueuePosition st cid), st)
          end
      end
  end.

Definition removeFromQueue (cid : string) (st : State) : bool * State :=
  let initialLength := length (matchmakingQueue st) in
  let queue := List.filter (fun entry => negb (String.eqb (characterId entry) cid))
                 (matchmakingQueue st) in
  ((length queue <? initialLength)%nat,
   mkState queue (delete cid (pendingMatchNotifications st)) (battlesStarted st)).

Definition checkQueueStatus (cid pid : string) (st : State) : StatusResult * State :=
  match pendingMatchNotifications st !! cid with
  | Some m =>
      (NotInQueue (Some m),
       mkState (matchmakingQueue st) (delete cid (pendingMatchNotifications st))
         (battlesStarted st))
  | None =>
      match List.find (fun entry => String.eqb (characterId entry) cid) (matchmakingQueue st) with
      | None => (NotInQueue None, st)
      | Some queueEntry =>
          match findMatch cid pid st with
          | (Some m, st) => (NotInQueue (Some m), st)
          | (None, st) => (InQueue (getQueuePosition st cid) (timestamp queueEntry), st)
          end
      end
  end.

End Service.

End Matchmaking.

(** ** Vocabulary of the verification *)

(** Order and equality of JavaScript numbers as propositions: like the
    comparisons of the language they do not hold when a side is NaN. *)
Definition Nle (x y : Num) : Prop :=
  match x, y with Finite a, Finite b => a <= b | _, _ => False end.

Definition Nlt (x y : Num) : Prop :=
  match x, y with Finite a, Finite b => a < b | _, _ => False end.

Definition Neq (x y : Num) : Prop :=
  match x, y with Finite a, Finite b => a == b | _, _ => False end.

(** The periodic-effect types whose tick reads the field [damage], and
    those whose tick reads the field [amount]. *)
Definition readsDamage (ty : string) : bool :=
  String.eqb ty "poison" || String.eqb ty "burning".

Definition readsAmount (ty : string) : bool :=
  String.eqb ty "manaDrain" || String.eqb ty "regeneration" || String.eqb ty "manaRegen".






(** The part of a character that attacks, heals and ticks leave alone. *)
Definition shape (c : Character) :=
  (char_id c, char_name c, playerId c, stats c, rotation c, attackType c,
   level c, periodicEffects c, buffs c).

(** [frame s s']: both combatants have the same shape in [s] and [s']. *)
Definition frame (s s' : BattleState) : Prop :=
  forall sd, shape (getC s' sd) = shape (getC s sd).

(** A slowing buff scales the attack interval by a factor that is at
    least [lo]. *)
Definition okBuff (lo : Q) (b : Buff) : Prop :=
  buff_type b = "attackSpeedReduction"%string -> lo <= 1 + buff_amount b / 100.

Record charInv (lo : Q) (d : CharacterData) (c : Character) : Prop := mkCharInv {
  inv_id : char_id c = cd_id d;
  inv_name : char_name c = cd_name d;
  inv_stats : stats c = cd_stats d;
  inv_buffs : NoDup (buff_type <$> buffs c);
  inv_effects : NoDup (pe_type <$> periodicEffects c);
  inv_speed : Forall (okBuff lo) (buffs c)
}.

Definition dataOf (d1 d2 : CharacterData) (sd : Side) : CharacterData :=
  match sd with First => d1 | Second => d2 end.

Definition Inv (lo : Q) (d1 d2 : CharacterData) (s : BattleState) : Prop :=
  forall sd, charInv lo (dataOf d1 d2 sd) (getC s sd).

(** Every slowing buff of the catalogue, cast by either combatant, scales
    the attack interval by at least [lo]. *)
Definition catalogueOk (abilities : list Ability) (lo : Q) (d1 d2 : CharacterData) : Prop :=
  forall ab be sd,
    In ab abilities -> ab_buffEffect ab = Some be ->
    be_type be = "attackSpeedReduction"%string ->
    lo <= 1 + buffAmountOf be (cd_stats (dataOf d1 d2 sd)) / 100.

(** The factors [1 + amount/100] of the slowing buffs that the catalogue
    can put on a combatant, for either caster. *)
Definition slowFactors (abilities : list Ability) (d1 d2 : CharacterData) : list Q :=
  flat_map (fun ab =>
              match ab_buffEffect ab with
              | Some be =>
                  if String.eqb (be_type be) "attackSpeedReduction"
                  then [1 + buffAmountOf be (cd_stats d1) / 100;
                        1 + buffAmountOf be (cd_stats d2) / 100]
                  else []
              | None => []
              end) abilities.

Definition lowerFactor (abilities : list Ability) (d1 d2 : CharacterData) : Q :=
  fold_right Qmin 1 (slowFactors abilities d1 d2).





(** [buff.type === 'damageIncrease']. *)
Definition isDamageIncrease (b : Buff) : bool :=
  String.eqb (buff_type b) "damageIncrease".


(** The combatant that a manaDrain tick credits: the one whose name is
    the effect's sourceName, character1 being tried first. *)
Definition drainSource (s : BattleState) (effect : PeriodicEffect) : Side :=
  if String.eqb (pe_sourceName effect) (char_name (character1 s)) then First else Second.

(** One pass of the first loop of processCharacterEffects over a list of
    effects, as a map followed by a filter: an effect that is due gets
    lastProcTime = time, an effect with endTime <= time is dropped. *)
Definition stepEffects (time : Q) (l : list PeriodicEffect) : list PeriodicEffect :=
  List.filter (fun e => ltq time (pe_endTime e))
    (List.map (fun e => if effectDue time e then set_pe_lastProcTime time e else e) l).

(** Runs processEffects at each of [times] and collects the times at
    which character2 lost health. *)
Fixpoint damageTimes (times : list Q) (s : BattleState) : list Q * BattleState :=
  match times with
  | [] => ([], s)
  | t :: ts =>
      let s' := processEffects s t in
      let '(ticks, final) := damageTimes ts s' in
      (if num_test ltq (currentHealth (character2 s')) (currentHealth (character2 s))
       then t :: ticks else ticks, final)
  end.

(** The effective attack speed in the words of the specification: the
    base attack speed times the product of [1 + amount/100] over the
    attackSpeedReduction buffs of the character. *)
Definition effectiveAttackSpeedSpec (c : Character) : Q :=
  attackSpeed (stats c)
  * fold_right (fun b acc => (1 + buff_amount b / 100) * acc) 1
      (List.filter (fun b => String.eqb (buff_type b) "attackSpeedReduction") (buffs c)).

(** *** Example data

    Combatants with flat statistics (minimum and maximum damage equal, no
    critical chance, no reduction) and a stream of draws that is
    constantly one half. *)

Definition flatStats (dmg speed hp : Q) : Stats :=
  mkStats dmg dmg 0 speed dmg dmg 0 hp 50 0 0.

Definition fighter (name : string) (dmg speed hp : Q) (rot : list string)
    (attack : string) : CharacterData :=
  mkCharacterData (name ++ "-id") name (name ++ "-owner")
    (flatStats dmg speed hp) rot attack None.

Definition halves : nat -> Q := fun _ => 1 # 2.

Definition alice := fighter "alice" 1 7 100 [] "physical".
Definition bob := fighter "bob" 1 7 100 [] "physical".

Definition nuke : Ability :=
  mkAbility "nuke" "Nuke" "magic" 0 None (Some "magic"%string) (Some 1)
    None None None None false None (Some 100) None None.

Definition mage := fighter "mage" 20 5 10 ["nuke"%string] "magic".
Definition dummy := fighter "dummy" 1 5 10 [] "physical".

Definition slow1 := fighter "slow1" 6 400 10 [] "physical".
Definition slow2 := fighter "slow2" 3 300 10 [] "physical".


(** A damageIncrease buff next to a buff of another type. *)
Definition mixedBuffs : list Buff :=
  [mkBuff "Rage" "damageIncrease" 50 10 10; mkBuff "Shield" "physicalReduction" 20 10 10].

(** Two damageIncrease buffs, of 50% and of 100%. *)
Definition twoDamageBuffs : list Buff :=
  [mkBuff "Rage" "damageIncrease" 50 10 10; mkBuff "Fury" "damageIncrease" 100 10 10].

(** Alice and Bob at the start of a battle, Alice holding the buffs [bs]. *)
Definition buffedState (bs : list Buff) : BattleState :=
  updC First (set_buffs bs)
    (createBattleState (createCharacterBattleState alice)
       (createCharacterBattleState bob)).

(** A mana drain of 20 per proc, every 2 seconds for 6 seconds. *)
Definition drainSpec : PeriodicSpec := mkPeriodicSpec "manaDrain" 20 6 2.

Definition drain : Ability :=
  mkAbility "drain" "Drain" "magic" 10 (Some 30) None None
    None None None (Some drainSpec) false None None None None.

Definition drainer := fighter "drainer" 1 7 100 ["drain"%string] "magic".

(** Alice (20 of 50 mana left after paying for the spell) drains Bob, who
    has 5 mana left. *)
Definition drainState : BattleState :=
  updC Second (set_currentMana 5)
    (updC First (set_currentMana 20)
       (createBattleState (createCharacterBattleState alice)
          (createCharacterBattleState bob))).

(** The drain effect as it sits on Bob after Alice cast it at time 0. *)
Definition drainEffect : PeriodicEffect :=
  mkEffect "Drain" "manaDrain" (Some 20) None 6 2 0 6 "alice".

(** A poison: 10 damage every 2 seconds for 6 seconds, no direct hit. *)
Definition poisonDot : DotEffect := mkDotEffect "poison" 10 6 (Some 2).

Definition venom : Ability :=
  mkAbility "venom" "Venom" "physical" 0 None None None
    None None (Some poisonDot) None false None None None None.

(** Alice poisons Bob at time 0. *)
Definition poisonedState : BattleState :=
  processDotAbility halves []
    (createBattleState (createCharacterBattleState alice)
       (createCharacterBattleState bob)) First 0 venom poisonDot.

(** A periodic effect of type poison: processPeriodicAbility stores its
    [amount], the poison tick reads [damage]. *)
Definition toxinSpec : PeriodicSpec := mkPeriodicSpec "poison" 5 6 2.

Definition toxin : Ability :=
  mkAbility "toxin" "Toxin" "magic" 0 (Some 10) None None
    None None None (Some toxinSpec) false None None None None.

Definition poisoner := fighter "poisoner" 1 7 100 ["toxin"%string] "magic".
Definition quick := fighter "quick" 1 3 100 [] "physical".

(** An empty matchmaking service, and a battle-id generator. *)
Definition emptyQueue : Matchmaking.State := Matchmaking.mkState [] ∅ 0.

Definition battleIds (n : nat) (c1 c2 : string) : string :=
  ("battle-" ++ pretty n)%string.

(** ** Further vocabulary: what the operations inside a round leave alone *)

(** The fields of a character that only processAttack writes, together
    with the static ones. *)
Definition core (c : Character) :=
  (char_id c, char_name c, playerId c, stats c, rotation c, attackType c,
   level c, cooldowns c, nextAbilityIndex c).

(** [quiet s s']: from [s] to [s'] the log has only grown, the draw
    counter has not gone back, and rounds, winner and the [core] of both
    combatants are the same. *)
Definition quiet (s s' : BattleState) : Prop :=
  log s `prefix_of` log s' /\
  rounds s' = rounds s /\
  winner s' = winner s /\
  (draws s <= draws s')%nat /\
  forall sd, core (getC s' sd) = core (getC s sd).

(** The ability that processAttack uses for [attacker] at [time], if
    any: the one in the current rotation slot, when its id does not hit
    an inherited member of the cooldowns object, it is off cooldown,
    known to the catalogue and affordable. *)
Definition usableAbility (abilities : list Ability) (attacker : Character) (time : Q)
    : option Ability :=
  match rotation attacker !! nextAbilityIndex attacker with
  | Some nextAbilityId =>
      let cooldownEnd := orElse (cooldowns attacker !! nextAbilityId) 0 in
      if negb (inheritedMember (cooldowns attacker) nextAbilityId)
         && geq time cooldownEnd then
        match getAbility abilities nextAbilityId with
        | Some ability => if hasEnoughMana attacker ability then Some ability else None
        | None => None
        end
      else None
  | None => None
  end.

(** The rotation slot is inside the rotation (or the rotation is empty
    and the slot is 0). *)
Definition slotOk (c : Character) : Prop :=
  (nextAbilityIndex c < length (rotation c))%nat
  \/ (rotation c = [] /\ nextAbilityIndex c = 0%nat).

(** [calm s s']: the log has only grown, the draw counter has not gone
    back, rounds and winner are the same. *)
Definition calm (s s' : BattleState) : Prop :=
  log s `prefix_of` log s' /\
  rounds s' = rounds s /\
  winner s' = winner s /\
  (draws s <= draws s')%nat.

(** The reasons for which processAttack cannot use the ability of the
    current rotation slot. *)
Definition slotUnusable (abilities : list Ability) (c : Character) (time : Q) : Prop :=
  rotation c !! nextAbilityIndex c = None \/
  exists i,
    rotation c !! nextAbilityIndex c = Some i /\
    (inheritedMember (cooldowns c) i = true \/
     time < orElse (cooldowns c !! i) 0 \/
     getAbility abilities i = None \/
     exists ab, getAbility abilities i = Some ab /\ hasEnoughMana c ab = false).

(** The messages with which determineWinner announces the outcome. *)
Definition isOutcome (m : Message) : Prop :=
  match m with
  | MsgWins _ | MsgTimeLimitWins _ | MsgTimeLimitDraw => True
  | _ => False
  end.

Definition isFinalStateOf (name : string) (m : Message) : Prop :=
  match m with
  | MsgFinalState n _ _ _ => n = name
  | _ => False
  end.

(** One pass of the second loop of processCharacterEffects over a list of
    buffs: a buff with endTime <= time is dropped, the others stay as
    they are and where they are. *)
Definition keepBuffs (time : Q) (l : list Buff) : list Buff :=
  List.filter (fun b => ltq time (buff_endTime b)) l.

(** The draws are those of [Math.random]: numbers in [0, 1). *)
Definition unitDraws (random : nat -> Q) : Prop :=
  forall n, 0 <= random n /\ random n < 1.

(** The level multiplier of calculateBattleExperience. *)
Definition levelMultiplier (characterLevel : Q) : Q :=
  1 + (characterLevel - 1) * (1 # 10).

(** A periodic effect that has the field that its tick reads, with a
    value that is not negative. *)
Definition okEffect (e : PeriodicEffect) : Prop :=
  (readsDamage (pe_type e) = true -> exists d, pe_damage e = Some d /\ 0 <= d) /\
  (readsAmount (pe_type e) = true -> exists x, pe_amount e = Some x /\ 0 <= x).

(** A number that is not NaN and lies between [lo] and [hi]. *)
Definition within (lo hi : Q) (x : Num) : Prop :=
  match x with
  | Finite v => lo <= v <= hi
  | NaN => False
  end.

(** A number that is not NaN and is at most [hi]. *)
Definition atMost (hi : Q) (x : Num) : Prop :=
  match x with
  | Finite v => v <= hi
  | NaN => False
  end.

(** Health at most the maximum, mana between 0 and the maximum, neither
    of them NaN. *)
Record bounded (c : Character) : Prop := mkBounded {
  bnd_health : atMost (health (stats c)) (currentHealth c);
  bnd_mana : within 0 (mana (stats c)) (currentMana c);
  bnd_magic : 0 <= minMagicDamage (stats c) + maxMagicDamage (stats c);
  bnd_effects : Forall okEffect (periodicEffects c)
}.

Definition Bnd (s : BattleState) : Prop := forall sd, bounded (getC s sd).

(** An ability without negative mana cost, periodic amount, damage over
    time or burning percentage, whose periodic effect is not of a type
    that ticks with the [damage] field and whose damage over time is not
    of a type that ticks with the [amount] field (processPeriodicAbility
    builds the effect without [damage], processDotAbility without
    [amount]). *)
Definition saneAbility (ab : Ability) : Prop :=
  0 <= orElse (ab_manaCost ab) 0 /\
  (forall ps, ab_periodicEffect ab = Some ps ->
     0 <= ps_amount ps /\ readsDamage (ps_type ps) = false) /\
  (forall de, ab_dotEffect ab = Some de ->
     0 <= de_damage de /\ readsAmount (de_type de) = false) /\
  (forall ce, ab_criticalEffect ab = Some ce -> 0 <= ce_damagePercent ce).

(** Statistics with a non-negative mana pool and magic damage range. *)
Definition saneStats (st : Stats) : Prop :=
  0 <= mana st /\ 0 <= minMagicDamage st + maxMagicDamage st.

(** What one attack changes: the defender loses the damage that the
    attack reports, which is at least 1; nothing else of the health and
    mana of either side changes. *)
Definition hitBy (a : Side) (d : Q) (s s' : BattleState) : Prop :=
  1 <= d /\
  currentHealth (getC s' (other a)) = nsub (currentHealth (getC s (other a))) d /\
  currentHealth (getC s' a) = currentHealth (getC s a) /\
  forall sd, currentMana (getC s' sd) = currentMana (getC s sd).


(** ** models/character-model.js: statistics, levels and experience *)

From Stdlib Require Import Qpower.

Record Attributes := mkAttributes {
  strength : Q;
  agility : Q;
  stamina : Q;
  intellect : Q;
  wisdom : Q
}.

Definition calculateStats (attributes : Attributes) : Stats :=
  let baseAttackTime := 10 in
  let minAttackTime := 2 in
  let attackSpeed :=
    Math_max minAttackTime (baseAttackTime - agility attributes * (5 # 10)) in
  mkStats
    (strength attributes * 2)
    (strength attributes * 3 + agility attributes * 1)
    (agility attributes * 2)
    attackSpeed
    (intellect attributes * 2)
    (intellect attributes * 2 + wisdom attributes * (15 # 10))
    (intellect attributes * 2)
    (100 + stamina attributes * 10)
    (50 + wisdom attributes * 10)
    (strength attributes * (5 # 10) + stamina attributes * 1)
    (stamina attributes * (5 # 10) + wisdom attributes * 1).

(** [Object.values(attributes).reduce((sum, val) => sum + val, 0)]. *)
Definition attributeTotal (attributes : Attributes) : Q :=
  0 + strength attributes + agility attributes + stamina attributes
  + intellect attributes + wisdom attributes.

Definition calculateLevel (attributes : Attributes) : Q :=
  1 + Math_floor ((attributeTotal attributes - 15) / 5).

(** The five required attributes exist by typing; what is left to check
    is that each is at least 1 and that they add up to [totalPoints]. *)
Definition validateAttributes (attributes : Attributes) (totalPoints : Q) : bool :=
  geq (strength attributes) 1 && geq (agility attributes) 1
  && geq (stamina attributes) 1 && geq (intellect attributes) 1
  && geq (wisdom attributes) 1
  && Qeq_bool (attributeTotal attributes) totalPoints.

(** The fields of a persisted character that levelling reads and writes.
    Levels are whole numbers; a field that the record lacks is [None]. *)
Record StoredCharacter := mkStored {
  sc_id : string;
  sc_level : option Z;
  sc_experience : option Q;
  sc_availableAttributePoints : option Q
}.

(** The power is taken exactly.  The double that [Math.pow] returns
    rounds to the same whole number up to level 140, has lost its low
    digits from level 141 on, and is Infinity from level 3869 on. *)
Definition calculateExpForNextLevel (level : Z) : Q :=
  let baseExp := 100 in
  let growthFactor := 12 # 10 in
  Math_round (baseExp * growthFactor ^ (level - 1)).

(** A comparison with a missing level or a missing experience is false. *)
Definition canLevelUp (character : StoredCharacter) : bool :=
  match sc_level character, sc_experience character with
  | Some level, Some experience => geq experience (calculateExpForNextLevel level)
  | _, _ => false
  end.

Definition levelUpCharacter (character : StoredCharacter) : StoredCharacter :=
  if negb (canLevelUp character) then character
  else
    match sc_level character, sc_experience character with
    | Some level, Some experience =>
        let expRequired := calculateExpForNextLevel level in
        mkStored (sc_id character) (Some (level + 1)%Z) (Some (experience - expRequired))
          (Some (orElse (sc_availableAttributePoints character) 0 + 2))
    | _, _ => character
    end.

(** [while (canLevelUp(c)) c = levelUpCharacter(c)], [None] when [fuel]
    iterations do not reach the end. *)
Fixpoint applyPendingLevelUps (fuel : nat) (character : StoredCharacter)
    : option StoredCharacter :=
  if canLevelUp character then
    match fuel with
    | O => None
    | S fuel' => applyPendingLevelUps fuel' (levelUpCharacter character)
    end
  else Some character.

(** *** Vocabulary for levelling *)

(** The experience that [k] successive level-ups from [level] consume. *)
Fixpoint expSpent (level : Z) (k : nat) : Q :=
  match k with
  | O => 0
  | S k' => calculateExpForNextLevel level + expSpent (level + 1) k'
  end.

(** [character.availableAttributePoints || 0]. *)
Definition pointsOf (character : StoredCharacter) : Q :=
  orElse (sc_availableAttributePoints character) 0.

Definition veteran : StoredCharacter := mkStored "c1" (Some 1%Z) (Some 250) None.

Definition startingAttributes : Attributes := mkAttributes 3 3 3 3 3.


(** ** services/matchmaking.js: awardExperience *)

(** [character.level || 1]. *)
Definition orLevel (o : option Z) : Z :=
  match o with
  | Some l => if (l =? 0)%Z then 1%Z else l
  | None => 1%Z
  end.

(** [char.experience = char.experience || 0; char.level = char.level || 1]
    on the object itself. *)
Definition initProgress (c : StoredCharacter) : StoredCharacter :=
  mkStored (sc_id c) (Some (orLevel (sc_level c))) (Some (orElse (sc_experience c) 0))
    (sc_availableAttributePoints c).

(** [char.experience += experienceGained], after the initialisation. *)
Definition addExperience (gained : Q) (c : StoredCharacter) : StoredCharacter :=
  mkStored (sc_id c) (sc_level c)
    (match sc_experience c with Some e => Some (e + gained) | None => None end)
    (sc_availableAttributePoints c).

(** awardExperience on the contents of characters.json; the result is
    what it writes back ([characters] itself when it returns early without
    writing).  [char1] and [char2] are the objects in the array, so that
    when both indices are the same each assignment acts on the one object.
    [None]: the level-up loops do not end within [fuel] iterations. *)
Definition awardExperience (fuel : nat) (character1Id character2Id : string)
    (gained1 gained2 : Q) (characters : list StoredCharacter)
    : option (list StoredCharacter) :=
  match list_find (fun c => sc_id c = character1Id) characters,
        list_find (fun c => sc_id c = character2Id) characters with
  | Some (char1Index, _), Some (char2Index, _) =>
      let characters := alter initProgress char1Index characters in
      let characters := alter initProgress char2Index characters in
      let characters := alter (addExperience gained1) char1Index characters in
      let characters := alter (addExperience gained2) char2Index characters in
      match characters !! char1Index, characters !! char2Index with
      | Some char1, Some char2 =>
          match applyPendingLevelUps fuel char1, applyPendingLevelUps fuel char2 with
          | Some levelled1, Some levelled2 =>
              Some (<[char2Index := levelled2]> (<[char1Index := levelled1]> characters))
          | _, _ => None
          end
      | _, _ => Some characters
      end
  | _, _ => Some characters
  end.

(** [c'] is [c] after an award of [gained] experience and the level-ups
    that it pays for: k levels above [level || 1], 2 k more attribute
    points, no further level-up possible, and the experience left plus the
    cost of the k levels is [experience || 0] plus the award. *)
Definition awarded (gained : Q) (c c' : StoredCharacter) : Prop :=
  exists (k : nat) (e' : Q),
    canLevelUp c' = false /\
    sc_id c' = sc_id c /\
    sc_level c' = Some (orLevel (sc_level c) + Z.of_nat k)%Z /\
    sc_experience c' = Some e' /\
    e' + expSpent (orLevel (sc_level c)) k == orElse (sc_experience c) 0 + gained /\
    pointsOf c' == pointsOf c + 2 * inject_Z (Z.of_nat k).

Definition roster : list StoredCharacter :=
  [mkStored "c1" (Some 1%Z) (Some 90) None; mkStored "c2" None None None;
   mkStored "c3" (Some 4%Z) (Some 7) (Some 2)].

(** ** services/matchmaking.js: sequences of requests *)

Module MatchmakingRuns.
Import Matchmaking.

(** The calls that the queue routes make on the service. *)
Inductive Request :=
  | Enqueue (cid pid now : string)
  | Leave (cid : string)
  | Poll (cid pid : string).

Section Runs.

Variable startBattle : nat -> string -> string -> string.

Definition handle (st : State) (r : Request) : State :=
  match r with
  | Enqueue cid pid now => snd (addToQueue startBattle cid pid now st)
  | Leave cid => snd (removeFromQueue cid st)
  | Poll cid pid => snd (checkQueueStatus startBattle cid pid st)
  end.

Definition run (rs : list Request) (st : State) : State := fold_left handle rs st.

End Runs.

(** All entries of a queue belong to one player. *)
Definition sameOwner (q : list QueueEntry) : Prop :=
  forall e1 e2, e1 ∈ q -> e2 ∈ q -> playerId e1 = playerId e2.

(** No character waits twice, no waiting character has an undelivered
    match, and all waiting characters belong to one player. *)
Record queueInv (st : State) : Prop := mkQueueInv {
  inv_nodup : NoDup (characterId <$> matchmakingQueue st);
  inv_unnotified :
    forall e, e ∈ matchmakingQueue st -> pendingMatchNotifications st !! characterId e = None;
  inv_owner : sameOwner (matchmakingQueue st)
}.

(** The state in which checking or enqueueing has delivered the
    notification of [cid]. *)
Definition delivered (cid : string) (st : State) : State :=
  mkState (matchmakingQueue st) (delete cid (pendingMatchNotifications st))
    (battlesStarted st).

End MatchmakingRuns.

(** ** services/ability-service.js: the ability catalogue and its cache *)

Module AbilityService.

(** abilities.json (unreadable or absent: [None]) and the module-level
    [abilityCache] ([null]: [None]).  The array that loadAbilities returns
    is the cached one, so that what a caller pushes to it or stores in it
    is a change of the cache. *)
Record Store := mkStore {
  file : option (list Ability);
  abilityCache : option (list Ability)
}.

Inductive ServiceError :=
  | MissingFields
  | AlreadyExists (abilityId : string)
  | NotFound (abilityId : string)
  | SaveFailed.

Inductive Outcome (A : Type) :=
  | Returned (a : A)
  | Thrown (e : ServiceError).

Arguments Returned {A} a.
Arguments Thrown {A} e.

(** [readDataFile('abilities.json')]: the empty array when reading fails. *)
Definition readDataFile (st : Store) : list Ability :=
  match file st with
  | Some data => data
  | None => []
  end.

(** [writeDataFile('abilities.json', data)], [ok] telling whether the
    file system accepts the write. *)
Definition writeDataFile (ok : bool) (data : list Ability) (st : Store) : bool * Store :=
  if ok then (true, mkStore (Some data) (abilityCache st)) else (false, st).

Definition loadAbilities (st : Store) : list Ability * Store :=
  match abilityCache st with
  | Some cached => (cached, st)
  | None =>
      let data := readDataFile st in
      (data, mkStore (file st) (Some data))
  end.

Definition getAbility (abilityId : string) (st : Store) : option Ability * Store :=
  let '(abilities, st) := loadAbilities st in
  (List.find (fun ability => String.eqb (ab_id ability) abilityId) abilities, st).

Definition getAbilityByName (name : string) (st : Store) : option Ability * Store :=
  let '(abilities, st) := loadAbilities st in
  (List.find (fun ability => String.eqb (ab_name ability) name) abilities, st).

Definition clearAbilityCache (st : Store) : Store := mkStore (file st) None.

(** [!s] for a string. *)
Definition blank (s : string) : bool := String.eqb s "".

Definition createAbility (abilityData : Ability) (ok : bool) (st : Store)
    : Outcome Ability * Store :=
  if blank (ab_id abilityData) || blank (ab_name abilityData) || blank (ab_type abilityData)
  then (Thrown MissingFields, st)
  else
    let '(abilities, st) := loadAbilities st in
    if existsb (fun a => String.eqb (ab_id a) (ab_id abilityData)) abilities
    then (Thrown (AlreadyExists (ab_id abilityData)), st)
    else
      let abilities := abilities ++ [abilityData] in
      let st := mkStore (file st) (Some abilities) in
      match writeDataFile ok abilities st with
      | (true, st) => (Returned abilityData, clearAbilityCache st)
      | (false, st) => (Thrown SaveFailed, st)
      end.

(** [{ ...abilityData, id: abilityId }]. *)
Definition withId (abilityData : Ability) (abilityId : string) : Ability :=
  mkAbility abilityId (ab_name abilityData) (ab_type abilityData)
    (ab_cooldown abilityData) (ab_manaCost abilityData) (ab_damage abilityData)
    (ab_damageMultiplier abilityData) (ab_buffEffect abilityData)
    (ab_healEffect abilityData) (ab_dotEffect abilityData)
    (ab_periodicEffect abilityData) (ab_guaranteedCrit abilityData)
    (ab_multiAttack abilityData) (ab_selfDamagePercent abilityData)
    (ab_criticalEffect abilityData) (ab_baseCritBonus abilityData).

Definition updateAbility (abilityId : string) (abilityData : Ability) (ok : bool)
    (st : Store) : Outcome Ability * Store :=
  let '(abilities, st) := loadAbilities st in
  match list_find (fun a => ab_id a = abilityId) abilities with
  | None => (Thrown (NotFound abilityId), st)
  | Some (index, _) =>
      let updatedAbility := withId abilityData abilityId in
      let abilities := <[index := updatedAbility]> abilities in
      let st := mkStore (file st) (Some abilities) in
      match writeDataFile ok abilities st with
      | (true, st) => (Returned updatedAbility, clearAbilityCache st)
      | (false, st) => (Thrown SaveFailed, st)
      end
  end.

Definition deleteAbility (abilityId : string) (ok : bool) (st : Store)
    : Outcome bool * Store :=
  let '(abilities, st) := loadAbilities st in
  let newAbilities :=
    List.filter (fun a => negb (String.eqb (ab_id a) abilityId)) abilities in
  if (length newAbilities =? length abilities)%nat
  then (Thrown (NotFound abilityId), st)
  else
    match writeDataFile ok newAbilities st with
    | (true, st) => (Returned true, clearAbilityCache st)
    | (false, st) => (Thrown SaveFailed, st)
    end.

(** The calls of the ability routes on the service. *)
Inductive Command :=
  | Create (abilityData : Ability) (ok : bool)
  | Update (abilityId : string) (abilityData : Ability) (ok : bool)
  | Delete (abilityId : string) (ok : bool)
  | Get (abilityId : string)
  | GetByName (name : string)
  | Clear.

Definition exec (st : Store) (c : Command) : Store :=
  match c with
  | Create abilityData ok => snd (createAbility abilityData ok st)
  | Update abilityId abilityData ok => snd (updateAbility abilityId abilityData ok st)
  | Delete abilityId ok => snd (deleteAbility abilityId ok st)
  | Get abilityId => snd (getAbility abilityId st)
  | GetByName name => snd (getAbilityByName name st)
  | Clear => clearAbilityCache st
  end.

Definition execAll (cs : list Command) (st : Store) : Store := fold_left exec cs st.

(** The ids of the stored abilities are pairwise different, and so are
    those of the cached ones. *)
Definition uniqueIds (st : Store) : Prop :=
  NoDup (ab_id <$> readDataFile st) /\
  forall cached, abilityCache st = Some cached -> NoDup (ab_id <$> cached).

(** The cache, when filled, holds what the file holds. *)
Definition coherent (st : Store) : Prop :=
  forall cached, abilityCache st = Some cached -> cached = readDataFile st.

(** A command whose save, if it makes one that can leave the cache
    changed, succeeds. *)
Definition saves (c : Command) : bool :=
  match c with
  | Create _ ok | Update _ _ ok => ok
  | _ => true
  end.

End AbilityService.

Definition stocked : AbilityService.Store := AbilityService.mkStore (Some [nuke]) None.

Definition spark : Ability :=
  mkAbility "spark" "Spark" "magic" 2 (Some 5) (Some "magic"%string) None
    None None None None false None None None None.

(** ** What happens between two uses of an ability *)

Section SinceUse.

Variable random : nat -> Q.
Variable abilities : list Ability.

(** [sinceUse a i s s']: [s'] is reached from [s] by effect processing,
    round counting, turns of the opponent of [a] and turns of [a] that do
    not use the ability with id [i]. *)
Inductive sinceUse (a : Side) (i : string) : BattleState -> BattleState -> Prop :=
  | su_here s : sinceUse a i s s
  | su_effects s s' t : sinceUse a i s s' -> sinceUse a i s (processEffects s' t)
  | su_rounds s s' : sinceUse a i s s' -> sinceUse a i s (incr_rounds s')
  | su_opponent s s' t :
      sinceUse a i s s' -> sinceUse a i s (processAttack random abilities s' (other a) t)
  | su_own s s' t :
      sinceUse a i s s' ->
      (forall ab, usableAbility abilities (getC s' a) t = Some ab -> ab_id ab <> i) ->
      sinceUse a i s (processAttack random abilities s' a t).

End SinceUse.

Definition sparky := fighter "sparky" 5 5 30 ["spark"%string] "magic".

(** * Verification *)

(** ** Comparisons and rounding *)

Lemma leq_iff (x y : Q) : leq x y = true <-> x <= y.
Proof. apply Qle_bool_iff. Qed.

Lemma geq_iff (x y : Q) : geq x y = true <-> y <= x.
Proof. apply Qle_bool_iff. Qed.

Lemma gtq_iff (x y : Q) : gtq x y = true <-> y < x.
Proof.
  unfold gtq. rewrite negb_true_iff, <- not_true_iff_false, Qle_bool_iff.
  split; [apply Qnot_le_lt | apply Qlt_not_le].
Qed.

Lemma ltq_iff (x y : Q) : ltq x y = true <-> x < y.
Proof. apply (gtq_iff y x). Qed.

Lemma leq_false_iff (x y : Q) : leq x y = false <-> y < x.
Proof.
  rewrite <- gtq_iff. unfold gtq, leq. destruct (Qle_bool x y); simpl; intuition congruence.
Qed.

Lemma gtq_false_iff (x y : Q) : gtq x y = false <-> x <= y.
Proof.
  rewrite <- leq_iff. unfold gtq, leq. destruct (Qle_bool x y); simpl; intuition congruence.
Qed.

Lemma ltq_false_iff (x y : Q) : ltq x y = false <-> y <= x.
Proof. apply (gtq_false_iff y x). Qed.

Lemma nleq_iff (x y : Num) : nleq x y = true <-> Nle x y.
Proof.
  destruct x, y; cbn; try (split; [discriminate | contradiction]). apply leq_iff.
Qed.

Lemma ngtq_iff (x y : Num) : ngtq x y = true <-> Nlt y x.
Proof.
  destruct x, y; cbn; try (split; [discriminate | contradiction]). apply gtq_iff.
Qed.

Lemma ngeq_iff (x y : Num) : ngeq x y = true <-> Nle y x.
Proof.
  destruct x, y; cbn; try (split; [discriminate | contradiction]). apply geq_iff.
Qed.

Lemma nleq_false_iff (x y : Num) : nleq x y = false <-> ~ Nle x y.
Proof. rewrite <- nleq_iff. destruct (nleq x y); intuition congruence. Qed.

Lemma ngtq_false_iff (x y : Num) : ngtq x y = false <-> ~ Nlt y x.
Proof. rewrite <- ngtq_iff. destruct (ngtq x y); intuition congruence. Qed.

Lemma Math_round_lower (x : Q) : x - (1 # 2) < Math_round x.
Proof.
  unfold Math_round.
  pose proof (Qlt_floor (x + (1 # 2))) as H.
  rewrite inject_Z_plus in H. change (inject_Z 1) with 1 in H. lra.
Qed.

Lemma Math_round_upper (x : Q) : Math_round x <= x + (1 # 2).
Proof. unfold Math_round. apply Qfloor_le. Qed.

Lemma Math_max_ge_l (x y : Q) : x <= Math_max x y.
Proof. apply Q.le_max_l. Qed.

Lemma Math_min_le_l (x y : Q) : Math_min x y <= x.
Proof. apply Q.le_min_l. Qed.

Lemma Math_min_le_r (x y : Q) : Math_min x y <= y.
Proof. apply Q.le_min_r. Qed.

(** ** Static fields, buffs and effects under the operations *)

Lemma frame_refl s : frame s s.
Proof. intros sd. reflexivity. Qed.

Lemma frame_trans s1 s2 s3 : frame s1 s2 -> frame s2 s3 -> frame s1 s3.
Proof. intros H1 H2 sd. rewrite H2. apply H1. Qed.

Lemma frame_pushLog t m s : frame s (pushLog t m s).
Proof. intros [|]; reflexivity. Qed.

Lemma frame_updC x f s :
  (forall c, shape (f c) = shape c) -> frame s (updC x f s).
Proof. intros Hf [|]; destruct x; cbn; auto. Qed.

Lemma frame_if (b : bool) s s1 s2 :
  frame s s1 -> frame s s2 -> frame s (if b then s1 else s2).
Proof. destruct b; auto. Qed.

Ltac frame_step :=
  lazymatch goal with
  | |- frame ?s ?s => apply frame_refl
  | |- frame _ (pushLog _ _ _) => eapply frame_trans; [| apply frame_pushLog]
  | |- frame _ (updC _ _ _) =>
      eapply frame_trans; [| apply frame_updC; intros ?; reflexivity]
  | |- frame _ (if _ then _ else _) => apply frame_if
  end.

Lemma getC_updC_same x f s : getC (updC x f s) x = f (getC s x).
Proof. destruct x; reflexivity. Qed.

Lemma getC_updC_other x f s : getC (updC x f s) (other x) = getC s (other x).
Proof. destruct x; reflexivity. Qed.

Section Frames.

Variable random : nat -> Q.
Variable abilities : list Ability.

Lemma frame_performPhysicalAttack s a t n m g :
  frame s (snd (performPhysicalAttack random s a t n m g)).
Proof.
  unfold performPhysicalAttack, randomInt, calculateCritical, Math_random.
  destruct g; cbv zeta; cbn [snd]; repeat frame_step; intros [|]; reflexivity.
Qed.

Lemma frame_performMagicAttack s a t n m :
  frame s (snd (performMagicAttack random abilities s a t n m)).
Proof.
  unfold performMagicAttack, randomInt, calculateCritical, Math_random.
  cbv zeta; cbn [snd]; repeat frame_step; intros [|]; reflexivity.
Qed.

Lemma frame_performBasicAttack s a t :
  frame s (performBasicAttack random abilities s a t).
Proof.
  unfold performBasicAttack. apply frame_if.
  - apply frame_performMagicAttack.
  - apply frame_performPhysicalAttack.
Qed.

Lemma frame_applyHeal s a t he : frame s (snd (applyHeal s a t he)).
Proof. unfold applyHeal. cbv zeta. cbn [snd]. repeat frame_step. Qed.

Lemma frame_multiAttackHit s a t ab k :
  frame s (multiAttackHit random abilities s a t ab k).
Proof.
  unfold multiAttackHit.
  apply frame_if; [apply frame_performPhysicalAttack |].
  apply frame_if; [apply frame_performMagicAttack | apply frame_performPhysicalAttack].
Qed.

Lemma frame_multiAttackLoop n : forall i s a t ab d,
  frame s (multiAttackLoop random abilities n i s a t ab d).
Proof.
  induction n as [|n IH]; intros i s a t ab d; cbn [multiAttackLoop].
  - apply frame_refl.
  - apply frame_if; [apply frame_refl|].
    eapply frame_trans; [apply frame_multiAttackHit | apply IH].
Qed.

Lemma frame_processMultiAttackAbility s a t ab ma :
  frame s (processMultiAttackAbility random abilities s a t ab ma).
Proof.
  unfold processMultiAttackAbility.
  eapply frame_trans; [| apply frame_multiAttackLoop].
  eapply frame_trans; [| apply frame_multiAttackHit].
  apply frame_pushLog.
Qed.

Lemma frame_processHealAbility s a t ab he :
  frame s (processHealAbility s a t ab he).
Proof.
  unfold processHealAbility.
  eapply frame_trans; [apply frame_pushLog | apply frame_applyHeal].
Qed.

Lemma frame_tickEffect s c t e : frame s (tickEffect s c t e).
Proof. unfold tickEffect. cbv zeta. repeat frame_step. Qed.

End Frames.

(** ** The battle invariant *)

Lemma fmap_insert_same {A B} (f : A -> B) (l : list A) i x x' :
  l !! i = Some x -> f x' = f x -> f <$> <[i:=x']> l = f <$> l.
Proof.
  intros Hl Hf. rewrite list_fmap_insert, Hf.
  apply list_insert_id. rewrite list_lookup_fmap, Hl. reflexivity.
Qed.

Lemma NoDup_fmap_delete {A B} (f : A -> B) (l : list A) i :
  NoDup (f <$> l) -> NoDup (f <$> delete i l).
Proof.
  intros H. rewrite list_fmap_delete.
  eapply sublist_NoDup; [exact H | apply sublist_delete].
Qed.

Lemma NoDup_fmap_snoc {A B} (f : A -> B) (l : list A) x :
  NoDup (f <$> l) -> Forall (fun y => f y <> f x) l -> NoDup (f <$> (l ++ [x])).
Proof.
  intros Hn Hall. rewrite fmap_app. apply NoDup_app. split; [exact Hn|]. split.
  - intros y Hy Hin. cbn in Hin. apply list_elem_of_singleton in Hin. subst y.
    apply list_elem_of_fmap in Hy as (z & Hz & Hzl).
    rewrite Forall_forall in Hall. apply (Hall z Hzl). symmetry. exact Hz.
  - cbn. apply NoDup_singleton.
Qed.

Section Invariant.

Variable random : nat -> Q.
Variable abilities : list Ability.
Variable lo : Q.
Variables d1 d2 : CharacterData.

#[local] Abbreviation Inv' := (Inv lo d1 d2).

Lemma charInv_shape d c c' : shape c' = shape c -> charInv lo d c -> charInv lo d c'.
Proof.
  unfold shape. intros Hs [H1 H2 H3 H4 H5 H6].
  injection Hs as E1 E2 E3 E4 E5 E6 E7 E8 E9.
  constructor; congruence.
Qed.

Lemma Inv_frame s s' : frame s s' -> Inv' s -> Inv' s'.
Proof. intros Hf Hi sd. eapply charInv_shape; [apply Hf | apply Hi]. Qed.

Lemma Inv_updC x f s :
  Inv' s ->
  (charInv lo (dataOf d1 d2 x) (getC s x) -> charInv lo (dataOf d1 d2 x) (f (getC s x))) ->
  Inv' (updC x f s).
Proof.
  intros Hi Hf sd. specialize (Hf (Hi x)).
  destruct x, sd; cbn; first [exact Hf | apply (Hi First) | apply (Hi Second)].
Qed.

Lemma Inv_applyBuff s target time buff :
  Inv' s -> okBuff lo buff -> Inv' (applyBuff s target time buff).
Proof.
  intros Hi Hok. unfold applyBuff, findBuff.
  destruct (list_find _ _) as [[i existing]|] eqn:Hfind.
  - apply list_find_Some in Hfind as (Hl & Hty & _).
    eapply Inv_frame; [apply frame_pushLog|].
    apply Inv_updC; [exact Hi|]. intros [H1 H2 H3 H4 H5 H6].
    constructor; cbn; try assumption.
    + rewrite (fmap_insert_same _ _ _ existing); [assumption | assumption | reflexivity].
    + apply Forall_insert; [assumption|].
      rewrite Forall_forall in H6. apply (H6 existing).
      eapply list_elem_of_lookup_2; eassumption.
  - apply list_find_None in Hfind.
    eapply Inv_frame; [apply frame_pushLog|].
    apply Inv_updC; [exact Hi|]. intros [H1 H2 H3 H4 H5 H6].
    constructor; cbn; try assumption.
    + apply NoDup_fmap_snoc; assumption.
    + apply Forall_app. split; [assumption|]. constructor; [assumption | constructor].
Qed.

Lemma Inv_applyPeriodicEffect s source target time effect :
  Inv' s -> Inv' (applyPeriodicEffect s source target time effect).
Proof.
  intros Hi. unfold applyPeriodicEffect, findEffect.
  destruct (list_find _ _) as [[i existing]|] eqn:Hfind.
  - apply list_find_Some in Hfind as (Hl & Hty & _).
    eapply Inv_frame; [apply frame_pushLog|].
    apply Inv_updC; [exact Hi|]. intros [H1 H2 H3 H4 H5 H6].
    constructor; cbn; try assumption.
    rewrite (fmap_insert_same _ _ _ existing); [assumption | assumption | reflexivity].
  - apply list_find_None in Hfind.
    eapply Inv_frame; [apply frame_pushLog|].
    apply Inv_updC; [exact Hi|]. intros [H1 H2 H3 H4 H5 H6].
    constructor; cbn; try assumption.
    apply NoDup_fmap_snoc; assumption.
Qed.


Hypothesis Hcat : catalogueOk abilities lo d1 d2.

Lemma Inv_processBuffAbility s a time ab be :
  Inv' s -> In ab abilities -> ab_buffEffect ab = Some be ->
  Inv' (processBuffAbility s a time ab be).
Proof.
  intros Hi Hin Hbe. unfold processBuffAbility. cbv zeta.
  assert (Hb : Inv' (applyBuff s
                 match be_targetsSelf be with Some false => other a | _ => a end
                 time
                 (mkBuff (ab_name ab) (be_type be) (buffAmountOf be (stats (getC s a)))
                    (be_duration be) (time + be_duration be)))).
  { apply Inv_applyBuff; [exact Hi|]. intros Hty. cbn in Hty |- *.
    rewrite (inv_stats _ _ _ (Hi a)). apply (Hcat ab be a Hin Hbe Hty). }
  repeat (apply (fun H1 H2 => bool_ind (fun b => Inv' (if b then _ else _)) H1 H2));
    (eapply Inv_frame; [apply frame_pushLog | exact Hb]).
Qed.

Lemma Inv_processDotAbility s a time ab de :
  Inv' s -> Inv' (processDotAbility random abilities s a time ab de).
Proof.
  intros Hi. unfold processDotAbility. cbv zeta.
  apply Inv_applyPeriodicEffect.
  destruct (damageIs ab "physical").
  - eapply Inv_frame; [apply frame_performPhysicalAttack | exact Hi].
  - destruct (damageIs ab "magic"); [|exact Hi].
    eapply Inv_frame; [apply frame_performMagicAttack | exact Hi].
Qed.

Lemma Inv_processPeriodicAbility s a time ab ps :
  Inv' s -> Inv' (processPeriodicAbility s a time ab ps).
Proof.
  intros Hi. unfold processPeriodicAbility. cbv zeta.
  pose proof (Inv_applyPeriodicEffect s a (other a) time
    (mkEffect (ab_name ab) (ps_type ps) (Some (ps_amount ps)) None (ps_duration ps)
       (ps_interval ps) time (time + ps_duration ps) "") Hi) as Hp.
  destruct (String.eqb (ps_type ps) "manaDrain").
  - eapply Inv_frame; [|exact Hp]. repeat frame_step.
  - eapply Inv_frame; [apply frame_pushLog | exact Hp].
Qed.

Lemma Inv_processDamageAbility s a time ab :
  Inv' s -> Inv' (processDamageAbility random abilities s a time ab).
Proof.
  intros Hi. unfold processDamageAbility.
  destruct (damageIs ab "physical").
  { eapply Inv_frame; [apply frame_performPhysicalAttack | exact Hi]. }
  destruct (damageIs ab "magic").
  2:{ eapply Inv_frame; [apply frame_performBasicAttack | exact Hi]. }
  pose proof (frame_performMagicAttack random abilities s a time (ab_name ab)
                (orElse (ab_damageMultiplier ab) (15 # 10))) as Hf.
  destruct (performMagicAttack _ _ _ _ _ _ _) as [res s1]. cbn [snd] in Hf.
  cbv zeta.
  match goal with
  | |- context [match ab_criticalEffect ab with Some _ => _ | None => ?S end] =>
      assert (Hs : Inv' S)
  end.
  { eapply Inv_frame; [|exact Hi]. eapply frame_trans; [exact Hf|].
    repeat frame_step. }
  destruct (ab_criticalEffect ab) as [ce|]; [|exact Hs].
  destruct (isCritical res && String.eqb (ce_type ce) "burning"); [|exact Hs].
  eapply Inv_frame; [apply frame_pushLog|].
  apply Inv_applyPeriodicEffect. exact Hs.
Qed.

Lemma Inv_processAbility s a time ab :
  Inv' s -> In ab abilities -> Inv' (processAbility random abilities s a time ab).
Proof.
  intros Hi Hin. unfold processAbility.
  destruct (ab_buffEffect ab) as [be|] eqn:Hbe.
  { apply Inv_processBuffAbility; assumption. }
  destruct (ab_healEffect ab) as [he|].
  { eapply Inv_frame; [apply frame_processHealAbility | exact Hi]. }
  destruct (ab_dotEffect ab) as [de|].
  { apply Inv_processDotAbility; assumption. }
  destruct (ab_periodicEffect ab) as [ps|].
  { apply Inv_processPeriodicAbility; assumption. }
  destruct (ab_guaranteedCrit ab).
  { eapply Inv_frame; [apply frame_performPhysicalAttack | exact Hi]. }
  destruct (ab_multiAttack ab) as [ma|].
  { eapply Inv_frame; [apply frame_processMultiAttackAbility | exact Hi]. }
  apply Inv_processDamageAbility; assumption.
Qed.

Lemma getAbility_In i ab : getAbility abilities i = Some ab -> In ab abilities.
Proof. unfold getAbility. intros H. apply find_some in H. tauto. Qed.

Lemma Inv_processAttack s a time :
  Inv' s -> Inv' (processAttack random abilities s a time).
Proof.
  intros Hi. unfold processAttack. cbv zeta.
  match goal with
  | |- context [match ?U with Some _ => _ | None => _ end] =>
      destruct U as [ab|] eqn:Hu
  end.
  2:{ eapply Inv_frame; [apply frame_performBasicAttack | exact Hi]. }
  assert (Hin : In ab abilities).
  { destruct (rotation (getC s a) !! nextAbilityIndex (getC s a)) as [i|]; [|discriminate].
    destruct (negb _ && geq _ _); [|discriminate].
    destruct (getAbility abilities i) as [ab'|] eqn:Hg; [|discriminate].
    destruct (hasEnoughMana _ _); [|discriminate].
    injection Hu as <-. eapply getAbility_In; eassumption. }
  eapply Inv_frame; [apply frame_updC; intros ?; reflexivity|].
  apply Inv_processAbility; [|exact Hin].
  eapply Inv_frame; [|exact Hi].
  eapply frame_trans; [|apply frame_updC; intros ?; reflexivity].
  apply frame_if; [apply frame_updC; intros ?; reflexivity | apply frame_refl].
Qed.


Lemma frame_effects s s' sd :
  frame s s' -> periodicEffects (getC s' sd) = periodicEffects (getC s sd).
Proof. intros H. specialize (H sd). unfold shape in H. congruence. Qed.

Lemma frame_buffs s s' sd : frame s s' -> buffs (getC s' sd) = buffs (getC s sd).
Proof. intros H. specialize (H sd). unfold shape in H. congruence. Qed.

Lemma Inv_effectStep s c time i : Inv' s -> Inv' (effectStep s c time i).
Proof.
  intros Hi. unfold effectStep.
  destruct (periodicEffects (getC s c) !! i) as [e|] eqn:Hl; [|exact Hi].
  cbv zeta.
  match goal with
  | |- context [if geq _ _ then _ else ?S] => assert (Hs : Inv' S)
  end.
  { destruct (effectDue time e); [|exact Hi].
    pose proof (frame_tickEffect s c time e) as Hf.
    apply Inv_updC; [eapply Inv_frame; eassumption|].
    intros [H1 H2 H3 H4 H5 H6]. constructor; cbn; try assumption.
    rewrite (fmap_insert_same _ _ _ e); [assumption | | reflexivity].
    rewrite (frame_effects _ _ c Hf). exact Hl. }
  destruct (geq time (pe_endTime e)); [|exact Hs].
  eapply Inv_frame; [apply frame_pushLog|].
  apply Inv_updC; [exact Hs|].
  intros [H1 H2 H3 H4 H5 H6]. constructor; cbn; try assumption.
  apply NoDup_fmap_delete. assumption.
Qed.

Lemma Inv_effectsLoop n : forall s c time, Inv' s -> Inv' (effectsLoop n s c time).
Proof.
  induction n as [|n IH]; intros s c time Hi; cbn [effectsLoop]; [exact Hi|].
  apply IH, Inv_effectStep, Hi.
Qed.

Lemma Inv_buffStep s c time i : Inv' s -> Inv' (buffStep s c time i).
Proof.
  intros Hi. unfold buffStep.
  destruct (buffs (getC s c) !! i) as [b|]; [|exact Hi].
  destruct (geq time (buff_endTime b)); [|exact Hi].
  eapply Inv_frame; [apply frame_pushLog|].
  apply Inv_updC; [exact Hi|].
  intros [H1 H2 H3 H4 H5 H6]. constructor; cbn; try assumption.
  - apply NoDup_fmap_delete. assumption.
  - apply Forall_delete. assumption.
Qed.

Lemma Inv_buffsLoop n : forall s c time, Inv' s -> Inv' (buffsLoop n s c time).
Proof.
  induction n as [|n IH]; intros s c time Hi; cbn [buffsLoop]; [exact Hi|].
  apply IH, Inv_buffStep, Hi.
Qed.

Lemma Inv_processCharacterEffects s c time :
  Inv' s -> Inv' (processCharacterEffects s c time).
Proof.
  intros Hi. unfold processCharacterEffects. apply Inv_buffsLoop, Inv_effectsLoop, Hi.
Qed.

Lemma Inv_processEffects s time : Inv' s -> Inv' (processEffects s time).
Proof.
  intros Hi. unfold processEffects.
  apply Inv_processCharacterEffects, Inv_processCharacterEffects, Hi.
Qed.

Lemma Inv_incr_rounds s : Inv' s -> Inv' (incr_rounds s).
Proof. intros Hi [|]; [apply (Hi First) | apply (Hi Second)]. Qed.

Lemma Inv_battleRound sch :
  Inv' (battleState sch) -> Inv' (battleState (battleRound random abilities sch)).
Proof.
  intros Hi. unfold battleRound.
  destruct (leq _ _); cbn [battleState];
    apply Inv_incr_rounds, Inv_processEffects, Inv_processAttack, Hi.
Qed.

Lemma Inv_iter_battleRound n sch :
  Inv' (battleState sch) ->
  Inv' (battleState (Nat.iter n (battleRound random abilities) sch)).
Proof.
  intros Hi. induction n as [|n IH]; cbn [Nat.iter]; [exact Hi|].
  apply Inv_battleRound, IH.
Qed.

End Invariant.

Lemma Inv_initial lo d1 d2 :
  Inv lo d1 d2 (battleState (initialSchedule d1 d2)).
Proof. intros [|]; constructor; cbn; auto using NoDup_nil_2. Qed.

(** ** Effective attack speed and termination of the battle loop *)

Lemma fold_Qmin_le (l : list Q) (x : Q) : In x l -> fold_right Qmin 1 l <= x.
Proof.
  induction l as [|y l IH]; intros Hin; [destruct Hin|].
  cbn [fold_right]. destruct Hin as [->|Hin].
  - apply Q.le_min_l.
  - eapply Qle_trans; [apply Q.le_min_r | apply IH, Hin].
Qed.


Lemma catalogueOk_lowerFactor abilities d1 d2 :
  catalogueOk abilities (lowerFactor abilities d1 d2) d1 d2.
Proof.
  intros ab be sd Hin Hbe Hty. apply fold_Qmin_le.
  unfold slowFactors. apply in_flat_map. exists ab. split; [exact Hin|].
  rewrite Hbe, Hty. rewrite String.eqb_refl.
  destruct sd; cbn [dataOf]; [left | right; left]; reflexivity.
Qed.





Section Termination.

Variable random : nat -> Q.
Variable abilities : list Ability.
Variable lo : Q.
Variables d1 d2 : CharacterData.
Variable delta : Q.

Hypothesis Hcat : catalogueOk abilities lo d1 d2.
Hypothesis Hlo : lo <= 1.
Hypothesis Hdelta : 0 < delta.
Hypothesis Hspeed1 : 0 <= attackSpeed (cd_stats d1).
Hypothesis Hspeed2 : 0 <= attackSpeed (cd_stats d2).
Hypothesis Hd1 : delta <= attackSpeed (cd_stats d1) * lo.
Hypothesis Hd2 : delta <= attackSpeed (cd_stats d2) * lo.





End Termination.


Lemma battleLoop_exit random abilities fuel : forall sch r,
  battleLoop random abilities fuel sch = Some r -> battleContinues r = false.
Proof.
  induction fuel as [|fuel IH]; intros sch r H; cbn [battleLoop] in H;
    destruct (battleContinues sch) eqn:Hc; try discriminate; try congruence.
  eapply IH; eassumption.
Qed.

(** The state in which the loop stops is reached by iterating the loop
    body on the initial schedule, the loop condition holding before each
    of these rounds. *)
Lemma battleLoop_iter random abilities fuel : forall sch r,
  battleLoop random abilities fuel sch = Some r ->
  exists n : nat,
    r = Nat.iter n (battleRound random abilities) sch /\
    (forall k : nat, (k < n)%nat ->
       battleContinues (Nat.iter k (battleRound random abilities) sch) = true).
Proof.
  induction fuel as [|fuel IH]; intros sch r H; cbn [battleLoop] in H;
    destruct (battleContinues sch) eqn:Hc; try discriminate.
  - exists 0%nat. split; [cbn; congruence | intros k Hk; lia].
  - destruct (IH _ _ H) as (n & Hn & Hk). exists (S n). split.
    + rewrite Hn. symmetry. apply Nat.iter_succ_r.
    + intros [|k] Hlt; [exact Hc|].
      rewrite Nat.iter_succ_r. apply Hk. lia.
  - exists 0%nat. split; [cbn; congruence | intros k Hk; lia].
Qed.
(** ** Health and mana stay numbers when every effect carries the field its tick reads *)













Section NumericInvariant.

Variable random : nat -> Q.
Variable abilities : list Ability.


























End NumericInvariant.


(** ** The winner rule *)

Lemma winner_pushLog t m s : winner (pushLog t m s) = winner s.
Proof. reflexivity. Qed.

Lemma winner_logFinalState s t : winner (logFinalState s t) = winner s.
Proof. reflexivity. Qed.

Lemma res_winner_format random s m :
  res_winner (formatBattleResult random s m) = winner s.
Proof.
  unfold formatBattleResult.
  destruct m; cbv zeta;
    repeat match goal with
           | |- context [let '(_, _) := ?X in _] => destruct X
           end; reflexivity.
Qed.

(** The outcomes of determineWinner, by the healths it is given. *)
Lemma determineWinner_cases (s : BattleState) (t : Q) :
  let c1 := character1 s in
  let c2 := character2 s in
  let w := winner (determineWinner s t) in
  (Nle (currentHealth c1) 0 -> w = Some (char_id c2)) /\
  (~ Nle (currentHealth c1) 0 -> Nle (currentHealth c2) 0 -> w = Some (char_id c1)) /\
  (~ Nle (currentHealth c1) 0 -> ~ Nle (currentHealth c2) 0 ->
     (Nlt (healthPercent c2) (healthPercent c1) -> w = Some (char_id c1)) /\
     (~ Nlt (healthPercent c2) (healthPercent c1) ->
      Nlt (healthPercent c1) (healthPercent c2) -> w = Some (char_id c2)) /\
     (~ Nlt (healthPercent c2) (healthPercent c1) ->
      ~ Nlt (healthPercent c1) (healthPercent c2) -> w = None)).
Proof.
  cbv zeta. unfold determineWinner.
  destruct (nleq (currentHealth (character1 s)) 0) eqn:E1.
  { apply nleq_iff in E1. repeat split; intros; first [contradiction | reflexivity]. }
  apply nleq_false_iff in E1.
  destruct (nleq (currentHealth (character2 s)) 0) eqn:E2.
  { apply nleq_iff in E2. repeat split; intros; first [contradiction | reflexivity]. }
  apply nleq_false_iff in E2.
  cbv zeta. rewrite winner_logFinalState.
  destruct (ngtq (healthPercent (character1 s)) (healthPercent (character2 s))) eqn:G1.
  { apply ngtq_iff in G1. repeat split; intros; first [contradiction | reflexivity]. }
  apply ngtq_false_iff in G1.
  destruct (ngtq (healthPercent (character2 s)) (healthPercent (character1 s))) eqn:G2.
  { apply ngtq_iff in G2. repeat split; intros; first [contradiction | reflexivity]. }
  apply ngtq_false_iff in G2.
  repeat split; intros; first [contradiction | reflexivity].
Qed.

Lemma Nle_not_Nlt (x y : Num) : Nle x y -> ~ Nlt y x.
Proof. destruct x, y; cbn; try contradiction. intros; lra. Qed.

Lemma Nlt_not_Nle (x y : Num) : Nlt x y -> ~ Nle y x.
Proof. destruct x, y; cbn; try contradiction. intros; lra. Qed.

Lemma Nlt_asym (x y : Num) : Nlt x y -> ~ Nlt y x.
Proof. destruct x, y; cbn; try contradiction. intros; lra. Qed.

Lemma Neq_not_Nlt (x y : Num) : Neq x y -> ~ Nlt x y /\ ~ Nlt y x.
Proof. destruct x, y; cbn; try contradiction. intros; split; lra. Qed.



(** What simulateBattle returns, in terms of the schedule in which the
    loop stops. *)
Lemma simulateBattle_inv random abilities fuel d1 d2 m r :
  simulateBattle random abilities fuel d1 d2 m = Some r ->
  exists sch,
    battleLoop random abilities fuel (initialSchedule d1 d2) = Some sch /\
    battleContinues sch = false /\
    res_winner r = winner (determineWinner (battleState sch) (battleTime sch)) /\
    char_id (character1 (battleState sch)) = cd_id d1 /\
    char_id (character2 (battleState sch)) = cd_id d2.
Proof.
  unfold simulateBattle. intros H.
  destruct (battleLoop random abilities fuel (initialSchedule d1 d2)) as [sch|] eqn:Hl;
    [|discriminate].
  injection H as <-. exists sch. split; [reflexivity|].
  split; [eapply battleLoop_exit; eassumption|].
  split; [apply res_winner_format|].
  destruct (battleLoop_iter _ _ _ _ _ Hl) as (n & -> & _).
  pose proof (Inv_iter_battleRound random abilities _ d1 d2
                (catalogueOk_lowerFactor abilities d1 d2) n _
                (Inv_initial _ d1 d2)) as Hi.
  split; [apply (inv_id _ _ _ (Hi First)) | apply (inv_id _ _ _ (Hi Second))].
Qed.

Lemma battleContinues_false sch :
  battleContinues sch = false ->
  ~ Nlt 0 (currentHealth (character1 (battleState sch))) \/
  ~ Nlt 0 (currentHealth (character2 (battleState sch))) \/
  maxBattleTime <= battleTime sch.
Proof.
  unfold battleContinues. intros H.
  apply andb_false_iff in H as [H|H]; [apply andb_false_iff in H as [H|H]|].
  - left. apply ngtq_false_iff, H.
  - right; left. apply ngtq_false_iff, H.
  - right; right. apply ltq_false_iff, H.
Qed.

(** C1: the loop of simulateBattle stops when a currentHealth is no
    longer above 0 or the time cap is reached; when it stops with a
    combatant at currentHealth <= 0, the other combatant's id is the
    winner (character1's defeat being looked at first); when it stops
    with both above 0, the time cap has been reached, the combatant with
    the strictly greater currentHealth/maxHealth percentage is the
    winner, and equal percentages give winner = null. *)
Theorem simulateBattle_winner_rule random abilities fuel d1 d2 m r :
  simulateBattle random abilities fuel d1 d2 m = Some r ->
  exists sch,
    battleLoop random abilities fuel (initialSchedule d1 d2) = Some sch /\
    let c1 := character1 (battleState sch) in
    let c2 := character2 (battleState sch) in
    (~ Nlt 0 (currentHealth c1) \/ ~ Nlt 0 (currentHealth c2) \/
     maxBattleTime <= battleTime sch) /\
    (Nle (currentHealth c1) 0 -> res_winner r = Some (cd_id d2)) /\
    (Nle (currentHealth c2) 0 -> ~ Nle (currentHealth c1) 0 ->
       res_winner r = Some (cd_id d1)) /\
    (Nlt 0 (currentHealth c1) -> Nlt 0 (currentHealth c2) ->
       maxBattleTime <= battleTime sch /\
       (Nlt (healthPercent c2) (healthPercent c1) -> res_winner r = Some (cd_id d1)) /\
       (Nlt (healthPercent c1) (healthPercent c2) -> res_winner r = Some (cd_id d2)) /\
       (Neq (healthPercent c1) (healthPercent c2) -> res_winner r = None)).
Proof.
  intros H. destruct (simulateBattle_inv _ _ _ _ _ _ _ H) as (sch & Hl & Hc & Hw & I1 & I2).
  exists sch. split; [exact Hl|]. cbv zeta.
  pose proof (determineWinner_cases (battleState sch) (battleTime sch)) as (W1 & W2 & W3).
  rewrite <- Hw, ?I1, ?I2 in *.
  pose proof (battleContinues_false sch Hc) as Hstop.
  split; [exact Hstop|]. split; [|split].
  - intros A. apply W1, A.
  - intros A B. apply W2; assumption.
  - intros A B. split.
    + destruct Hstop as [S|[S|S]]; [contradiction | contradiction | exact S].
    + destruct (W3 (Nlt_not_Nle _ _ A) (Nlt_not_Nle _ _ B)) as (P1 & P2 & P3).
      split; [exact P1|]. split.
      * intros C. apply P2; [apply Nlt_asym, C | exact C].
      * intros C. apply Neq_not_Nlt in C as [C1 C2]. apply P3; assumption.
Qed.

(** The same rule on the draw of the specification: both combatants
    stand at 40% of their health when the time cap is reached. *)
Lemma simulateBattle_winner_rule_witness :
  match simulateBattle halves [] 3 slow1 slow2 false with
  | Some r =>
      exists sch,
        battleLoop halves [] 3 (initialSchedule slow1 slow2) = Some sch /\
        let c1 := character1 (battleState sch) in
        let c2 := character2 (battleState sch) in
        (~ Nlt 0 (currentHealth c1) \/ ~ Nlt 0 (currentHealth c2) \/
         maxBattleTime <= battleTime sch) /\
        (Nle (currentHealth c1) 0 -> res_winner r = Some (cd_id slow2)) /\
        (Nle (currentHealth c2) 0 -> ~ Nle (currentHealth c1) 0 ->
           res_winner r = Some (cd_id slow1)) /\
        (Nlt 0 (currentHealth c1) -> Nlt 0 (currentHealth c2) ->
           maxBattleTime <= battleTime sch /\
           (Nlt (healthPercent c2) (healthPercent c1) -> res_winner r = Some (cd_id slow1)) /\
           (Nlt (healthPercent c1) (healthPercent c2) -> res_winner r = Some (cd_id slow2)) /\
           (Neq (healthPercent c1) (healthPercent c2) -> res_winner r = None))
  | None => False
  end.
Proof.
  destruct (simulateBattle halves [] 3 slow1 slow2 false) as [r|] eqn:E.
  - exact (simulateBattle_winner_rule halves [] 3 slow1 slow2 false r E).
  - vm_compute in E. discriminate E.
Defined.

(** When the loop stops with both combatants at currentHealth <= 0,
    character2 is the winner (character1's defeat is tested first);
    winner = null arises only when neither currentHealth is <= 0 and
    neither percentage is above the other. *)
Lemma both_defeated_outcome random abilities fuel d1 d2 m r :
  simulateBattle random abilities fuel d1 d2 m = Some r ->
  exists sch,
    battleLoop random abilities fuel (initialSchedule d1 d2) = Some sch /\
    let c1 := character1 (battleState sch) in
    let c2 := character2 (battleState sch) in
    (Nle (currentHealth c1) 0 -> Nle (currentHealth c2) 0 ->
       res_winner r = Some (cd_id d2)) /\
    (res_winner r = None ->
       ~ Nle (currentHealth c1) 0 /\ ~ Nle (currentHealth c2) 0 /\
       ~ Nlt (healthPercent c1) (healthPercent c2) /\
       ~ Nlt (healthPercent c2) (healthPercent c1)).
Proof.
  intros H. destruct (simulateBattle_inv _ _ _ _ _ _ _ H) as (sch & Hl & Hc & Hw & I1 & I2).
  exists sch. split; [exact Hl|]. cbv zeta.
  pose proof (determineWinner_cases (battleState sch) (battleTime sch)) as (W1 & W2 & W3).
  rewrite <- Hw, ?I1, ?I2 in *.
  split.
  - intros A _. apply W1, A.
  - intros Hnone.
    assert (A : ~ Nle (currentHealth (character1 (battleState sch))) 0).
    { intros A. rewrite (W1 A) in Hnone. discriminate. }
    assert (B : ~ Nle (currentHealth (character2 (battleState sch))) 0).
    { intros B. rewrite (W2 A B) in Hnone. discriminate. }
    destruct (W3 A B) as (P1 & P2 & _).
    assert (C : ~ Nlt (healthPercent (character2 (battleState sch)))
                      (healthPercent (character1 (battleState sch)))).
    { intros C. rewrite (P1 C) in Hnone. discriminate. }
    repeat split; try assumption.
    intros D. rewrite (P2 C D) in Hnone. discriminate.
Qed.

(** C10: a both-defeated ending gives the win to character2 and never
    winner = null, and such an ending is reached by a spell with
    selfDamagePercent = 100.  But winner = null also arises away from the
    time cap: Toxin is a periodic effect of type poison, which
    processPeriodicAbility stores with [amount] and whose tick subtracts
    the missing [damage]; the defender's currentHealth becomes NaN at the
    first tick, the loop stops at time 3 of 300, nobody is defeated, and
    determineWinner falls through to winner = null. *)
Theorem both_defeated_character2_wins :
  (forall random abilities fuel d1 d2 m r,
     simulateBattle random abilities fuel d1 d2 m = Some r ->
     exists sch,
       battleLoop random abilities fuel (initialSchedule d1 d2) = Some sch /\
       let c1 := character1 (battleState sch) in
       let c2 := character2 (battleState sch) in
       (Nle (currentHealth c1) 0 -> Nle (currentHealth c2) 0 ->
          res_winner r = Some (cd_id d2)) /\
       (res_winner r = None ->
          ~ Nle (currentHealth c1) 0 /\ ~ Nle (currentHealth c2) 0)) /\
  (exists r sch,
     simulateBattle halves [nuke] 1 mage dummy false = Some r /\
     battleLoop halves [nuke] 1 (initialSchedule mage dummy) = Some sch /\
     Nle (currentHealth (character1 (battleState sch))) 0 /\
     Nle (currentHealth (character2 (battleState sch))) 0 /\
     res_winner r = Some (cd_id dummy)) /\
  (exists r sch,
     simulateBattle halves [toxin] 3 poisoner quick false = Some r /\
     battleLoop halves [toxin] 3 (initialSchedule poisoner quick) = Some sch /\
     res_winner r = None /\
     battleTime sch == 3 /\
     currentHealth (character1 (battleState sch)) = Finite 98 /\
     currentHealth (character2 (battleState sch)) = NaN).
Proof.
  split; [|split].
  - intros random abilities fuel d1 d2 m r H.
    destruct (both_defeated_outcome random abilities fuel d1 d2 m r H)
      as (sch & Hl & A & B).
    exists sch. split; [exact Hl|]. cbv zeta in *. split; [exact A|].
    intros Hn. destruct (B Hn) as (B1 & B2 & _). split; assumption.
  - destruct (simulateBattle halves [nuke] 1 mage dummy false) as [r|] eqn:E;
      [|vm_compute in E; discriminate E].
    destruct (both_defeated_outcome halves [nuke] 1 mage dummy false r E)
      as (sch & Hl & Hdead & _).
    exists r, sch. split; [reflexivity|]. split; [exact Hl|].
    assert (Hh : Nle (currentHealth (character1 (battleState sch))) 0 /\
                 Nle (currentHealth (character2 (battleState sch))) 0).
    { vm_compute in Hl. injection Hl as <-.
      split; apply nleq_iff; vm_compute; reflexivity. }
    destruct Hh as [H1 H2]. split; [exact H1|]. split; [exact H2|].
    apply Hdead; assumption.
  - destruct (simulateBattle halves [toxin] 3 poisoner quick false) as [r|] eqn:E;
      [|vm_compute in E; discriminate E].
    destruct (battleLoop halves [toxin] 3 (initialSchedule poisoner quick)) as [sch|] eqn:Hl;
      [|vm_compute in Hl; discriminate Hl].
    exists r, sch. split; [reflexivity|]. split; [reflexivity|].
    vm_compute in E. injection E as <-.
    vm_compute in Hl. injection Hl as <-.
    split; [reflexivity|]. split; [apply Qeq_bool_iff; vm_compute; reflexivity|].
    split; vm_compute; reflexivity.
Qed.

(** ** Termination of simulateBattle *)









(** ** Damage buffs and the order of the buff list *)

Lemma applyDamageBuffs_filter (l : list Buff) : forall base,
  applyDamageBuffs l base = applyDamageBuffs (List.filter isDamageIncrease l) base.
Proof.
  unfold applyDamageBuffs.
  induction l as [|b l IH]; intros base; [reflexivity|].
  cbn [fold_left List.filter]. unfold isDamageIncrease at 1.
  destruct (String.eqb (buff_type b) "damageIncrease") eqn:E.
  - cbn [fold_left]. rewrite E. apply IH.
  - apply IH.
Qed.

Lemma Permutation_filter_bool {A} (f : A -> bool) (l l' : list A) :
  Permutation l l' -> Permutation (List.filter f l) (List.filter f l').
Proof.
  induction 1 as [|x l l' H IH|x y l|l l' l'' H1 IH1 H2 IH2]; cbn [List.filter].
  - constructor.
  - destruct (f x); [constructor|]; exact IH.
  - destruct (f x), (f y); try reflexivity. constructor.
  - etransitivity; eassumption.
Qed.

Lemma applyDamageBuffs_permutation (l l' : list Buff) (base : Q) :
  (length (List.filter isDamageIncrease l) <= 1)%nat ->
  Permutation l l' ->
  applyDamageBuffs l' base = applyDamageBuffs l base.
Proof.
  intros Hlen Hp.
  rewrite (applyDamageBuffs_filter l), (applyDamageBuffs_filter l').
  apply (Permutation_filter_bool isDamageIncrease) in Hp.
  destruct (List.filter isDamageIncrease l) as [|b [|b' k]].
  - apply Permutation_nil in Hp. rewrite Hp. reflexivity.
  - apply Permutation_length_1_inv in Hp. rewrite Hp. reflexivity.
  - cbn in Hlen. lia.
Qed.

(** Buffs that are unique by type hold at most one damageIncrease buff. *)
Lemma unique_types_one_damageIncrease (l : list Buff) :
  NoDup (buff_type <$> l) -> (length (List.filter isDamageIncrease l) <= 1)%nat.
Proof.
  induction l as [|b l IH]; intros Hn; [cbn; lia|].
  rewrite fmap_cons in Hn. apply NoDup_cons in Hn as [Hnotin Hn].
  cbn [List.filter]. unfold isDamageIncrease at 1.
  destruct (String.eqb (buff_type b) "damageIncrease") eqn:E; [|apply IH, Hn].
  apply String.eqb_eq in E.
  assert (Hnone : List.filter isDamageIncrease l = []).
  { clear IH Hn. induction l as [|b' l IHl]; [reflexivity|].
    cbn [List.filter]. unfold isDamageIncrease at 1.
    destruct (String.eqb (buff_type b') "damageIncrease") eqn:E'.
    - apply String.eqb_eq in E'. exfalso. apply Hnotin.
      rewrite fmap_cons, E, <- E'. apply list_elem_of_here.
    - apply IHl. intros Hin. apply Hnotin. rewrite fmap_cons.
      apply list_elem_of_further, Hin. }
  rewrite Hnone. cbn. lia.
Qed.

(** C3: the result of performPhysicalAttack and of performMagicAttack
    is the same for every permutation of the attacker's buff list, for
    every buff list that a combatant can hold: buffs are unique by type
    (applyBuff, the only place that adds one, refreshes an entry of the
    same type), so that every state that the battle loop reaches holds
    at most one damageIncrease buff per combatant. *)
Theorem damage_independent_of_buff_order random abilities
    (s : BattleState) (a : Side) (l' : list Buff) (t : Q) (n : string) (m : Q) (g : bool)
    (d1 d2 : CharacterData) (k : nat) :
  let reached :=
    battleState (Nat.iter k (battleRound random abilities) (initialSchedule d1 d2)) in
  ((length (List.filter isDamageIncrease (buffs (getC s a))) <= 1)%nat ->
   Permutation (buffs (getC s a)) l' ->
   fst (performPhysicalAttack random (updC a (set_buffs l') s) a t n m g)
   = fst (performPhysicalAttack random s a t n m g) /\
   fst (performMagicAttack random abilities (updC a (set_buffs l') s) a t n m)
   = fst (performMagicAttack random abilities s a t n m)) /\
  (forall sd, (length (List.filter isDamageIncrease (buffs (getC reached sd))) <= 1)%nat) /\
  (Permutation (buffs (getC reached a)) l' ->
   fst (performPhysicalAttack random (updC a (set_buffs l') reached) a t n m g)
   = fst (performPhysicalAttack random reached a t n m g) /\
   fst (performMagicAttack random abilities (updC a (set_buffs l') reached) a t n m)
   = fst (performMagicAttack random abilities reached a t n m)).
Proof.
  cbv zeta.
  assert (General : forall s : BattleState,
            (length (List.filter isDamageIncrease (buffs (getC s a))) <= 1)%nat ->
            Permutation (buffs (getC s a)) l' ->
            fst (performPhysicalAttack random (updC a (set_buffs l') s) a t n m g)
            = fst (performPhysicalAttack random s a t n m g) /\
            fst (performMagicAttack random abilities (updC a (set_buffs l') s) a t n m)
            = fst (performMagicAttack random abilities s a t n m)).
  { clear s. intros s Hlen Hp.
    pose proof (fun base => applyDamageBuffs_permutation _ _ base Hlen Hp) as E.
    split.
    - unfold performPhysicalAttack, randomInt, calculateCritical, Math_random.
      destruct s as [c1 c2 lg rd w dr], a; cbn [getC updC setC other set_buffs buffs stats
        character1 character2 draws fst snd];
        destruct g; cbn [fst]; rewrite !E; reflexivity.
    - unfold performMagicAttack, randomInt, calculateCritical, Math_random.
      destruct s as [c1 c2 lg rd w dr], a; cbn [getC updC setC other set_buffs buffs stats
        character1 character2 draws fst snd];
        cbn [fst]; rewrite !E; reflexivity. }
  assert (Reached : forall sd,
            (length (List.filter isDamageIncrease
                       (buffs (getC (battleState (Nat.iter k (battleRound random abilities)
                                                    (initialSchedule d1 d2))) sd))) <= 1)%nat).
  { intros sd. apply unique_types_one_damageIncrease.
    apply (inv_buffs _ _ _ (Inv_iter_battleRound random abilities _ d1 d2
                             (catalogueOk_lowerFactor abilities d1 d2) k _
                             (Inv_initial _ d1 d2) sd)). }
  split; [apply General|]. split; [exact Reached|].
  apply General, Reached.
Qed.

Lemma damage_independent_of_buff_order_witness :
  (length (List.filter isDamageIncrease (buffs (getC (buffedState mixedBuffs) First))) <= 1)%nat /\
  Permutation (buffs (getC (buffedState mixedBuffs) First)) (rev mixedBuffs) /\
  fst (performPhysicalAttack halves (updC First (set_buffs (rev mixedBuffs))
         (buffedState mixedBuffs)) First 0 "Basic Attack" 1 false)
  = fst (performPhysicalAttack halves (buffedState mixedBuffs) First 0 "Basic Attack" 1 false) /\
  fst (performMagicAttack halves [] (updC First (set_buffs (rev mixedBuffs))
         (buffedState mixedBuffs)) First 0 "Basic Magic Attack" 1)
  = fst (performMagicAttack halves [] (buffedState mixedBuffs) First 0 "Basic Magic Attack" 1).
Proof.
  assert (H1 : (length (List.filter isDamageIncrease
                          (buffs (getC (buffedState mixedBuffs) First))) <= 1)%nat)
    by (vm_compute; lia).
  assert (H2 : Permutation (buffs (getC (buffedState mixedBuffs) First)) (rev mixedBuffs))
    by apply Permutation_rev.
  split; [exact H1|]. split; [exact H2|].
  pose proof (damage_independent_of_buff_order halves [] (buffedState mixedBuffs) First
                (rev mixedBuffs) 0 "Basic Attack" 1 false alice bob 0) as (P & _ & _).
  pose proof (damage_independent_of_buff_order halves [] (buffedState mixedBuffs) First
                (rev mixedBuffs) 0 "Basic Magic Attack" 1 false alice bob 0) as (M & _ & _).
  split; [exact (proj1 (P H1 H2)) | exact (proj2 (M H1 H2))].
Defined.

(** The bound on the number of damageIncrease buffs is needed: on a list
    with two of them (50% and 100%), which applyBuff never builds,
    rounding after each factor makes the order matter on a base damage
    of 1: 1 -> 2 -> 4 in one order, 1 -> 2 -> 3 in the other. *)
Lemma damage_depends_on_buff_order :
  Permutation twoDamageBuffs (rev twoDamageBuffs) /\
  applyDamageBuffs twoDamageBuffs 1 == 4 /\
  applyDamageBuffs (rev twoDamageBuffs) 1 == 3 /\
  damage (fst (performPhysicalAttack halves (buffedState twoDamageBuffs)
                 First 0 "Basic Attack" 1 false)) == 4 /\
  damage (fst (performPhysicalAttack halves (buffedState (rev twoDamageBuffs))
                 First 0 "Basic Attack" 1 false)) == 3.
Proof.
  split; [apply Permutation_rev|].
  repeat split; apply Qeq_bool_iff; vm_compute; reflexivity.
Qed.

(** ** Damage reduction *)

#[global] Instance Math_round_proper : Proper (Qeq ==> Qeq) Math_round.
Proof. intros x y H. unfold Math_round. rewrite H. reflexivity. Qed.

Lemma Math_round_mono (x y : Q) : x <= y -> Math_round x <= Math_round y.
Proof.
  intros H. unfold Math_round. rewrite <- Zle_Qle.
  apply Qfloor_resp_le. lra.
Qed.

Lemma applyDamageReduction_min (baseDamage damageReduction : Q) :
  1 <= applyDamageReduction baseDamage damageReduction.
Proof. unfold applyDamageReduction. apply Math_max_ge_l. Qed.








(** ** Mana drain *)

Lemma applyPeriodicEffect_mana s source target t e sd :
  currentMana (getC (applyPeriodicEffect s source target t e) sd) = currentMana (getC s sd) /\
  stats (getC (applyPeriodicEffect s source target t e) sd) = stats (getC s sd).
Proof.
  unfold applyPeriodicEffect.
  destruct (findEffect _ _) as [[i ex]|]; destruct s as [c1 c2 lg rd w dr], target, sd;
    cbn; auto.
Qed.

Lemma nmin_not_above (x : Q) (y : Num) : ~ Nlt x (nmin x y).
Proof.
  destruct y as [y|]; cbn; [|tauto].
  pose proof (Math_min_le_l x y). lra.
Qed.

(** The immediate proc of processPeriodicAbility, relative to the state
    [s'] in which the effect has just been applied. *)
Lemma processPeriodicAbility_drain s a t ab ps :
  ps_type ps = "manaDrain"%string ->
  let s' := applyPeriodicEffect s a (other a) t
              (mkEffect (ab_name ab) (ps_type ps) (Some (ps_amount ps)) None (ps_duration ps)
                 (ps_interval ps) t (t + ps_duration ps) "") in
  let s1 := processPeriodicAbility s a t ab ps in
  currentMana (getC s1 (other a))
  = nsub (currentMana (getC s' (other a)))
      (nmin (currentMana (getC s' (other a))) (ps_amount ps)) /\
  currentMana (getC s1 a)
  = nmin (mana (stats (getC s' a))) (nadd (currentMana (getC s' a)) (ps_amount ps)) /\
  stats (getC s1 a) = stats (getC s' a).
Proof.
  intros Hps. unfold processPeriodicAbility. cbv zeta. rewrite Hps. cbn [String.eqb].
  generalize (applyPeriodicEffect s a (other a) t
                (mkEffect (ab_name ab) "manaDrain" (Some (ps_amount ps)) None (ps_duration ps)
                   (ps_interval ps) t (t + ps_duration ps) "")).
  intros s'. destruct s' as [c1 c2 lg rd w dr], a;
    cbn [getC updC setC other character1 character2];
    destruct (ngtq _ 0); cbn; repeat split; reflexivity.
Qed.

(** C4 (as amended): a manaDrain proc - the immediate one of
    processPeriodicAbility and every tick - takes
    min(target.currentMana, amount) from the target and then sets the
    source's mana to min(source maximum, source mana + amount): the
    source is credited with the nominal amount, whatever was drained, and
    never ends above its maximum.  For a tick the source is the combatant
    that [drainSource] finds by name, character1 first; when that is the
    drained combatant itself, the credit is added to what the drain left
    it. *)
Theorem manaDrain_proc (s : BattleState) (a c : Side) (t : Q) (ab : Ability)
    (ps : PeriodicSpec) (e : PeriodicEffect) :
  ps_type ps = "manaDrain"%string ->
  pe_type e = "manaDrain"%string ->
  let s1 := processPeriodicAbility s a t ab ps in
  let s2 := tickEffect s c t e in
  let src := drainSource s e in
  let amount := fieldNumber (pe_amount e) in
  let left := nsub (currentMana (getC s c)) (nmin (currentMana (getC s c)) amount) in
  (currentMana (getC s1 (other a))
   = nsub (currentMana (getC s (other a)))
       (nmin (currentMana (getC s (other a))) (ps_amount ps)) /\
   currentMana (getC s1 a)
   = nmin (mana (stats (getC s a))) (nadd (currentMana (getC s a)) (ps_amount ps)) /\
   ~ Nlt (mana (stats (getC s1 a))) (currentMana (getC s1 a))) /\
  (src <> c ->
   currentMana (getC s2 c) = left /\
   currentMana (getC s2 src)
   = nmin (mana (stats (getC s src))) (nadd (currentMana (getC s src)) amount)) /\
  (src = c ->
   currentMana (getC s2 c) = nmin (mana (stats (getC s c))) (nadd left amount)) /\
  ~ Nlt (mana (stats (getC s2 src))) (currentMana (getC s2 src)).
Proof.
  intros Hps Hpe. cbv zeta. split; [|split; [|split]].
  - destruct (processPeriodicAbility_drain s a t ab ps Hps) as (D1 & D2 & D3).
    cbv zeta in D1, D2, D3. rewrite D1, D2, D3.
    match goal with
    | |- context [applyPeriodicEffect s a (other a) t ?E0] =>
        destruct (applyPeriodicEffect_mana s a (other a) t E0 a) as [M1 S1];
        destruct (applyPeriodicEffect_mana s a (other a) t E0 (other a)) as [M2 _]
    end.
    rewrite M1, M2, S1. repeat split; try reflexivity. apply nmin_not_above.
  - intros Hsrc. unfold tickEffect. rewrite Hpe. cbn [String.eqb]. cbv zeta.
    fold (drainSource s e) in *.
    destruct (drainSource s e) eqn:Hd, c; try congruence;
      destruct s as [c1 c2 lg rd w dr];
      cbn [getC updC setC other character1 character2];
      destruct (ngtq _ 0); cbn; repeat split; reflexivity.
  - intros Hsrc. unfold tickEffect. rewrite Hpe. cbn [String.eqb]. cbv zeta.
    fold (drainSource s e) in *.
    destruct (drainSource s e) eqn:Hd, c; try congruence;
      destruct s as [c1 c2 lg rd w dr];
      cbn [getC updC setC other character1 character2];
      destruct (ngtq _ 0); cbn; reflexivity.
  - unfold tickEffect. rewrite Hpe. cbn [String.eqb]. cbv zeta.
    fold (drainSource s e).
    destruct (drainSource s e) eqn:Hd, c;
      destruct s as [c1 c2 lg rd w dr];
      cbn [getC updC setC other character1 character2];
      destruct (ngtq _ 0);
      cbn [getC updC setC other character1 character2 pushLog set_currentMana
           currentMana stats];
      apply nmin_not_above.
Qed.

(** The proc on the example: Alice drains Bob; and on two combatants of
    one name, where the tick on the second finds the first as source. *)
Lemma manaDrain_proc_witness :
  ps_type drainSpec = "manaDrain"%string /\
  pe_type drainEffect = "manaDrain"%string /\
  let s1 := processPeriodicAbility drainState First 0 drain drainSpec in
  let s2 := tickEffect drainState Second 2 drainEffect in
  let s3 := tickEffect drainState First 2 drainEffect in
  (Neq (currentMana (getC s1 Second)) 0 /\ Neq (currentMana (getC s1 First)) 40) /\
  (Neq (currentMana (getC s2 Second)) 0 /\ Neq (currentMana (getC s2 First)) 40) /\
  Neq (currentMana (getC s3 First)) 20.
Proof.
  assert (H1 : ps_type drainSpec = "manaDrain"%string) by reflexivity.
  assert (H2 : pe_type drainEffect = "manaDrain"%string) by reflexivity.
  split; [exact H1|]. split; [exact H2|]. cbv zeta.
  pose proof (manaDrain_proc drainState First Second 0 drain drainSpec drainEffect H1 H2)
    as ((A1 & A2 & _) & _).
  pose proof (manaDrain_proc drainState First Second 2 drain drainSpec drainEffect H1 H2)
    as (_ & B & _ & _).
  pose proof (manaDrain_proc drainState First First 2 drain drainSpec drainEffect H1 H2)
    as (_ & _ & C & _).
  cbv zeta in A1, A2, B, C.
  destruct B as [B1 B2]; [vm_compute; discriminate|].
  specialize (C ltac:(vm_compute; reflexivity)).
  cbn [other] in A1.
  change (drainSource drainState drainEffect) with First in B2.
  rewrite A1, A2, B1, B2, C.
  repeat split; vm_compute; reflexivity.
Defined.

(** Bob has 5 mana and the drain is of 20: the immediate proc takes 5
    from Bob and gives 20 to Alice (from 20 to 40); at the tick of time 2
    Bob has nothing left to lose and Alice still gains, up to her
    maximum of 50. *)
Lemma manaDrain_credits_nominal_amount :
  let s1 := processPeriodicAbility drainState First 0 drain drainSpec in
  let s2 := processEffects s1 2 in
  (Neq (currentMana (character2 drainState)) 5 /\
   Neq (currentMana (character1 drainState)) 20) /\
  (Neq (currentMana (character2 s1)) 0 /\ Neq (currentMana (character1 s1)) 40) /\
  (Neq (currentMana (character2 s2)) 0 /\ Neq (currentMana (character1 s2)) 50) /\
  ~ Neq (nsub (currentMana (character1 s1)) (currentMana (character1 drainState)))
        (nmin (currentMana (character2 drainState)) (ps_amount drainSpec)).
Proof.
  cbv zeta. repeat split; try (vm_compute; reflexivity).
  intros H. vm_compute in H. discriminate H.
Qed.

(** ** Ticks and expiry of periodic effects *)

Lemma effectDue_iff (t : Q) (e : PeriodicEffect) :
  effectDue t e = true <-> pe_lastProcTime e + pe_interval e <= t /\ t < pe_endTime e.
Proof.
  unfold effectDue. rewrite andb_true_iff, geq_iff, ltq_iff. reflexivity.
Qed.

Lemma effectDue_not_expired (t : Q) (e : PeriodicEffect) :
  effectDue t e = true -> geq t (pe_endTime e) = false.
Proof.
  intros H. apply effectDue_iff in H as [_ H].
  apply leq_false_iff. exact H.
Qed.

Lemma expired_not_due (t : Q) (e : PeriodicEffect) :
  pe_endTime e <= t -> effectDue t e = false.
Proof.
  intros H. destruct (effectDue t e) eqn:E; [|reflexivity].
  apply effectDue_iff in E. lra.
Qed.

Lemma stepEffects_app t l k : stepEffects t (l ++ k) = stepEffects t l ++ stepEffects t k.
Proof. unfold stepEffects. rewrite List.map_app, List.filter_app. reflexivity. Qed.

(** The effect list of the character after the loop body at index [i]. *)
Lemma effectStep_effects s c t i e :
  periodicEffects (getC s c) !! i = Some e ->
  periodicEffects (getC (effectStep s c t i) c)
  = take i (periodicEffects (getC s c)) ++ stepEffects t [e]
    ++ drop (S i) (periodicEffects (getC s c)).
Proof.
  intros Hl. unfold effectStep. rewrite Hl. cbv zeta.
  unfold stepEffects. cbn [List.map List.filter].
  destruct (effectDue t e) eqn:Hd.
  - rewrite (effectDue_not_expired _ _ Hd).
    pose proof (effectDue_iff t e) as [Hi _]. destruct (Hi Hd) as [_ Hlt].
    apply ltq_iff in Hlt. cbn [set_pe_lastProcTime pe_endTime]. rewrite Hlt.
    pose proof (frame_effects _ _ c (frame_tickEffect s c t e)) as Hf.
    destruct c; cbn [getC updC setC character1 character2 periodicEffects set_periodicEffects] in *;
      rewrite Hf; apply insert_take_drop; eapply lookup_lt_Some; eassumption.
  - unfold ltq, geq. destruct (Qle_bool (pe_endTime e) t) eqn:Hx; cbn [negb].
    + destruct c; cbn; apply delete_take_drop.
    + cbn [app]. symmetry. apply take_drop_middle. exact Hl.
Qed.

Lemma effectsLoop_effects n : forall s c t,
  (n <= length (periodicEffects (getC s c)))%nat ->
  periodicEffects (getC (effectsLoop n s c t) c)
  = stepEffects t (take n (periodicEffects (getC s c)))
    ++ drop n (periodicEffects (getC s c)).
Proof.
  induction n as [|n IH]; intros s c t Hn; cbn [effectsLoop].
  - rewrite take_0, drop_0. reflexivity.
  - destruct (lookup_lt_is_Some_2 (periodicEffects (getC s c)) n ltac:(lia)) as [e He].
    pose proof (effectStep_effects s c t n e He) as Hs.
    assert (Hlen : length (take n (periodicEffects (getC s c))) = n)
      by (rewrite length_take; lia).
    rewrite IH; rewrite Hs.
    + rewrite take_app_length' by (symmetry; exact Hlen).
      rewrite drop_app_length' by (symmetry; exact Hlen).
      rewrite (take_S_r _ _ _ He), stepEffects_app, <- app_assoc. reflexivity.
    + rewrite length_app, Hlen. lia.
Qed.

Lemma buffsLoop_effects n : forall s c t sd,
  periodicEffects (getC (buffsLoop n s c t) sd) = periodicEffects (getC s sd).
Proof.
  induction n as [|n IH]; intros s c t sd; cbn [buffsLoop]; [reflexivity|].
  rewrite IH. unfold buffStep.
  destruct (buffs (getC s c) !! n) as [b|]; [|reflexivity].
  destruct (geq t (buff_endTime b)); [|reflexivity].
  destruct s as [c1 c2 lg rd w dr], c, sd; reflexivity.
Qed.

Lemma processCharacterEffects_effects s c t :
  periodicEffects (getC (processCharacterEffects s c t) c)
  = stepEffects t (periodicEffects (getC s c)).
Proof.
  unfold processCharacterEffects. rewrite buffsLoop_effects.
  rewrite effectsLoop_effects by lia.
  rewrite firstn_all, drop_all, app_nil_r. reflexivity.
Qed.

(** C6: the loop body of processCharacterEffects ticks an effect exactly
    when lastProcTime + interval <= t < endTime, and removes it with an
    expiry message exactly when endTime <= t (in which case it has not
    ticked); over the whole list this is [stepEffects].  A poison of
    duration 6 and interval 2 applied at time 0 and processed at the
    times 0, 1, ..., 6 deals its damage at the times 2 and 4 only, and is
    gone after time 6. *)
Theorem periodic_effect_tick_and_expiry (s : BattleState) (c : Side) (t : Q)
    (i : nat) (e : PeriodicEffect) :
  periodicEffects (getC s c) !! i = Some e ->
  (effectDue t e = true <-> pe_lastProcTime e + pe_interval e <= t /\ t < pe_endTime e) /\
  (pe_lastProcTime e + pe_interval e <= t /\ t < pe_endTime e ->
   effectStep s c t i
   = updC c (fun ch => set_periodicEffects
               (<[i := set_pe_lastProcTime t e]> (periodicEffects ch)) ch)
       (tickEffect s c t e)) /\
  (~ pe_lastProcTime e + pe_interval e <= t -> t < pe_endTime e ->
   effectStep s c t i = s) /\
  (pe_endTime e <= t ->
   effectStep s c t i
   = pushLog t (MsgEffectExpired (pe_name e) (char_name (getC s c)))
       (updC c (fun ch => set_periodicEffects (delete i (periodicEffects ch)) ch) s)) /\
  (pe_type e = "poison"%string ->
   currentHealth (getC (tickEffect s c t e) c)
   = nsub (currentHealth (getC s c)) (fieldNumber (pe_damage e))) /\
  periodicEffects (getC (processCharacterEffects s c t) c)
  = stepEffects t (periodicEffects (getC s c)) /\
  (periodicEffects (getC poisonedState Second)
   = [mkEffect "Poison" "poison" None (Some 10) 6 2 0 6 "alice"] /\
   fst (damageTimes [0; 1; 2; 3; 4; 5; 6] poisonedState) = [2; 4] /\
   periodicEffects (character2 (snd (damageTimes [0; 1; 2; 3; 4; 5; 6] poisonedState)))
   = []).
Proof.
  intros Hl. split; [apply effectDue_iff|]. split; [|split; [|split; [|split; [|split]]]].
  6:{ repeat split; vm_compute; reflexivity. }
  - intros Hd. apply effectDue_iff in Hd. unfold effectStep. rewrite Hl, Hd.
    cbv zeta. rewrite (effectDue_not_expired _ _ Hd). reflexivity.
  - intros Hn Hlt. unfold effectStep. rewrite Hl.
    destruct (effectDue t e) eqn:Hd; [apply effectDue_iff in Hd; tauto|].
    cbv zeta. apply leq_false_iff in Hlt. unfold geq, leq in *. rewrite Hlt. reflexivity.
  - intros Hexp. unfold effectStep. rewrite Hl, (expired_not_due _ _ Hexp).
    cbv zeta. apply geq_iff in Hexp. rewrite Hexp.
    destruct s as [c1 c2 lg rd w dr], c; reflexivity.
  - intros Hty. unfold tickEffect. rewrite Hty. cbn [String.eqb]. cbv zeta.
    destruct s as [c1 c2 lg rd w dr], c;
      cbn [getC updC setC other character1 character2];
      destruct (nleq _ 0); reflexivity.
  - apply processCharacterEffects_effects.
Qed.

Lemma periodic_effect_tick_and_expiry_witness :
  periodicEffects (getC poisonedState Second) !! 0%nat
  = Some (mkEffect "Poison" "poison" None (Some 10) 6 2 0 6 "alice") /\
  fst (damageTimes [0; 1; 2; 3; 4; 5; 6] poisonedState) = [2; 4] /\
  periodicEffects (character2 (snd (damageTimes [0; 1; 2; 3; 4; 5; 6] poisonedState))) = [] /\
  effectStep poisonedState Second 6 0
  = pushLog 6 (MsgEffectExpired "Poison" "bob")
      (updC Second (fun ch => set_periodicEffects (delete 0%nat (periodicEffects ch)) ch)
         poisonedState).
Proof.
  assert (Hl : periodicEffects (getC poisonedState Second) !! 0%nat
               = Some (mkEffect "Poison" "poison" None (Some 10) 6 2 0 6 "alice"))
    by (vm_compute; reflexivity).
  split; [exact Hl|]. split; [vm_compute; reflexivity|]. split; [vm_compute; reflexivity|].
  destruct (periodic_effect_tick_and_expiry poisonedState Second 6 0 _ Hl)
    as (_ & _ & _ & Hexp & _ & _ & _).
  apply Hexp. cbn [pe_endTime]. apply leq_iff. vm_compute. reflexivity.
Defined.

(** ** Uniqueness of buffs and periodic effects by type *)

Lemma refresh_unique {A} (f : A -> string) (l : list A) (i : nat) (x x' : A) :
  NoDup (f <$> l) -> l !! i = Some x -> f x' = f x ->
  forall y, y ∈ <[i:=x']> l -> f y = f x -> y = x'.
Proof.
  intros Hn Hl Hf y Hy Hfy.
  apply list_elem_of_lookup in Hy as [j Hj].
  destruct (decide (j = i)) as [->|Hne].
  - rewrite list_lookup_insert_eq in Hj by (eapply lookup_lt_Some; eassumption).
    congruence.
  - rewrite list_lookup_insert_ne in Hj by congruence.
    exfalso. apply Hne.
    eapply (NoDup_lookup (f <$> l) j i (f x)); [exact Hn| |].
    + rewrite list_lookup_fmap, Hj. cbn. congruence.
    + rewrite list_lookup_fmap, Hl. reflexivity.
Qed.

Lemma list_find_type_Some {A} (f : A -> string) (ty : string) (l : list A) :
  ty ∈ f <$> l -> exists i x, list_find (fun y => f y = ty) l = Some (i, x).
Proof.
  intros Hin. apply list_elem_of_fmap in Hin as (x & -> & Hx).
  destruct (list_find (fun y => f y = f x) l) as [[i z]|] eqn:E; [eauto|].
  apply list_find_None in E. rewrite Forall_forall in E. exfalso. apply (E x Hx). reflexivity.
Qed.

Lemma list_find_type_None {A} (f : A -> string) (ty : string) (l : list A) :
  ty ∉ f <$> l -> list_find (fun y => f y = ty) l = None.
Proof.
  intros Hnot. apply list_find_None, Forall_forall. intros x Hx Hty.
  apply Hnot. rewrite <- Hty. apply list_elem_of_fmap. eauto.
Qed.

Lemma applyBuff_buffs s target time buff :
  buffs (getC (applyBuff s target time buff) target)
  = match findBuff (buff_type buff) (buffs (getC s target)) with
    | Some (i, existing) =>
        <[i := set_buff_endTime (time + buff_duration buff) existing]> (buffs (getC s target))
    | None => buffs (getC s target) ++ [buff]
    end.
Proof.
  unfold applyBuff. destruct (findBuff _ _) as [[i ex]|];
    destruct s as [c1 c2 lg rd w dr], target; reflexivity.
Qed.

Lemma applyPeriodicEffect_effects s source target time effect :
  periodicEffects (getC (applyPeriodicEffect s source target time effect) target)
  = match findEffect (pe_type effect) (periodicEffects (getC s target)) with
    | Some (i, existing) =>
        <[i := set_pe_lastProcTime time
                 (set_pe_endTime (time + pe_duration effect) existing)]>
          (periodicEffects (getC s target))
    | None =>
        periodicEffects (getC s target)
        ++ [set_pe_sourceName (char_name (getC s source)) effect]
    end.
Proof.
  unfold applyPeriodicEffect. destruct (findEffect _ _) as [[i ex]|];
    destruct s as [c1 c2 lg rd w dr], target; reflexivity.
Qed.

(** C7: in every state that the battle loop reaches, no combatant holds
    two buffs of one type or two periodic effects of one type.  applyBuff
    and applyPeriodicEffect keep the types unique: when an entry of the
    type is there, the list of types is unchanged and that entry gets
    endTime = time + duration (and lastProcTime = time for a periodic
    effect); otherwise the new entry is appended. *)
Theorem unique_buff_and_effect_types random abilities (d1 d2 : CharacterData) (n : nat)
    (s : BattleState) (source target : Side) (time : Q) (buff : Buff)
    (effect : PeriodicEffect) :
  NoDup (buff_type <$> buffs (getC s target)) ->
  NoDup (pe_type <$> periodicEffects (getC s target)) ->
  let reached :=
    battleState (Nat.iter n (battleRound random abilities) (initialSchedule d1 d2)) in
  let bs := buffs (getC s target) in
  let bs' := buffs (getC (applyBuff s target time buff) target) in
  let es := periodicEffects (getC s target) in
  let es' := periodicEffects (getC (applyPeriodicEffect s source target time effect) target) in
  (forall sd, NoDup (buff_type <$> buffs (getC reached sd)) /\
              NoDup (pe_type <$> periodicEffects (getC reached sd))) /\
  (NoDup (buff_type <$> bs') /\
   (buff_type buff ∈ buff_type <$> bs ->
    buff_type <$> bs' = buff_type <$> bs /\
    forall b, b ∈ bs' -> buff_type b = buff_type buff ->
              buff_endTime b = time + buff_duration buff) /\
   (buff_type buff ∉ buff_type <$> bs -> bs' = bs ++ [buff])) /\
  (NoDup (pe_type <$> es') /\
   (pe_type effect ∈ pe_type <$> es ->
    pe_type <$> es' = pe_type <$> es /\
    forall e, e ∈ es' -> pe_type e = pe_type effect ->
              pe_endTime e = time + pe_duration effect /\ pe_lastProcTime e = time) /\
   (pe_type effect ∉ pe_type <$> es ->
    es' = es ++ [set_pe_sourceName (char_name (getC s source)) effect])).
Proof.
  intros Hb He. cbv zeta. split; [|split].
  - intros sd.
    pose proof (Inv_iter_battleRound random abilities _ d1 d2
                  (catalogueOk_lowerFactor abilities d1 d2) n _
                  (Inv_initial _ d1 d2) sd) as Hi.
    split; [apply (inv_buffs _ _ _ Hi) | apply (inv_effects _ _ _ Hi)].
  - rewrite applyBuff_buffs. unfold findBuff. split; [|split].
    + destruct (list_find _ _) as [[i ex]|] eqn:E.
      * apply list_find_Some in E as (Hl & Hty & _).
        rewrite (fmap_insert_same _ _ _ ex); [exact Hb | exact Hl | reflexivity].
      * apply list_find_None in E. apply NoDup_fmap_snoc; assumption.
    + intros Hin. destruct (list_find_type_Some _ _ _ Hin) as (i & ex & E).
      rewrite E. apply list_find_Some in E as (Hl & Hty & _). split.
      * apply (fmap_insert_same _ _ _ ex); [exact Hl | reflexivity].
      * intros b Hbin Hbty.
        pose proof (refresh_unique buff_type _ i ex
                      (set_buff_endTime (time + buff_duration buff) ex)
                      Hb Hl eq_refl b Hbin ltac:(congruence)) as ->.
        reflexivity.
    + intros Hnot. rewrite (list_find_type_None _ _ _ Hnot). reflexivity.
  - rewrite applyPeriodicEffect_effects. unfold findEffect. split; [|split].
    + destruct (list_find _ _) as [[i ex]|] eqn:E.
      * apply list_find_Some in E as (Hl & Hty & _).
        rewrite (fmap_insert_same _ _ _ ex); [exact He | exact Hl | reflexivity].
      * apply list_find_None in E. apply NoDup_fmap_snoc; assumption.
    + intros Hin. destruct (list_find_type_Some _ _ _ Hin) as (i & ex & E).
      rewrite E. apply list_find_Some in E as (Hl & Hty & _). split.
      * apply (fmap_insert_same _ _ _ ex); [exact Hl | reflexivity].
      * intros e Hein Hety.
        pose proof (refresh_unique pe_type _ i ex
                      (set_pe_lastProcTime time
                         (set_pe_endTime (time + pe_duration effect) ex))
                      He Hl eq_refl e Hein ltac:(congruence)) as ->.
        split; reflexivity.
    + intros Hnot. rewrite (list_find_type_None _ _ _ Hnot). reflexivity.
Qed.

Lemma unique_buff_and_effect_types_witness :
  let effect := mkEffect "Poison" "poison" None (Some 10) 6 2 3 9 "" in
  let buff := mkBuff "Rage" "damageIncrease" 50 10 13 in
  let es := periodicEffects (getC poisonedState Second) in
  let es' := periodicEffects
               (getC (applyPeriodicEffect poisonedState First Second 3 effect) Second) in
  NoDup (buff_type <$> buffs (getC poisonedState Second)) /\
  NoDup (pe_type <$> es) /\
  pe_type effect ∈ pe_type <$> es /\
  pe_type <$> es' = pe_type <$> es /\
  (forall e, e ∈ es' -> pe_type e = pe_type effect ->
             pe_endTime e = 3 + pe_duration effect /\ pe_lastProcTime e = 3) /\
  buffs (getC (applyBuff poisonedState Second 3 buff) Second) = [buff].
Proof.
  cbv zeta.
  assert (H1 : NoDup (buff_type <$> buffs (getC poisonedState Second)))
    by (vm_compute; constructor).
  assert (H2 : NoDup (pe_type <$> periodicEffects (getC poisonedState Second))).
  { vm_compute. apply NoDup_singleton. }
  assert (H3 : pe_type (mkEffect "Poison" "poison" None (Some 10) 6 2 3 9 "")
               ∈ pe_type <$> periodicEffects (getC poisonedState Second)).
  { vm_compute. apply list_elem_of_here. }
  assert (H4 : buff_type (mkBuff "Rage" "damageIncrease" 50 10 13)
               ∉ buff_type <$> buffs (getC poisonedState Second)).
  { vm_compute. apply not_elem_of_nil. }
  destruct (unique_buff_and_effect_types halves [] alice bob 0 poisonedState First Second 3
              (mkBuff "Rage" "damageIncrease" 50 10 13)
              (mkEffect "Poison" "poison" None (Some 10) 6 2 3 9 "") H1 H2)
    as (_ & (_ & _ & Hnew) & (_ & Hrefresh & _)).
  destruct (Hrefresh H3) as [T1 T2].
  split; [exact H1|]. split; [exact H2|]. split; [exact H3|].
  split; [exact T1|]. split; [exact T2|].
  exact (Hnew H4).
Defined.

(** ** The schedule of the battle loop *)

Lemma speed_fold_product (l : list Buff) : forall m,
  fold_left (fun m buff =>
               if String.eqb (buff_type buff) "attackSpeedReduction"
               then m * (1 + buff_amount buff / 100) else m) l m
  == m * fold_right (fun b acc => (1 + buff_amount b / 100) * acc) 1
         (List.filter (fun b => String.eqb (buff_type b) "attackSpeedReduction") l).
Proof.
  induction l as [|b l IH]; intros m; cbn [fold_left List.filter].
  - cbn. lra.
  - rewrite IH. destruct (String.eqb (buff_type b) "attackSpeedReduction");
      cbn [fold_right]; lra.
Qed.

Lemma getEffectiveAttackSpeed_product (c : Character) :
  getEffectiveAttackSpeed c == effectiveAttackSpeedSpec c.
Proof.
  unfold getEffectiveAttackSpeed, effectiveAttackSpeedSpec. cbv zeta.
  rewrite speed_fold_product. lra.
Qed.

(** C8: in a round of the battle loop the combatant with the smaller
    next-attack time acts, combatant 1 on a tie; battleTime becomes that
    time; after its action the actor's next-attack time grows by its
    effective attack speed, the base attack speed times the product of
    (1 + amount/100) over its attackSpeedReduction buffs; then the effects
    of both combatants are processed at battleTime. *)
Theorem battle_round_schedule random abilities (sch : Schedule) :
  let s := battleState sch in
  let n1 := char1NextAttack sch in
  let n2 := char2NextAttack sch in
  let sch' := battleRound random abilities sch in
  (n1 <= n2 ->
   let acted := processAttack random abilities s First n1 in
   battleTime sch' = n1 /\
   battleState sch' = incr_rounds (processEffects acted n1) /\
   char1NextAttack sch' == n1 + effectiveAttackSpeedSpec (character1 acted) /\
   char2NextAttack sch' = n2) /\
  (n2 < n1 ->
   let acted := processAttack random abilities s Second n2 in
   battleTime sch' = n2 /\
   battleState sch' = incr_rounds (processEffects acted n2) /\
   char2NextAttack sch' == n2 + effectiveAttackSpeedSpec (character2 acted) /\
   char1NextAttack sch' = n1).
Proof.
  cbv zeta. unfold battleRound. split; intros H.
  - apply leq_iff in H. rewrite H. cbn [battleTime battleState char1NextAttack char2NextAttack].
    repeat split. rewrite getEffectiveAttackSpeed_product. reflexivity.
  - apply leq_false_iff in H. rewrite H.
    cbn [battleTime battleState char1NextAttack char2NextAttack].
    repeat split. rewrite getEffectiveAttackSpeed_product. reflexivity.
Qed.

(** The first round of a battle: both next-attack times are 0 and
    combatant 1 acts. *)
Lemma battle_round_schedule_witness :
  let sch := initialSchedule alice bob in
  let acted := processAttack halves [] (battleState sch) First 0 in
  char1NextAttack sch <= char2NextAttack sch /\
  battleTime (battleRound halves [] sch) = 0 /\
  battleState (battleRound halves [] sch) = incr_rounds (processEffects acted 0) /\
  char1NextAttack (battleRound halves [] sch)
  == 0 + effectiveAttackSpeedSpec (character1 acted) /\
  char2NextAttack (battleRound halves [] sch) = 0.
Proof.
  cbv zeta.
  assert (H : char1NextAttack (initialSchedule alice bob)
              <= char2NextAttack (initialSchedule alice bob))
    by (apply leq_iff; vm_compute; reflexivity).
  split; [exact H|].
  exact (proj1 (battle_round_schedule halves [] (initialSchedule alice bob)) H).
Defined.

(** ** Matchmaking *)

Lemma find_first {A} (f : A -> bool) (l : list A) (x : A) :
  List.find f l = Some x ->
  exists pre post, l = pre ++ x :: post /\ f x = true /\ Forall (fun y => f y = false) pre.
Proof.
  induction l as [|y l IH]; cbn [List.find]; [discriminate|].
  destruct (f y) eqn:E.
  - intros [= ->]. exists [], l. repeat split; [exact E | constructor].
  - intros H. destruct (IH H) as (pre & post & -> & Hx & Hpre).
    exists (y :: pre), post. repeat split; [exact Hx | constructor; assumption].
Qed.

Lemma find_none_all {A} (f : A -> bool) (l : list A) :
  List.find f l = None -> Forall (fun y => f y = false) l.
Proof.
  intros H. apply Forall_forall. intros y Hy.
  apply (find_none f l H). apply list_elem_of_In, Hy.
Qed.

Module MatchmakingFacts.
Import Matchmaking.

Lemma isOpponentFor_true cid pid e :
  isOpponentFor cid pid e = true <-> characterId e <> cid /\ playerId e <> pid.
Proof.
  unfold isOpponentFor. rewrite andb_true_iff, !negb_true_iff, !String.eqb_neq.
  reflexivity.
Qed.

Lemma isOpponentFor_false cid pid e :
  isOpponentFor cid pid e = false <-> characterId e = cid \/ playerId e = pid.
Proof.
  unfold isOpponentFor. rewrite andb_false_iff, !negb_false_iff, !String.eqb_eq.
  reflexivity.
Qed.

Section Facts.

Variable startBattle : nat -> string -> string -> string.

Lemma findMatch_same_owner cid pid st :
  Forall (fun e => playerId e = pid) (matchmakingQueue st) ->
  findMatch startBattle cid pid st = (None, st).
Proof.
  intros Hall. unfold findMatch.
  destruct (List.find _ _) as [opp|] eqn:E; [|reflexivity].
  apply find_some in E as [Hin Hop]. apply isOpponentFor_true in Hop as [_ Hop].
  rewrite Forall_forall in Hall. exfalso. apply Hop, Hall, list_elem_of_In, Hin.
Qed.

(** Enqueueing a character of a player all of whose characters fill the
    queue never finds a match, and the queue stays this player's. *)
Lemma addToQueue_same_owner cid pid now st :
  pendingMatchNotifications st !! cid = None ->
  Forall (fun e => playerId e = pid) (matchmakingQueue st) ->
  (forall m, fst (addToQueue startBattle cid pid now st) <> MatchFound m) /\
  Forall (fun e => playerId e = pid)
    (matchmakingQueue (snd (addToQueue startBattle cid pid now st))) /\
  pendingMatchNotifications (snd (addToQueue startBattle cid pid now st))
  = pendingMatchNotifications st /\
  cid ∈ characterId <$> matchmakingQueue (snd (addToQueue startBattle cid pid now st)) /\
  (forall c, c ∈ characterId <$> matchmakingQueue st ->
             c ∈ characterId <$> matchmakingQueue
                   (snd (addToQueue startBattle cid pid now st))).
Proof.
  intros Hp Hall. unfold addToQueue. rewrite Hp.
  destruct (list_find _ _) as [[i ex]|] eqn:E.
  - cbn [fst snd matchmakingQueue pendingMatchNotifications].
    apply list_find_Some in E as (Hl & Hty & _).
    assert (Hids : characterId <$> <[i:=mkQueueEntry (characterId ex) (playerId ex) now]>
                                     (matchmakingQueue st)
                   = characterId <$> matchmakingQueue st)
      by (apply (fmap_insert_same _ _ _ ex); [exact Hl | reflexivity]).
    split; [discriminate|]. split; [|split; [reflexivity|split]].
    + apply Forall_insert; [exact Hall|]. cbn.
      rewrite Forall_forall in Hall. apply Hall. eapply list_elem_of_lookup_2; eassumption.
    + rewrite Hids, <- Hty. apply list_elem_of_fmap. exists ex. split; [reflexivity|].
      eapply list_elem_of_lookup_2; eassumption.
    + intros c Hc. rewrite Hids. exact Hc.
  - rewrite findMatch_same_owner.
    + cbn [fst snd matchmakingQueue pendingMatchNotifications].
      split; [discriminate|]. split; [|split; [reflexivity|split]].
      * apply Forall_app. split; [exact Hall|]. constructor; [reflexivity|constructor].
      * rewrite fmap_app. apply elem_of_app. right. apply list_elem_of_here.
      * intros c Hc. rewrite fmap_app. apply elem_of_app. left. exact Hc.
    + cbn [matchmakingQueue].
      apply Forall_app. split; [exact Hall|]. constructor; [reflexivity|constructor].
Qed.

End Facts.

End MatchmakingFacts.

(** C9: findMatch pairs the character with the first waiting entry whose
    characterId differs and whose playerId differs, removes the entries
    of both characters from the queue and leaves a notification for the
    opponent; without such an entry it returns null and changes nothing.
    So a queue that only holds characters of one player never pairs
    another character of that player, whatever the order of the
    enqueues. *)
Theorem findMatch_first_other_owner (startBattle : nat -> string -> string -> string)
    (cid pid : string) (st : Matchmaking.State) (a b x now1 now2 : string) :
  let q := Matchmaking.matchmakingQueue st in
  let r := Matchmaking.findMatch startBattle cid pid st in
  (forall m, fst r = Some m ->
     exists pre opp post,
       q = pre ++ opp :: post /\
       Forall (fun e => Matchmaking.characterId e = cid \/ Matchmaking.playerId e = pid) pre /\
       Matchmaking.characterId opp <> cid /\ Matchmaking.playerId opp <> pid /\
       Matchmaking.opponentId m = Matchmaking.characterId opp /\
       Forall (fun e => Matchmaking.characterId e <> cid /\
                        Matchmaking.characterId e <> Matchmaking.characterId opp)
         (Matchmaking.matchmakingQueue (snd r)) /\
       (forall e, e ∈ q -> Matchmaking.characterId e <> cid ->
                  Matchmaking.characterId e <> Matchmaking.characterId opp ->
                  e ∈ Matchmaking.matchmakingQueue (snd r)) /\
       Matchmaking.pendingMatchNotifications (snd r) !! Matchmaking.characterId opp
       = Some (Matchmaking.mkMatchInfo cid (Matchmaking.battleId m))) /\
  (fst r = None ->
   snd r = st /\
   Forall (fun e => Matchmaking.characterId e = cid \/ Matchmaking.playerId e = pid) q) /\
  (Forall (fun e => Matchmaking.playerId e = pid) q -> r = (None, st)) /\
  (let r1 := Matchmaking.addToQueue startBattle a x now1 emptyQueue in
   let r2 := Matchmaking.addToQueue startBattle b x now2 (snd r1) in
   (forall m, fst r1 <> Matchmaking.MatchFound m) /\
   (forall m, fst r2 <> Matchmaking.MatchFound m) /\
   Forall (fun e => Matchmaking.playerId e = x) (Matchmaking.matchmakingQueue (snd r2)) /\
   a ∈ Matchmaking.characterId <$> Matchmaking.matchmakingQueue (snd r2) /\
   b ∈ Matchmaking.characterId <$> Matchmaking.matchmakingQueue (snd r2)).
Proof.
  cbv zeta. split; [|split; [|split]].
  - intros m Hm. unfold Matchmaking.findMatch in *.
    destruct (List.find _ _) as [opp|] eqn:E; [|discriminate Hm].
    cbn [fst snd] in *. injection Hm as <-.
    destruct (find_first _ _ _ E) as (pre & post & Hq & Hopp & Hpre).
    apply MatchmakingFacts.isOpponentFor_true in Hopp as [O1 O2].
    exists pre, opp, post. split; [exact Hq|]. split; [|split; [exact O1|split; [exact O2|]]].
    { eapply Forall_impl; [exact Hpre|]. intros e He.
      apply MatchmakingFacts.isOpponentFor_false, He. }
    split; [reflexivity|]. cbn [Matchmaking.matchmakingQueue
      Matchmaking.pendingMatchNotifications Matchmaking.opponentId Matchmaking.battleId].
    split; [|split].
    + apply Forall_forall. intros e He. apply list_elem_of_In, filter_In in He as [_ He].
      apply andb_true_iff in He as [H1 H2].
      rewrite negb_true_iff, String.eqb_neq in H1, H2. split; assumption.
    + intros e He H1 H2. apply list_elem_of_In, filter_In. split; [apply list_elem_of_In, He|].
      apply andb_true_iff. rewrite !negb_true_iff, !String.eqb_neq. split; assumption.
    + apply lookup_insert_eq.
  - intros Hn. unfold Matchmaking.findMatch in *.
    destruct (List.find _ _) as [opp|] eqn:E; [discriminate Hn|].
    split; [reflexivity|].
    eapply Forall_impl; [apply find_none_all, E|]. intros e He.
    apply MatchmakingFacts.isOpponentFor_false, He.
  - apply MatchmakingFacts.findMatch_same_owner.
  - destruct (MatchmakingFacts.addToQueue_same_owner startBattle a x now1 emptyQueue)
      as (A1 & A2 & A3 & A4 & A5); [apply lookup_empty | constructor |].
    destruct (MatchmakingFacts.addToQueue_same_owner startBattle b x now2
                (snd (Matchmaking.addToQueue startBattle a x now1 emptyQueue)))
      as (B1 & B2 & B3 & B4 & B5); [rewrite A3; apply lookup_empty | exact A2 |].
    split; [exact A1|]. split; [exact B1|]. split; [exact B2|].
    split; [apply B5, A4 | exact B4].
Qed.

(** A queue in which "c2" (of player "p2") waits behind "c1" (of player
    "p1"): enqueueing "c3" of player "p1" pairs it with "c2", the first
    entry of another player. *)
Lemma findMatch_first_other_owner_witness :
  let st := Matchmaking.mkState
              [Matchmaking.mkQueueEntry "c1" "p1" "t1";
               Matchmaking.mkQueueEntry "c2" "p2" "t2";
               Matchmaking.mkQueueEntry "c3" "p1" "t3"] ∅ 0 in
  let r := Matchmaking.findMatch battleIds "c3" "p1" st in
  fst r = Some (Matchmaking.mkMatchInfo "c2" "battle-0") /\
  exists pre opp post,
    Matchmaking.matchmakingQueue st = pre ++ opp :: post /\
    Forall (fun e => Matchmaking.characterId e = "c3"%string
                     \/ Matchmaking.playerId e = "p1"%string) pre /\
    Matchmaking.characterId opp <> "c3"%string /\
    Matchmaking.playerId opp <> "p1"%string /\
    Matchmaking.opponentId (Matchmaking.mkMatchInfo "c2" "battle-0")
    = Matchmaking.characterId opp /\
    Forall (fun e => Matchmaking.characterId e <> "c3"%string /\
                     Matchmaking.characterId e <> Matchmaking.characterId opp)
      (Matchmaking.matchmakingQueue (snd r)) /\
    (forall e, e ∈ Matchmaking.matchmakingQueue st ->
               Matchmaking.characterId e <> "c3"%string ->
               Matchmaking.characterId e <> Matchmaking.characterId opp ->
               e ∈ Matchmaking.matchmakingQueue (snd r)) /\
    Matchmaking.pendingMatchNotifications (snd r) !! Matchmaking.characterId opp
    = Some (Matchmaking.mkMatchInfo "c3"
              (Matchmaking.battleId (Matchmaking.mkMatchInfo "c2" "battle-0"))).
Proof.
  cbv zeta.
  assert (H : fst (Matchmaking.findMatch battleIds "c3" "p1"
                     (Matchmaking.mkState
                        [Matchmaking.mkQueueEntry "c1" "p1" "t1";
                         Matchmaking.mkQueueEntry "c2" "p2" "t2";
                         Matchmaking.mkQueueEntry "c3" "p1" "t3"] ∅ 0))
              = Some (Matchmaking.mkMatchInfo "c2" "battle-0"))
    by (vm_compute; reflexivity).
  split; [exact H|].
  exact (proj1 (findMatch_first_other_owner battleIds "c3" "p1" _ "" "" "" "" "") _ H).
Defined.

(** * Further properties of the code *)

(** ** What the operations inside a round leave alone *)

Lemma quiet_refl s : quiet s s.
Proof. split; [|split; [|split; [|split]]]; reflexivity. Qed.

Lemma quiet_trans s1 s2 s3 : quiet s1 s2 -> quiet s2 s3 -> quiet s1 s3.
Proof.
  intros (L1 & R1 & W1 & D1 & C1) (L2 & R2 & W2 & D2 & C2).
  split; [|split; [|split; [|split]]].
  - etransitivity; eassumption.
  - congruence.
  - congruence.
  - lia.
  - intros sd. rewrite C2. apply C1.
Qed.

Lemma quiet_pushLog t m s : quiet s (pushLog t m s).
Proof.
  split; [cbn; apply prefix_app_r; reflexivity|].
  repeat (split; [reflexivity|]). intros [|]; reflexivity.
Qed.

Lemma quiet_updC x f s :
  (forall c, core (f c) = core c) -> quiet s (updC x f s).
Proof.
  intros Hf. repeat (split; [destruct x; reflexivity|]).
  intros [|]; destruct x; cbn; auto.
Qed.

Lemma quiet_if (b : bool) s s1 s2 :
  quiet s s1 -> quiet s s2 -> quiet s (if b then s1 else s2).
Proof. destruct b; auto. Qed.

Ltac quiet_step :=
  lazymatch goal with
  | |- quiet ?s ?s => apply quiet_refl
  | |- quiet _ (pushLog _ _ _) => eapply quiet_trans; [| apply quiet_pushLog]
  | |- quiet _ (updC _ _ _) =>
      eapply quiet_trans; [| apply quiet_updC; intros ?; reflexivity]
  | |- quiet _ (if _ then _ else _) => apply quiet_if
  end.

(** Closes [quiet s s'] when [s'] is [s] with a larger draw counter. *)
Ltac quiet_base :=
  split; [reflexivity|]; split; [reflexivity|]; split; [reflexivity|];
  split; [cbn; lia|]; intros [|]; reflexivity.

Section Quiet.

Variable random : nat -> Q.
Variable abilities : list Ability.

Lemma quiet_performPhysicalAttack s a t n m g :
  quiet s (snd (performPhysicalAttack random s a t n m g)).
Proof.
  unfold performPhysicalAttack, randomInt, calculateCritical, Math_random.
  destruct g; cbv zeta; cbn [snd fst]; repeat quiet_step; quiet_base.
Qed.

Lemma quiet_performMagicAttack s a t n m :
  quiet s (snd (performMagicAttack random abilities s a t n m)).
Proof.
  unfold performMagicAttack, randomInt, calculateCritical, Math_random.
  cbv zeta; cbn [snd fst]; repeat quiet_step; quiet_base.
Qed.

Lemma quiet_performBasicAttack s a t :
  quiet s (performBasicAttack random abilities s a t).
Proof.
  unfold performBasicAttack. apply quiet_if.
  - apply quiet_performMagicAttack.
  - apply quiet_performPhysicalAttack.
Qed.

Lemma quiet_applyHeal s a t he : quiet s (snd (applyHeal s a t he)).
Proof. unfold applyHeal. cbv zeta. cbn [snd]. repeat quiet_step. Qed.

Lemma quiet_applyBuff s target t b : quiet s (applyBuff s target t b).
Proof.
  unfold applyBuff. destruct (findBuff _ _) as [[i ex]|]; cbv zeta; repeat quiet_step.
Qed.

Lemma quiet_applyPeriodicEffect s src target t e :
  quiet s (applyPeriodicEffect s src target t e).
Proof.
  unfold applyPeriodicEffect.
  destruct (findEffect _ _) as [[i ex]|]; cbv zeta; repeat quiet_step.
Qed.

Lemma quiet_multiAttackHit s a t ab k :
  quiet s (multiAttackHit random abilities s a t ab k).
Proof.
  unfold multiAttackHit.
  apply quiet_if; [apply quiet_performPhysicalAttack |].
  apply quiet_if; [apply quiet_performMagicAttack | apply quiet_performPhysicalAttack].
Qed.

Lemma quiet_multiAttackLoop n : forall i s a t ab d,
  quiet s (multiAttackLoop random abilities n i s a t ab d).
Proof.
  induction n as [|n IH]; intros i s a t ab d; cbn [multiAttackLoop].
  - apply quiet_refl.
  - apply quiet_if; [apply quiet_refl|].
    eapply quiet_trans; [apply quiet_multiAttackHit | apply IH].
Qed.

Lemma quiet_processMultiAttackAbility s a t ab ma :
  quiet s (processMultiAttackAbility random abilities s a t ab ma).
Proof.
  unfold processMultiAttackAbility.
  eapply quiet_trans; [| apply quiet_multiAttackLoop].
  eapply quiet_trans; [| apply quiet_multiAttackHit].
  apply quiet_pushLog.
Qed.

Lemma quiet_processBuffAbility s a t ab be :
  quiet s (processBuffAbility s a t ab be).
Proof.
  unfold processBuffAbility. cbv zeta.
  repeat (apply quiet_if);
    (eapply quiet_trans; [apply quiet_applyBuff | apply quiet_pushLog]).
Qed.

Lemma quiet_processHealAbility s a t ab he :
  quiet s (processHealAbility s a t ab he).
Proof.
  unfold processHealAbility.
  eapply quiet_trans; [apply quiet_pushLog | apply quiet_applyHeal].
Qed.

Lemma quiet_processDotAbility s a t ab de :
  quiet s (processDotAbility random abilities s a t ab de).
Proof.
  unfold processDotAbility. cbv zeta.
  eapply quiet_trans; [| apply quiet_applyPeriodicEffect].
  apply quiet_if; [apply quiet_performPhysicalAttack |].
  apply quiet_if; [apply quiet_performMagicAttack | apply quiet_refl].
Qed.

Lemma quiet_processPeriodicAbility s a t ab ps :
  quiet s (processPeriodicAbility s a t ab ps).
Proof.
  unfold processPeriodicAbility. cbv zeta.
  apply quiet_if.
  - apply quiet_if; repeat quiet_step; apply quiet_applyPeriodicEffect.
  - eapply quiet_trans; [apply quiet_applyPeriodicEffect | apply quiet_pushLog].
Qed.

Lemma quiet_processDamageAbility s a t ab :
  quiet s (processDamageAbility random abilities s a t ab).
Proof.
  unfold processDamageAbility.
  apply quiet_if; [apply quiet_performPhysicalAttack |].
  apply quiet_if; [| apply quiet_performBasicAttack].
  pose proof (quiet_performMagicAttack s a t (ab_name ab)
                (orElse (ab_damageMultiplier ab) (15 # 10))) as Hq.
  destruct (performMagicAttack _ _ _ _ _ _ _) as [res s1]. cbn [snd] in Hq.
  cbv zeta.
  match goal with
  | |- context [match ab_criticalEffect ab with Some _ => _ | None => ?S end] =>
      assert (Hs : quiet s S)
  end.
  { eapply quiet_trans; [exact Hq|].
    apply quiet_if; [|apply quiet_refl].
    apply quiet_if; [|apply quiet_refl].
    apply quiet_if; repeat quiet_step. }
  destruct (ab_criticalEffect ab) as [ce|]; [|exact Hs].
  apply quiet_if; [|exact Hs].
  eapply quiet_trans; [| apply quiet_pushLog].
  eapply quiet_trans; [exact Hs | apply quiet_applyPeriodicEffect].
Qed.

Lemma quiet_processAbility s a t ab :
  quiet s (processAbility random abilities s a t ab).
Proof.
  unfold processAbility.
  destruct (ab_buffEffect ab); [apply quiet_processBuffAbility|].
  destruct (ab_healEffect ab); [apply quiet_processHealAbility|].
  destruct (ab_dotEffect ab); [apply quiet_processDotAbility|].
  destruct (ab_periodicEffect ab); [apply quiet_processPeriodicAbility|].
  destruct (ab_guaranteedCrit ab); [apply quiet_performPhysicalAttack|].
  destruct (ab_multiAttack ab); [apply quiet_processMultiAttackAbility|].
  apply quiet_processDamageAbility.
Qed.

Lemma quiet_tickEffect s c t e : quiet s (tickEffect s c t e).
Proof. unfold tickEffect. cbv zeta. repeat quiet_step. Qed.

Lemma quiet_effectStep s c t i : quiet s (effectStep s c t i).
Proof.
  unfold effectStep. destruct (_ !! i) as [e|]; [|apply quiet_refl].
  cbv zeta. apply quiet_if.
  - repeat quiet_step; apply quiet_tickEffect.
  - apply quiet_if; [|apply quiet_refl]. repeat quiet_step. apply quiet_tickEffect.
Qed.

Lemma quiet_effectsLoop n : forall s c t, quiet s (effectsLoop n s c t).
Proof.
  induction n as [|n IH]; intros s c t; cbn [effectsLoop]; [apply quiet_refl|].
  eapply quiet_trans; [apply quiet_effectStep | apply IH].
Qed.

Lemma quiet_buffStep s c t i : quiet s (buffStep s c t i).
Proof.
  unfold buffStep. destruct (_ !! i) as [b|]; [|apply quiet_refl].
  apply quiet_if; [|apply quiet_refl]. cbv zeta. repeat quiet_step.
Qed.

Lemma quiet_buffsLoop n : forall s c t, quiet s (buffsLoop n s c t).
Proof.
  induction n as [|n IH]; intros s c t; cbn [buffsLoop]; [apply quiet_refl|].
  eapply quiet_trans; [apply quiet_buffStep | apply IH].
Qed.

Lemma quiet_processCharacterEffects s c t : quiet s (processCharacterEffects s c t).
Proof.
  unfold processCharacterEffects.
  eapply quiet_trans; [apply quiet_effectsLoop | apply quiet_buffsLoop].
Qed.

Lemma quiet_processEffects s t : quiet s (processEffects s t).
Proof.
  unfold processEffects.
  eapply quiet_trans; apply quiet_processCharacterEffects.
Qed.

End Quiet.

(** ** The rotation slot, cooldowns and the cost of an action *)

Section Rotation.

Variable random : nat -> Q.
Variable abilities : list Ability.

Lemma quiet_core s s' sd : quiet s s' -> core (getC s' sd) = core (getC s sd).
Proof. intros (_ & _ & _ & _ & H). apply H. Qed.

Lemma quiet_index s s' sd :
  quiet s s' -> nextAbilityIndex (getC s' sd) = nextAbilityIndex (getC s sd).
Proof. intros H. pose proof (quiet_core _ _ sd H) as E. unfold core in E. congruence. Qed.

Lemma quiet_cooldowns s s' sd :
  quiet s s' -> cooldowns (getC s' sd) = cooldowns (getC s sd).
Proof. intros H. pose proof (quiet_core _ _ sd H) as E. unfold core in E. congruence. Qed.

Lemma quiet_rotation s s' sd :
  quiet s s' -> rotation (getC s' sd) = rotation (getC s sd).
Proof. intros H. pose proof (quiet_core _ _ sd H) as E. unfold core in E. congruence. Qed.

Lemma quiet_calm s s' : quiet s s' -> calm s s'.
Proof. intros (L & R & W & D & _). repeat split; assumption. Qed.

Lemma calm_trans s1 s2 s3 : calm s1 s2 -> calm s2 s3 -> calm s1 s3.
Proof.
  intros (L1 & R1 & W1 & D1) (L2 & R2 & W2 & D2).
  split; [etransitivity; eassumption|]. split; [congruence|]. split; [congruence|lia].
Qed.

Lemma calm_updC x f s : calm s (updC x f s).
Proof. destruct x; repeat split; cbn; auto. Qed.

Lemma processAttack_unfold s a time :
  processAttack random abilities s a time
  = match usableAbility abilities (getC s a) time with
    | Some ability =>
        let s1 := if truthy (ab_manaCost ability)
                  then updC a (fun c => set_currentMana
                                 (nsub (currentMana c) (orElse (ab_manaCost ability) 0)) c) s
                  else s in
        let s2 := updC a (fun c => set_cooldowns
                            (<[ab_id ability := time + ab_cooldown ability]> (cooldowns c)) c)
                    s1 in
        let s3 := processAbility random abilities s2 a time ability in
        updC a (fun c => set_nextAbilityIndex
                  ((nextAbilityIndex c + 1) mod length (rotation c))%nat c) s3
    | None => performBasicAttack random abilities s a time
    end.
Proof. reflexivity. Qed.

Lemma usableAbility_slot c time ab :
  usableAbility abilities c time = Some ab ->
  rotation c !! nextAbilityIndex c = Some (ab_id ab) /\
  In ab abilities /\
  hasEnoughMana c ab = true /\
  orElse (cooldowns c !! ab_id ab) 0 <= time /\
  inheritedMember (cooldowns c) (ab_id ab) = false.
Proof.
  unfold usableAbility. intros H.
  destruct (rotation c !! nextAbilityIndex c) as [i|] eqn:Hr; [|discriminate].
  cbv zeta in H.
  destruct (inheritedMember (cooldowns c) i) eqn:Hi; [discriminate|].
  cbn [negb andb] in H. destruct (geq time _) eqn:Hg; [|discriminate].
  destruct (getAbility abilities i) as [ab'|] eqn:Ha; [|discriminate].
  destruct (hasEnoughMana c ab') eqn:Hm; [|discriminate].
  injection H as ->.
  unfold getAbility in Ha. apply find_some in Ha as [Hin Hid].
  apply String.eqb_eq in Hid. subst i.
  repeat split; try assumption. apply geq_iff, Hg.
Qed.

(** Mana is not touched by an attack. *)
Lemma performBasicAttack_mana s a t sd :
  currentMana (getC (performBasicAttack random abilities s a t) sd)
  = currentMana (getC s sd).
Proof.
  unfold performBasicAttack, performMagicAttack, performPhysicalAttack, randomInt,
    calculateCritical, Math_random.
  destruct (String.eqb _ _); cbv zeta; cbn [snd fst];
    destruct s as [c1 c2 lg rd w dr], a, sd;
    cbn [getC updC setC other character1 character2];
    match goal with |- context [if ?b then _ else _] => destruct b end; reflexivity.
Qed.

(** What a turn that uses an ability does to the core of both sides. *)
Lemma processAttack_uses s a time ab :
  usableAbility abilities (getC s a) time = Some ab ->
  let c := getC s a in
  let s' := processAttack random abilities s a time in
  nextAbilityIndex (getC s' a) = ((nextAbilityIndex c + 1) mod length (rotation c))%nat /\
  cooldowns (getC s' a) = <[ab_id ab := time + ab_cooldown ab]> (cooldowns c) /\
  rotation (getC s' a) = rotation c /\
  core (getC s' (other a)) = core (getC s (other a)).
Proof.
  intros Hu. cbv zeta. rewrite processAttack_unfold, Hu. cbv zeta.
  set (s1 := if truthy (ab_manaCost ab) then _ else s).
  set (s2 := updC a _ s1).
  pose proof (quiet_processAbility random abilities s2 a time ab) as Hq.
  set (s3 := processAbility random abilities s2 a time ab) in *.
  assert (H1 : core (getC s1 (other a)) = core (getC s (other a))
               /\ nextAbilityIndex (getC s1 a) = nextAbilityIndex (getC s a)
               /\ rotation (getC s1 a) = rotation (getC s a)
               /\ cooldowns (getC s1 a) = cooldowns (getC s a)).
  { unfold s1. destruct (truthy _); [|auto].
    rewrite getC_updC_other, getC_updC_same. auto. }
  destruct H1 as (O1 & I1 & R1 & C1).
  rewrite !getC_updC_same, getC_updC_other.
  cbn [nextAbilityIndex cooldowns rotation set_nextAbilityIndex].
  rewrite (quiet_index _ _ a Hq), (quiet_rotation _ _ a Hq), (quiet_cooldowns _ _ a Hq),
    (quiet_core _ _ (other a) Hq).
  unfold s2. rewrite getC_updC_same, getC_updC_other.
  cbn [nextAbilityIndex cooldowns rotation set_cooldowns].
  rewrite I1, R1, C1, O1. auto.
Qed.

Lemma processAttack_falls_back s a time :
  usableAbility abilities (getC s a) time = None ->
  processAttack random abilities s a time = performBasicAttack random abilities s a time.
Proof. intros Hu. rewrite processAttack_unfold, Hu. reflexivity. Qed.

Lemma slotOk_next (c : Character) (i : string) :
  rotation c !! nextAbilityIndex c = Some i ->
  ((nextAbilityIndex c + 1) mod length (rotation c) < length (rotation c))%nat.
Proof.
  intros H. apply lookup_lt_Some in H. apply Nat.mod_upper_bound. lia.
Qed.

Lemma processAttack_slotOk s a time sd :
  slotOk (getC s sd) -> slotOk (getC (processAttack random abilities s a time) sd).
Proof.
  intros Hs. destruct (usableAbility abilities (getC s a) time) as [ab|] eqn:Hu.
  - destruct (processAttack_uses s a time ab Hu) as (I & _ & R & O).
    destruct (usableAbility_slot _ _ _ Hu) as (Hl & _).
    destruct (decide (sd = a)) as [->|Hne].
    + left. rewrite I, R. eapply slotOk_next; eassumption.
    + assert (sd = other a) as ->
        by (destruct sd, a; try reflexivity; exfalso; apply Hne; reflexivity).
      unfold slotOk, core in *. injection O as E1 E2 E3 E4 E5 E6 E7 E8 E9.
      rewrite E9, E5. exact Hs.
  - rewrite (processAttack_falls_back s a time Hu).
    pose proof (quiet_core _ _ sd (quiet_performBasicAttack random abilities s a time)) as O.
    unfold slotOk, core in *. injection O as E1 E2 E3 E4 E5 E6 E7 E8 E9.
    rewrite E9, E5. exact Hs.
Qed.

Lemma slotOk_quiet s s' sd : quiet s s' -> slotOk (getC s sd) -> slotOk (getC s' sd).
Proof.
  intros Hq Hs. unfold slotOk.
  rewrite (quiet_index _ _ sd Hq), (quiet_rotation _ _ sd Hq). exact Hs.
Qed.

Lemma battleRound_slotOk sch sd :
  slotOk (getC (battleState sch) sd) ->
  slotOk (getC (battleState (battleRound random abilities sch)) sd).
Proof.
  intros Hs. unfold battleRound.
  destruct (leq _ _); cbn [battleState];
    match goal with
    | |- slotOk (getC (incr_rounds ?S) sd) =>
        change (getC (incr_rounds S) sd) with (getC S sd)
    end;
    (eapply slotOk_quiet; [apply quiet_processEffects|]);
    apply processAttack_slotOk, Hs.
Qed.

End Rotation.

Section RotationTheorems.

Variable random : nat -> Q.
Variable abilities : list Ability.

Lemma usableAbility_None_iff c time :
  usableAbility abilities c time = None <-> slotUnusable abilities c time.
Proof.
  unfold usableAbility, slotUnusable.
  destruct (rotation c !! nextAbilityIndex c) as [i|]; [|tauto].
  cbv zeta. split.
  - intros H. right. exists i. split; [reflexivity|].
    destruct (inheritedMember (cooldowns c) i) eqn:Hi; [left; reflexivity|].
    right. cbn [negb andb] in H.
    destruct (geq time _) eqn:Hg.
    + destruct (getAbility abilities i) as [ab|]; [|tauto].
      destruct (hasEnoughMana c ab) eqn:Hm; [discriminate|].
      right; right. eauto.
    + left. apply leq_false_iff in Hg. exact Hg.
  - intros [H|(j & [= <-] & [H|[H|[H|(ab & Ha & Hm)]]])]; [discriminate| | | |].
    + rewrite H. reflexivity.
    + apply leq_false_iff in H. unfold geq, leq in *. rewrite H, andb_false_r. reflexivity.
    + rewrite H. destruct (_ && _); reflexivity.
    + rewrite Ha, Hm. destruct (_ && _); reflexivity.
Qed.

Lemma iter_slot (len : nat) (k i : nat) :
  (i < len)%nat ->
  Nat.iter k (fun j => ((j + 1) mod len)%nat) i = ((i + k) mod len)%nat.
Proof.
  intros Hi. induction k as [|k IH].
  - cbn. rewrite Nat.add_0_r, Nat.mod_small; [reflexivity | exact Hi].
  - rewrite Nat.iter_succ, IH, Nat.Div0.add_mod_idemp_l. f_equal. lia.
Qed.

(** A turn that uses an ability takes the one in the current rotation
    slot - known to the catalogue, affordable, off cooldown, its id not
    an inherited member of the cooldowns object -, pays its mana cost,
    puts it on cooldown until time + cooldown, runs processAbility on
    the state so prepared, and moves the slot to the next one,
    cyclically: as many moves as the rotation is long bring the slot
    back.  The opponent's slot and cooldowns are not touched. *)
Theorem used_ability_advances_rotation (s : BattleState) (a : Side) (time : Q)
    (ab : Ability) :
  usableAbility abilities (getC s a) time = Some ab ->
  let c := getC s a in
  let s' := processAttack random abilities s a time in
  let len := length (rotation c) in
  let paid :=
    if truthy (ab_manaCost ab)
    then updC a (fun c => set_currentMana
                   (nsub (currentMana c) (orElse (ab_manaCost ab) 0)) c) s
    else s in
  let ready :=
    updC a (fun c => set_cooldowns
              (<[ab_id ab := time + ab_cooldown ab]> (cooldowns c)) c) paid in
  rotation c !! nextAbilityIndex c = Some (ab_id ab) /\
  In ab abilities /\
  (hasEnoughMana c ab = true /\
   orElse (cooldowns c !! ab_id ab) 0 <= time /\
   inheritedMember (cooldowns c) (ab_id ab) = false) /\
  s' = updC a (fun c => set_nextAbilityIndex
                 ((nextAbilityIndex c + 1) mod length (rotation c))%nat c)
         (processAbility random abilities ready a time ab) /\
  currentMana (getC ready a)
  = (if truthy (ab_manaCost ab)
     then nsub (currentMana c) (orElse (ab_manaCost ab) 0)
     else currentMana c) /\
  currentHealth (getC ready a) = currentHealth c /\
  (getC ready (other a) = getC s (other a) /\ log ready = log s) /\
  nextAbilityIndex (getC s' a) = ((nextAbilityIndex c + 1) mod len)%nat /\
  (nextAbilityIndex (getC s' a) < len)%nat /\
  Nat.iter len (fun j => ((j + 1) mod len)%nat) (nextAbilityIndex c) = nextAbilityIndex c /\
  cooldowns (getC s' a) !! ab_id ab = Some (time + ab_cooldown ab) /\
  (forall i, i <> ab_id ab -> cooldowns (getC s' a) !! i = cooldowns c !! i) /\
  rotation (getC s' a) = rotation c /\
  core (getC s' (other a)) = core (getC s (other a)).
Proof.
  intros Hu. cbv zeta.
  destruct (processAttack_uses random abilities s a time ab Hu) as (I & C & R & O).
  destruct (usableAbility_slot _ _ _ _ Hu) as (Hl & Hin & Hm & Hc & Hi).
  pose proof (lookup_lt_Some _ _ _ Hl) as Hlt.
  split; [exact Hl|]. split; [exact Hin|]. split; [auto|].
  split; [rewrite processAttack_unfold, Hu; reflexivity|].
  split.
  { rewrite getC_updC_same. cbn [currentMana set_cooldowns].
    destruct (truthy (ab_manaCost ab)); [|reflexivity].
    rewrite getC_updC_same. reflexivity. }
  split.
  { rewrite getC_updC_same. cbn [currentHealth set_cooldowns].
    destruct (truthy (ab_manaCost ab)); [|reflexivity].
    rewrite getC_updC_same. reflexivity. }
  split.
  { rewrite getC_updC_other.
    destruct (truthy (ab_manaCost ab)).
    - rewrite getC_updC_other. split; [reflexivity|]. destruct a; reflexivity.
    - split; [reflexivity|]. destruct a; reflexivity. }
  split; [exact I|].
  split; [rewrite I; eapply slotOk_next; eassumption|].
  split.
  { rewrite iter_slot by exact Hlt.
    rewrite <- (Nat.mul_1_l (length _)) at 1.
    rewrite Nat.Div0.mod_add. apply Nat.mod_small, Hlt. }
  split; [rewrite C; apply lookup_insert_eq|].
  split; [intros i Hi'; rewrite C; apply lookup_insert_ne; congruence|].
  split; [exact R | exact O].
Qed.

Lemma performBasicAttack_health s a t :
  (exists d, 1 <= d /\
     currentHealth (getC (performBasicAttack random abilities s a t) (other a))
     = nsub (currentHealth (getC s (other a))) d) /\
  currentHealth (getC (performBasicAttack random abilities s a t) a)
  = currentHealth (getC s a).
Proof.
  unfold performBasicAttack, performMagicAttack, performPhysicalAttack, randomInt,
    calculateCritical, Math_random.
  destruct (String.eqb _ _); cbv zeta; cbn [snd fst];
    destruct s as [c1 c2 lg rd w dr], a;
    cbn [getC updC setC other character1 character2];
    match goal with |- context [if ?b then _ else _] => destruct b end;
    cbn [getC pushLog character1 character2 currentHealth set_currentHealth];
    (split; [|reflexivity]);
    match goal with
    | |- context [applyDamageReduction ?x ?y] =>
        exists (applyDamageReduction x y);
        split; [apply applyDamageReduction_min | reflexivity]
    end.
Qed.

(** When the ability of the current rotation slot cannot be used - the
    rotation is empty, the id names an inherited member of the cooldowns
    object, the ability is on cooldown or unknown to the catalogue, or
    the mana does not suffice - the turn is a basic attack: the slot
    stays where it is, no cooldown and no mana changes on either side,
    the attacker's health is untouched and the defender loses at least
    1 health. *)
Theorem unusable_slot_basic_attack (s : BattleState) (a : Side) (time : Q) :
  slotUnusable abilities (getC s a) time ->
  let s' := processAttack random abilities s a time in
  s' = performBasicAttack random abilities s a time /\
  (forall sd, core (getC s' sd) = core (getC s sd) /\
              currentMana (getC s' sd) = currentMana (getC s sd)) /\
  currentHealth (getC s' a) = currentHealth (getC s a) /\
  (exists d, 1 <= d /\
     currentHealth (getC s' (other a)) = nsub (currentHealth (getC s (other a))) d) /\
  (forall h, currentHealth (getC s (other a)) = Finite h ->
     exists h', currentHealth (getC s' (other a)) = Finite h' /\ h' <= h - 1).
Proof.
  intros Hu. apply usableAbility_None_iff in Hu. cbv zeta.
  rewrite (processAttack_falls_back random abilities s a time Hu).
  split; [reflexivity|]. split.
  - intros sd. split; [|apply performBasicAttack_mana].
    apply quiet_core, quiet_performBasicAttack.
  - destruct (performBasicAttack_health s a time) as [(d & Hd & H1) H2].
    split; [exact H2|]. split; [exists d; split; assumption|].
    intros h Hh. rewrite H1, Hh. cbn. eexists. split; [reflexivity | lra].
Qed.

Lemma processAttack_rotation s a time sd :
  rotation (getC (processAttack random abilities s a time) sd) = rotation (getC s sd).
Proof.
  destruct (usableAbility abilities (getC s a) time) as [ab|] eqn:Hu.
  - destruct (processAttack_uses random abilities s a time ab Hu) as (_ & _ & R & O).
    unfold core in O. destruct sd, a; cbn [other] in O; first [exact R | congruence].
  - rewrite (processAttack_falls_back random abilities s a time Hu).
    apply quiet_rotation, quiet_performBasicAttack.
Qed.

Lemma battleRound_rotation sch sd :
  rotation (getC (battleState (battleRound random abilities sch)) sd)
  = rotation (getC (battleState sch) sd).
Proof.
  unfold battleRound.
  destruct (leq _ _); cbn [battleState];
    match goal with
    | |- rotation (getC (incr_rounds ?S) sd) = _ =>
        change (getC (incr_rounds S) sd) with (getC S sd)
    end;
    rewrite (quiet_rotation _ _ sd (quiet_processEffects _ _));
    apply processAttack_rotation.
Qed.

(** In every state that the battle loop reaches, the rotation slot of
    each combatant is inside its rotation (or the rotation is empty and
    the slot is 0), and the rotation is the persisted one. *)
Theorem rotation_slot_in_range (d1 d2 : CharacterData) (n : nat) (sd : Side) :
  let c := getC (battleState (Nat.iter n (battleRound random abilities)
                                (initialSchedule d1 d2))) sd in
  slotOk c /\ rotation c = cd_rotation (dataOf d1 d2 sd).
Proof.
  cbv zeta. induction n as [|n [IH1 IH2]].
  - destruct sd; cbn; (split; [|reflexivity]);
      unfold slotOk; cbn;
      match goal with |- context [length ?l] => destruct l end; cbn; auto; left; lia.
  - rewrite Nat.iter_succ. split; [apply battleRound_slotOk, IH1|].
    rewrite battleRound_rotation. exact IH2.
Qed.

End RotationTheorems.
Lemma used_ability_advances_rotation_witness :
  let s := battleState (initialSchedule drainer bob) in
  let ready :=
    updC First (fun c => set_cooldowns (<[ab_id drain := 0 + ab_cooldown drain]> (cooldowns c)) c)
      (updC First (fun c => set_currentMana (nsub (currentMana c) 30) c) s) in
  usableAbility [drain] (getC s First) 0 = Some drain /\
  processAttack halves [drain] s First 0
  = updC First (fun c => set_nextAbilityIndex
                  ((nextAbilityIndex c + 1) mod length (rotation c))%nat c)
      (processAbility halves [drain] ready First 0 drain) /\
  currentMana (getC ready First) = nsub (currentMana (getC s First)) 30 /\
  nextAbilityIndex (getC (processAttack halves [drain] s First 0) First)
  = ((nextAbilityIndex (getC s First) + 1) mod length (rotation (getC s First)))%nat /\
  cooldowns (getC (processAttack halves [drain] s First 0) First) !! ab_id drain
  = Some (0 + ab_cooldown drain).
Proof.
  cbv zeta.
  assert (H : usableAbility [drain] (getC (battleState (initialSchedule drainer bob)) First) 0
              = Some drain) by (vm_compute; reflexivity).
  split; [exact H|].
  destruct (used_ability_advances_rotation halves [drain] _ First 0 drain H)
    as (_ & _ & _ & E & M & _ & _ & I & _ & _ & C & _).
  split; [exact E|]. split; [exact M|]. split; [exact I | exact C].
Defined.

Lemma unusable_slot_basic_attack_witness :
  let s := battleState (initialSchedule alice bob) in
  slotUnusable [] (getC s First) 0 /\
  processAttack halves [] s First 0 = performBasicAttack halves [] s First 0 /\
  exists h', currentHealth (getC (processAttack halves [] s First 0) (other First))
             = Finite h' /\ h' <= 100 - 1.
Proof.
  cbv zeta.
  assert (H : slotUnusable [] (getC (battleState (initialSchedule alice bob)) First) 0)
    by (left; reflexivity).
  split; [exact H|].
  destruct (unusable_slot_basic_attack halves [] _ First 0 H) as (E & _ & _ & _ & D).
  split; [exact E | exact (D 100 eq_refl)].
Defined.

(** ** The round counter and the battle log *)

Section LogAndRounds.

Variable random : nat -> Q.
Variable abilities : list Ability.

Lemma calm_refl s : calm s s.
Proof. repeat split; auto. Qed.

Lemma calm_processAttack s a time : calm s (processAttack random abilities s a time).
Proof.
  rewrite processAttack_unfold.
  destruct (usableAbility abilities (getC s a) time) as [ab|].
  - cbv zeta. eapply calm_trans; [|apply calm_updC].
    eapply calm_trans; [|apply quiet_calm, quiet_processAbility].
    eapply calm_trans; [|apply calm_updC].
    destruct (truthy _); [apply calm_updC | apply calm_refl].
  - apply quiet_calm, quiet_performBasicAttack.
Qed.

Lemma battleRound_log sch :
  log (battleState sch) `prefix_of` log (battleState (battleRound random abilities sch)) /\
  rounds (battleState (battleRound random abilities sch)) = S (rounds (battleState sch)) /\
  winner (battleState (battleRound random abilities sch)) = winner (battleState sch).
Proof.
  unfold battleRound.
  destruct (leq _ _); cbn [battleState];
    match goal with
    | |- context [incr_rounds (processEffects (processAttack _ _ ?S ?A ?T) ?T)] =>
        pose proof (calm_trans _ _ _ (calm_processAttack S A T)
                      (quiet_calm _ _ (quiet_processEffects
                                         (processAttack random abilities S A T) T)))
          as (L & R & W & _)
    end; cbn [incr_rounds log rounds winner];
    (split; [exact L|]); (split; [rewrite R; reflexivity | exact W]).
Qed.

Lemma iter_battleRound_log n sch :
  log (battleState sch)
  `prefix_of` log (battleState (Nat.iter n (battleRound random abilities) sch)) /\
  rounds (battleState (Nat.iter n (battleRound random abilities) sch))
  = (rounds (battleState sch) + n)%nat /\
  winner (battleState (Nat.iter n (battleRound random abilities) sch))
  = winner (battleState sch).
Proof.
  induction n as [|n (L & R & W)].
  - cbn. repeat split; auto.
  - rewrite Nat.iter_succ.
    destruct (battleRound_log (Nat.iter n (battleRound random abilities) sch))
      as (L' & R' & W').
    split; [etransitivity; eassumption|]. split; [rewrite R', R; lia | congruence].
Qed.

Lemma determineWinner_log s t :
  exists o f1 f2,
    log (determineWinner s t) = log s ++ [o; f1; f2] /\
    isOutcome (entry_message o) /\
    isFinalStateOf (char_name (character1 s)) (entry_message f1) /\
    isFinalStateOf (char_name (character2 s)) (entry_message f2) /\
    rounds (determineWinner s t) = rounds s.
Proof.
  unfold determineWinner.
  destruct (nleq (currentHealth (character1 s)) 0);
    [|destruct (nleq (currentHealth (character2 s)) 0);
      [|cbv zeta; destruct (ngtq _ _); [|destruct (ngtq _ _)]]];
    do 3 eexists; (split; [cbn; rewrite <- !app_assoc; reflexivity|]);
    cbn; auto.
Qed.

Lemma log_format s m : res_log (formatBattleResult random s m) = log s.
Proof.
  unfold formatBattleResult.
  destruct m; cbv zeta;
    repeat match goal with
           | |- context [let '(_, _) := ?X in _] => destruct X
           end; reflexivity.
Qed.

Lemma rounds_format s m : res_rounds (formatBattleResult random s m) = rounds s.
Proof.
  unfold formatBattleResult.
  destruct m; cbv zeta;
    repeat match goal with
           | |- context [let '(_, _) := ?X in _] => destruct X
           end; reflexivity.
Qed.

(** The result of simulateBattle reports in [rounds] the number of
    rounds that the loop ran (at most the fuel), and its log is the three
    opening entries, then what the rounds logged, then exactly three
    closing entries: the outcome and the final state of each combatant.
    No entry is ever removed or rewritten. *)
Theorem result_rounds_and_log (fuel : nat) (d1 d2 : CharacterData) (m : bool)
    (r : BattleResult) :
  simulateBattle random abilities fuel d1 d2 m = Some r ->
  exists (n : nat) (middle : list LogEntry) (o f1 f2 : LogEntry),
    battleLoop random abilities fuel (initialSchedule d1 d2)
    = Some (Nat.iter n (battleRound random abilities) (initialSchedule d1 d2)) /\
    (n <= fuel)%nat /\
    res_rounds r = n /\
    res_log r
    = [createLogEntry 0 (MsgBattleStarted (cd_name d1) (cd_name d2));
       createLogEntry (1 # 10)
         (MsgInitialState (cd_name d1) (health (cd_stats d1)) (mana (cd_stats d1)));
       createLogEntry (2 # 10)
         (MsgInitialState (cd_name d2) (health (cd_stats d2)) (mana (cd_stats d2)))]
      ++ middle ++ [o; f1; f2] /\
    isOutcome (entry_message o) /\
    isFinalStateOf (cd_name d1) (entry_message f1) /\
    isFinalStateOf (cd_name d2) (entry_message f2).
Proof.
  unfold simulateBattle. intros H.
  destruct (battleLoop random abilities fuel (initialSchedule d1 d2)) as [sch|] eqn:Hl;
    [|discriminate].
  injection H as <-.
  assert (Hn : exists n, sch = Nat.iter n (battleRound random abilities)
                                 (initialSchedule d1 d2) /\ (n <= fuel)%nat).
  { revert Hl. generalize (initialSchedule d1 d2). revert sch.
    induction fuel as [|f IH]; intros sch s0 H; cbn [battleLoop] in H;
      destruct (battleContinues s0); try discriminate.
    - injection H as <-. exists 0%nat. split; [reflexivity|lia].
    - destruct (IH _ _ H) as (n & -> & Hle). exists (S n).
      split; [symmetry; apply Nat.iter_succ_r | lia].
    - injection H as <-. exists 0%nat. split; [reflexivity|lia]. }
  destruct Hn as (n & -> & Hle).
  destruct (iter_battleRound_log n (initialSchedule d1 d2)) as ([middle Hmid] & R & _).
  pose proof (Inv_iter_battleRound random abilities _ d1 d2
                (catalogueOk_lowerFactor abilities d1 d2) n _
                (Inv_initial _ d1 d2)) as Hi.
  set (sch := Nat.iter n (battleRound random abilities) (initialSchedule d1 d2)) in *.
  destruct (determineWinner_log (battleState sch) (battleTime sch))
    as (o & f1 & f2 & Hlog & Ho & F1 & F2 & Hr).
  exists n, middle, o, f1, f2.
  split; [reflexivity|]. split; [exact Hle|].
  split; [rewrite rounds_format, Hr, R; reflexivity|].
  split; [rewrite log_format, Hlog, Hmid, <- app_assoc; reflexivity|].
  split; [exact Ho|].
  pose proof (inv_name _ _ _ (Hi First)) as N1.
  pose proof (inv_name _ _ _ (Hi Second)) as N2.
  cbn [getC dataOf] in N1, N2. rewrite N1 in F1. rewrite N2 in F2.
  split; assumption.
Qed.

End LogAndRounds.

Lemma result_rounds_and_log_witness :
  match simulateBattle halves [] 3 slow1 slow2 false with
  | Some r =>
      exists (n : nat) (middle : list LogEntry) (o f1 f2 : LogEntry),
        battleLoop halves [] 3 (initialSchedule slow1 slow2)
        = Some (Nat.iter n (battleRound halves []) (initialSchedule slow1 slow2)) /\
        (n <= 3)%nat /\
        res_rounds r = n /\
        res_log r
        = [createLogEntry 0 (MsgBattleStarted (cd_name slow1) (cd_name slow2));
           createLogEntry (1 # 10)
             (MsgInitialState (cd_name slow1) (health (cd_stats slow1))
                (mana (cd_stats slow1)));
           createLogEntry (2 # 10)
             (MsgInitialState (cd_name slow2) (health (cd_stats slow2))
                (mana (cd_stats slow2)))]
          ++ middle ++ [o; f1; f2] /\
        isOutcome (entry_message o) /\
        isFinalStateOf (cd_name slow1) (entry_message f1) /\
        isFinalStateOf (cd_name slow2) (entry_message f2)
  | None => False
  end.
Proof.
  destruct (simulateBattle halves [] 3 slow1 slow2 false) as [r|] eqn:E.
  - exact (result_rounds_and_log halves [] 3 slow1 slow2 false r E).
  - vm_compute in E. discriminate E.
Defined.

(** ** Expiry of buffs and effects on both combatants *)

Lemma keepBuffs_app t l k : keepBuffs t (l ++ k) = keepBuffs t l ++ keepBuffs t k.
Proof. apply List.filter_app. Qed.

Lemma buffStep_buffs s c t i b :
  buffs (getC s c) !! i = Some b ->
  buffs (getC (buffStep s c t i) c)
  = take i (buffs (getC s c)) ++ keepBuffs t [b] ++ drop (S i) (buffs (getC s c)).
Proof.
  intros Hl. unfold buffStep. rewrite Hl.
  unfold keepBuffs. cbn [List.filter]. unfold ltq, geq.
  destruct (Qle_bool (buff_endTime b) t); cbn [negb].
  - destruct s as [c1 c2 lg rd w dr], c; cbn; apply delete_take_drop.
  - cbn [app]. symmetry. apply take_drop_middle, Hl.
Qed.

Lemma buffsLoop_buffs n : forall s c t,
  (n <= length (buffs (getC s c)))%nat ->
  buffs (getC (buffsLoop n s c t) c)
  = keepBuffs t (take n (buffs (getC s c))) ++ drop n (buffs (getC s c)).
Proof.
  induction n as [|n IH]; intros s c t Hn; cbn [buffsLoop].
  - rewrite take_0, drop_0. reflexivity.
  - destruct (lookup_lt_is_Some_2 (buffs (getC s c)) n ltac:(lia)) as [b Hb].
    pose proof (buffStep_buffs s c t n b Hb) as Hs.
    assert (Hlen : length (take n (buffs (getC s c))) = n)
      by (rewrite length_take; lia).
    rewrite IH; rewrite Hs.
    + rewrite take_app_length' by (symmetry; exact Hlen).
      rewrite drop_app_length' by (symmetry; exact Hlen).
      rewrite (take_S_r _ _ _ Hb), keepBuffs_app, <- app_assoc. reflexivity.
    + rewrite length_app, Hlen. lia.
Qed.

Lemma buffStep_other s c t i :
  buffs (getC (buffStep s c t i) (other c)) = buffs (getC s (other c)) /\
  periodicEffects (getC (buffStep s c t i) (other c))
  = periodicEffects (getC s (other c)).
Proof.
  unfold buffStep. destruct (_ !! i) as [b|]; [|auto].
  destruct (geq _ _); [|auto]. destruct s as [c1 c2 lg rd w dr], c; cbn; auto.
Qed.

Lemma buffsLoop_other n : forall s c t,
  buffs (getC (buffsLoop n s c t) (other c)) = buffs (getC s (other c)) /\
  periodicEffects (getC (buffsLoop n s c t) (other c))
  = periodicEffects (getC s (other c)).
Proof.
  induction n as [|n IH]; intros s c t; cbn [buffsLoop]; [auto|].
  destruct (IH (buffStep s c t n) c t) as [-> ->]. apply buffStep_other.
Qed.

Lemma buffs_updC x f s sd :
  (forall ch, buffs (f ch) = buffs ch) ->
  buffs (getC (updC x f s) sd) = buffs (getC s sd).
Proof. intros Hf. destruct x, sd; cbn; auto. Qed.

Lemma buffs_pushLog t m s sd : buffs (getC (pushLog t m s) sd) = buffs (getC s sd).
Proof. destruct sd; reflexivity. Qed.

Lemma effects_pushLog t m s sd :
  periodicEffects (getC (pushLog t m s) sd) = periodicEffects (getC s sd).
Proof. destruct sd; reflexivity. Qed.

Lemma effectStep_buffs s c t i sd :
  buffs (getC (effectStep s c t i) sd) = buffs (getC s sd).
Proof.
  unfold effectStep. destruct (_ !! i) as [e|]; [|reflexivity]. cbv zeta.
  pose proof (frame_buffs _ _ sd (frame_tickEffect s c t e)) as Hf.
  destruct (effectDue t e), (geq t (pe_endTime e));
    rewrite ?buffs_pushLog, ?buffs_updC by (intros; reflexivity);
    first [exact Hf | reflexivity].
Qed.

Lemma effectStep_other s c t i :
  periodicEffects (getC (effectStep s c t i) (other c))
  = periodicEffects (getC s (other c)).
Proof.
  unfold effectStep. destruct (_ !! i) as [e|]; [|reflexivity]. cbv zeta.
  pose proof (frame_effects _ _ (other c) (frame_tickEffect s c t e)) as Hf.
  destruct (effectDue t e), (geq t (pe_endTime e));
    rewrite ?effects_pushLog, ?getC_updC_other;
    first [exact Hf | reflexivity].
Qed.

Lemma effectsLoop_buffs n : forall s c t sd,
  buffs (getC (effectsLoop n s c t) sd) = buffs (getC s sd).
Proof.
  induction n as [|n IH]; intros s c t sd; cbn [effectsLoop]; [reflexivity|].
  rewrite IH. apply effectStep_buffs.
Qed.

Lemma effectsLoop_other n : forall s c t,
  periodicEffects (getC (effectsLoop n s c t) (other c))
  = periodicEffects (getC s (other c)).
Proof.
  induction n as [|n IH]; intros s c t; cbn [effectsLoop]; [reflexivity|].
  rewrite IH. apply effectStep_other.
Qed.

Lemma processCharacterEffects_lists s c t :
  periodicEffects (getC (processCharacterEffects s c t) c)
  = stepEffects t (periodicEffects (getC s c)) /\
  buffs (getC (processCharacterEffects s c t) c) = keepBuffs t (buffs (getC s c)) /\
  periodicEffects (getC (processCharacterEffects s c t) (other c))
  = periodicEffects (getC s (other c)) /\
  buffs (getC (processCharacterEffects s c t) (other c)) = buffs (getC s (other c)).
Proof.
  split; [apply processCharacterEffects_effects|].
  unfold processCharacterEffects. cbv zeta.
  set (s1 := effectsLoop _ s c t).
  split; [|split].
  - rewrite buffsLoop_buffs by lia.
    rewrite firstn_all, drop_all, app_nil_r. unfold s1.
    rewrite effectsLoop_buffs. reflexivity.
  - destruct (buffsLoop_other (length (buffs (getC s1 c))) s1 c t) as [_ ->].
    apply effectsLoop_other.
  - destruct (buffsLoop_other (length (buffs (getC s1 c))) s1 c t) as [-> _].
    apply effectsLoop_buffs.
Qed.

(** After processEffects at [time], on both combatants: the buffs are
    the former ones with endTime > time, in the same order and
    unchanged; the periodic effects are the former ones with endTime >
    time, those that were due having lastProcTime = time; so no buff and
    no effect with endTime <= time is left. *)
Theorem processEffects_drops_expired (s : BattleState) (time : Q) (sd : Side) :
  let s' := processEffects s time in
  buffs (getC s' sd) = keepBuffs time (buffs (getC s sd)) /\
  periodicEffects (getC s' sd) = stepEffects time (periodicEffects (getC s sd)) /\
  Forall (fun b => time < buff_endTime b) (buffs (getC s' sd)) /\
  Forall (fun e => time < pe_endTime e) (periodicEffects (getC s' sd)) /\
  (forall b, b ∈ buffs (getC s' sd) <-> b ∈ buffs (getC s sd) /\ time < buff_endTime b) /\
  (length (periodicEffects (getC s' sd)) <= length (periodicEffects (getC s sd)))%nat.
Proof.
  cbv zeta.
  assert (E : buffs (getC (processEffects s time) sd) = keepBuffs time (buffs (getC s sd)) /\
              periodicEffects (getC (processEffects s time) sd)
              = stepEffects time (periodicEffects (getC s sd))).
  { unfold processEffects. cbv zeta.
    destruct (processCharacterEffects_lists s First time) as (A1 & A2 & A3 & A4).
    destruct (processCharacterEffects_lists (processCharacterEffects s First time)
                Second time) as (B1 & B2 & B3 & B4).
    cbn [other] in *. destruct sd; cbn [getC] in *.
    - rewrite B4, B3, A2, A1. auto.
    - rewrite B2, B1, A4, A3. auto. }
  destruct E as [Eb Ee]. rewrite Eb, Ee.
  split; [reflexivity|]. split; [reflexivity|]. split; [|split; [|split]].
  - apply Forall_forall. intros b Hb. apply list_elem_of_In, filter_In in Hb as [_ Hb].
    apply ltq_iff, Hb.
  - apply Forall_forall. intros e He. unfold stepEffects in He.
    apply list_elem_of_In, filter_In in He as [_ He]. apply ltq_iff, He.
  - intros b. unfold keepBuffs. rewrite list_elem_of_In, filter_In, <- list_elem_of_In, ltq_iff.
    reflexivity.
  - unfold stepEffects.
    etransitivity; [apply List.filter_length_le|]. rewrite List.length_map. reflexivity.
Qed.

(** ** Random rolls *)

Lemma Qfloor_nonneg (x : Q) : 0 <= x -> (0 <= Qfloor x)%Z.
Proof. intros H. apply (Qfloor_resp_le 0 x) in H. exact H. Qed.

Lemma Qfloor_lt_Z (x : Q) (n : Z) : x < inject_Z n -> (Qfloor x < n)%Z.
Proof.
  intros H. pose proof (Qfloor_le x) as F.
  rewrite Zlt_Qlt. lra.
Qed.

Lemma randomInt_range_core (random : nat -> Q) (min max : Q) (s : BattleState) :
  0 <= random (draws s) -> random (draws s) < 1 -> min <= max ->
  (forall n : Z, max - min == inject_Z n ->
     min <= fst (randomInt random min max s) /\ fst (randomInt random min max s) <= max).
Proof.
  intros H0 H1 Hm n Hn. unfold randomInt, Math_random, Math_floor. cbn [fst].
  set (r := random (draws s)) in *. set (x := r * (max - min + 1)).
  assert (Hx0 : 0 <= x) by (unfold x; nra).
  assert (Hx1 : x < max - min + 1) by (unfold x; nra).
  pose proof (Qfloor_nonneg x Hx0) as F0.
  assert (F0' : 0 <= inject_Z (Qfloor x)) by (rewrite <- (Zle_Qle 0); exact F0).
  assert (Hlt : (Qfloor x < n + 1)%Z).
  { apply Qfloor_lt_Z. rewrite inject_Z_plus. change (inject_Z 1) with 1. lra. }
  assert (Hle : inject_Z (Qfloor x) <= inject_Z n) by (rewrite <- Zle_Qle; lia).
  split; lra.
Qed.

(** With a draw in [0, 1) and min <= max, randomInt returns min plus a
    non-negative whole number and stays below max + 1; when max - min is
    a whole number the result is at most max.  One draw is consumed. *)
Theorem randomInt_range (random : nat -> Q) (min max : Q) (s : BattleState) :
  0 <= random (draws s) -> random (draws s) < 1 -> min <= max ->
  let v := fst (randomInt random min max s) in
  min <= v /\ v < max + 1 /\
  (exists k : Z, (0 <= k)%Z /\ v = inject_Z k + min) /\
  (forall n : Z, max - min == inject_Z n -> v <= max) /\
  draws (snd (randomInt random min max s)) = S (draws s).
Proof.
  intros H0 H1 Hm. cbv zeta. unfold randomInt, Math_random, Math_floor. cbn [fst snd draws].
  set (r := random (draws s)) in *. set (x := r * (max - min + 1)).
  assert (Hx0 : 0 <= x) by (unfold x; nra).
  assert (Hx1 : x < max - min + 1) by (unfold x; nra).
  pose proof (Qfloor_nonneg x Hx0) as F0. pose proof (Qfloor_le x) as F1.
  assert (F0' : 0 <= inject_Z (Qfloor x)) by (rewrite <- (Zle_Qle 0); exact F0).
  split; [lra|]. split; [lra|]. split; [exists (Qfloor x); auto|]. split; [|reflexivity].
  intros n Hn.
  assert (Hlt : (Qfloor x < n + 1)%Z).
  { apply Qfloor_lt_Z. rewrite inject_Z_plus. change (inject_Z 1) with 1. lra. }
  assert (Hle : inject_Z (Qfloor x) <= inject_Z n) by (rewrite <- Zle_Qle; lia).
  lra.
Qed.

Lemma randomInt_range_witness :
  let s := battleState (initialSchedule alice bob) in
  0 <= halves (draws s) /\ halves (draws s) < 1 /\ 20 <= 30 /\
  20 <= fst (randomInt halves 20 30 s) /\
  (forall n : Z, 30 - 20 == inject_Z n -> fst (randomInt halves 20 30 s) <= 30).
Proof.
  cbv zeta.
  assert (H0 : 0 <= halves (draws (battleState (initialSchedule alice bob))))
    by (apply leq_iff; vm_compute; reflexivity).
  assert (H1 : halves (draws (battleState (initialSchedule alice bob))) < 1)
    by (apply ltq_iff; vm_compute; reflexivity).
  assert (H2 : 20 <= 30) by (apply leq_iff; vm_compute; reflexivity).
  destruct (randomInt_range halves 20 30 _ H0 H1 H2) as (A & _ & _ & B & _).
  split; [exact H0|]. split; [exact H1|]. split; [exact H2|]. split; [exact A | exact B].
Defined.

(** When max - min is not a whole number - as for the magic damage of a
    character with an odd wisdom, whose maxMagicDamage ends in .5 - some
    draw in [0, 1) makes randomInt return more than max. *)
Theorem randomInt_overshoots_fractional_range (min max : Q) (s : BattleState) :
  min <= max -> (forall n : Z, ~ max - min == inject_Z n) ->
  exists random : nat -> Q,
    0 <= random (draws s) /\ random (draws s) < 1 /\
    max < fst (randomInt random min max s).
Proof.
  intros Hm Hfrac.
  set (d := max - min).
  set (c := (Qfloor d + 1)%Z).
  assert (Hd0 : 0 <= d) by (unfold d; lra).
  pose proof (Qfloor_le d) as F1. pose proof (Qlt_floor d) as F2. fold c in F2.
  assert (Hc : inject_Z c <= d + 1).
  { unfold c. rewrite inject_Z_plus. change (inject_Z 1) with 1. lra. }
  assert (Hc' : inject_Z c < d + 1).
  { destruct (Qlt_le_dec (inject_Z c) (d + 1)) as [H|H]; [exact H|].
    exfalso. apply (Hfrac (Qfloor d)). fold d.
    unfold c in H, Hc. rewrite inject_Z_plus in H, Hc. change (inject_Z 1) with 1 in H, Hc.
    lra. }
  assert (Hcpos : 0 < inject_Z c).
  { pose proof (Qfloor_nonneg d Hd0) as G. rewrite (Zle_Qle 0) in G.
    unfold c. rewrite inject_Z_plus. change (inject_Z 1) with 1. change (inject_Z 0) with 0 in G.
    lra. }
  exists (fun _ => inject_Z c / (d + 1)).
  assert (Hpos : 0 < d + 1) by lra.
  split; [apply Qle_shift_div_l; [exact Hpos | lra]|].
  split; [apply Qlt_shift_div_r; [exact Hpos | lra]|].
  unfold randomInt, Math_random, Math_floor. cbn [fst].
  fold d.
  assert (E : inject_Z c / (d + 1) * (d + 1) == inject_Z c) by (field; lra).
  rewrite (Qfloor_comp _ _ E), Qfloor_Z. unfold d in F2.
  lra.
Qed.

Lemma randomInt_overshoots_fractional_range_witness :
  let s := battleState (initialSchedule alice bob) in
  2 <= 7 # 2 /\
  exists random : nat -> Q,
    0 <= random (draws s) /\ random (draws s) < 1 /\
    (7 # 2) < fst (randomInt random 2 (7 # 2) s).
Proof.
  cbv zeta.
  assert (H1 : 2 <= 7 # 2) by (apply leq_iff; vm_compute; reflexivity).
  split; [exact H1|].
  apply (randomInt_overshoots_fractional_range 2 (7 # 2) _ H1).
  intros n Hn. unfold Qeq in Hn. cbn in Hn. lia.
Defined.

(** ** Critical hits and battle experience *)

(** With draws in [0, 1): a physical attack with guaranteedCrit, or by
    an attacker whose criticalChance is at least 100, is critical; one by
    an attacker with a negative criticalChance is not.  The same holds
    for a magic attack and spellCritChance when the attack's name is not
    the name of an ability of the catalogue (no baseCritBonus). *)
Theorem critical_hit_thresholds (random : nat -> Q) (abilities : list Ability)
    (s : BattleState) (a : Side) (t : Q) (n : string) (m : Q) :
  unitDraws random ->
  getAbilityByName abilities n = None ->
  let attacker := getC s a in
  isCritical (fst (performPhysicalAttack random s a t n m true)) = true /\
  (100 <= criticalChance (stats attacker) ->
   isCritical (fst (performPhysicalAttack random s a t n m false)) = true) /\
  (criticalChance (stats attacker) < 0 ->
   isCritical (fst (performPhysicalAttack random s a t n m false)) = false) /\
  (100 <= spellCritChance (stats attacker) ->
   isCritical (fst (performMagicAttack random abilities s a t n m)) = true) /\
  (spellCritChance (stats attacker) < 0 ->
   isCritical (fst (performMagicAttack random abilities s a t n m)) = false).
Proof.
  intros Hr Hn. cbv zeta.
  unfold performPhysicalAttack, performMagicAttack, randomInt, calculateCritical, Math_random.
  rewrite Hn. cbn [fst snd isCritical draws].
  destruct (Hr (S (draws s))) as [R0 R1].
  set (r := random (S (draws s))) in *.
  split; [reflexivity|].
  split; [intros H; apply leq_iff; lra|].
  split; [intros H; apply leq_false_iff; lra|].
  split; [intros H; apply leq_iff; lra | intros H; apply leq_false_iff; lra].
Qed.

Lemma unitDraws_halves : unitDraws halves.
Proof. intros n. split; [apply leq_iff | apply ltq_iff]; vm_compute; reflexivity. Qed.

Lemma critical_hit_thresholds_witness :
  let s := battleState (initialSchedule alice bob) in
  unitDraws halves /\
  getAbilityByName [] "Basic Attack" = None /\
  isCritical (fst (performPhysicalAttack halves s First 0 "Basic Attack" 1 true)) = true.
Proof.
  cbv zeta. split; [exact unitDraws_halves|]. split; [reflexivity|].
  exact (proj1 (critical_hit_thresholds halves [] _ First 0 "Basic Attack" 1
                  unitDraws_halves eq_refl)).
Defined.

Lemma Qfloor_unique (x : Q) (z : Z) :
  inject_Z z <= x -> x < inject_Z (z + 1) -> Qfloor x = z.
Proof.
  intros H1 H2. apply Z.le_antisymm.
  - pose proof (Qfloor_lt_Z x (z + 1) H2). lia.
  - rewrite <- (Qfloor_Z z). apply Qfloor_resp_le, H1.
Qed.

Lemma Math_round_Z (z : Z) : Math_round (inject_Z z) == inject_Z z.
Proof.
  unfold Math_round. rewrite (Qfloor_unique _ z); [reflexivity | |].
  - generalize (inject_Z z). intros q. lra.
  - rewrite inject_Z_plus. change (inject_Z 1) with 1.
    generalize (inject_Z z). intros q. lra.
Qed.

(** A direct (not matchmade) battle awards no experience and consumes no
    draw.  In a matchmade battle, with draws in [0, 1) and a level of at
    least 1, the winner's experience lies between round(20 m) and
    round(30 m) and the loser's between round(5 m) and round(10 m), where
    m = 1 + (level - 1) / 10; at one level every loser's award is below
    every winner's. *)
Theorem battle_experience_bounds (random : nat -> Q) (characterLevel : Q)
    (s s' : BattleState) (isWinner : bool) :
  unitDraws random -> 1 <= characterLevel ->
  let m := levelMultiplier characterLevel in
  let win := fst (calculateBattleExperience random true characterLevel true s) in
  let lose := fst (calculateBattleExperience random false characterLevel true s') in
  calculateBattleExperience random isWinner characterLevel false s = (0, s) /\
  (Math_round (20 * m) <= win /\ win <= Math_round (30 * m)) /\
  (Math_round (5 * m) <= lose /\ lose <= Math_round (10 * m)) /\
  5 <= lose /\ lose < win /\
  res_characterExp (formatBattleResult random s false) = 0 /\
  res_opponentExp (formatBattleResult random s false) = 0.
Proof.
  intros Hr Hl. cbv zeta.
  assert (Hm : 1 <= levelMultiplier characterLevel) by (unfold levelMultiplier; lra).
  split; [reflexivity|].
  unfold calculateBattleExperience. cbn [negb].
  fold (levelMultiplier characterLevel). set (m := levelMultiplier characterLevel) in *.
  destruct (Hr (draws s)) as [A0 A1]. destruct (Hr (draws s')) as [B0 B1].
  assert (H23 : 20 <= 30) by (apply leq_iff; reflexivity).
  assert (H51 : 5 <= 10) by (apply leq_iff; reflexivity).
  destruct (randomInt_range_core random 20 30 s A0 A1 H23 10 ltac:(reflexivity))
    as (W1 & W2).
  destruct (randomInt_range_core random 5 10 s' B0 B1 H51 5 ltac:(reflexivity))
    as (L1 & L2).
  destruct (randomInt random 20 30 s) as [w sw].
  destruct (randomInt random 5 10 s') as [l sl]. cbn [fst] in *.
  assert (W : Math_round (20 * m) <= Math_round (w * m) /\
              Math_round (w * m) <= Math_round (30 * m))
    by (split; apply Math_round_mono; nra).
  assert (L : Math_round (5 * m) <= Math_round (l * m) /\
              Math_round (l * m) <= Math_round (10 * m))
    by (split; apply Math_round_mono; nra).
  split; [exact W|]. split; [exact L|].
  pose proof (Math_round_mono 5 (5 * m) ltac:(nra)) as M5.
  pose proof (Math_round_Z 5) as E5. change (inject_Z 5) with 5 in E5.
  split; [lra|]. split.
  - pose proof (Math_round_lower (20 * m)). pose proof (Math_round_upper (10 * m)). nra.
  - unfold formatBattleResult. cbn. split; reflexivity.
Qed.

Lemma battle_experience_bounds_witness :
  let s := battleState (initialSchedule alice bob) in
  unitDraws halves /\ 1 <= 3 /\
  fst (calculateBattleExperience halves false 3 true s)
  < fst (calculateBattleExperience halves true 3 true s).
Proof.
  cbv zeta. split; [exact unitDraws_halves|].
  assert (H : 1 <= 3) by (apply leq_iff; vm_compute; reflexivity).
  split; [exact H|].
  destruct (battle_experience_bounds halves 3 (battleState (initialSchedule alice bob))
              (battleState (initialSchedule alice bob)) true unitDraws_halves H)
    as (_ & _ & _ & _ & Hlt & _).
  exact Hlt.
Defined.

(** ** Derived statistics *)

Lemma Qmax_cases (x y : Q) : (Qmax x y == x /\ y <= x) \/ (Qmax x y == y /\ x <= y).
Proof.
  destruct (Qlt_le_dec x y) as [H|H].
  - right. split; [apply Q.max_r; lra | lra].
  - left. split; [apply Q.max_l; exact H | exact H].
Qed.


Lemma validateAttributes_true (attributes : Attributes) (totalPoints : Q) :
  validateAttributes attributes totalPoints = true ->
  1 <= strength attributes /\ 1 <= agility attributes /\ 1 <= stamina attributes /\
  1 <= intellect attributes /\ 1 <= wisdom attributes /\
  attributeTotal attributes == totalPoints.
Proof.
  unfold validateAttributes. rewrite !andb_true_iff, !geq_iff, Qeq_bool_iff. tauto.
Qed.

(** Attributes that validateAttributes accepts for a total are each
    between 1 and the total minus 4, give the level that the total alone
    determines, and the statistics derived from them have an attack speed
    between 2 and 9.5 seconds, damage ranges with minimum <= maximum,
    at least 110 health and at least 60 mana. *)
Theorem validated_attributes_stats (attributes : Attributes) (totalPoints : Q) :
  validateAttributes attributes totalPoints = true ->
  let st := calculateStats attributes in
  Forall (fun v => 1 <= v <= totalPoints - 4)
    [strength attributes; agility attributes; stamina attributes;
     intellect attributes; wisdom attributes] /\
  calculateLevel attributes == 1 + Math_floor ((totalPoints - 15) / 5) /\
  2 <= attackSpeed st <= 95 # 10 /\
  minPhysicalDamage st <= maxPhysicalDamage st /\
  minMagicDamage st <= maxMagicDamage st /\
  110 <= health st /\ 60 <= mana st.
Proof.
  intros H. apply validateAttributes_true in H as (S & A & T & I & W & E).
  cbv zeta. unfold attributeTotal in E.
  split; [repeat constructor; lra|].
  split.
  { unfold calculateLevel, Math_floor, attributeTotal.
    rewrite (Qfloor_comp _ ((totalPoints - 15) / 5)); [reflexivity|].
    rewrite E. reflexivity. }
  unfold calculateStats. cbn.
  destruct (Qmax_cases 2 (10 - agility attributes * (5 # 10))) as [[M L]|[M L]];
    unfold Math_max; rewrite M; repeat split; lra.
Qed.

Lemma validated_attributes_stats_witness :
  validateAttributes startingAttributes 15 = true /\
  2 <= attackSpeed (calculateStats startingAttributes) <= 95 # 10 /\
  calculateLevel startingAttributes == 1 + Math_floor ((15 - 15) / 5).
Proof.
  assert (H : validateAttributes startingAttributes 15 = true) by reflexivity.
  split; [exact H|].
  destruct (validated_attributes_stats startingAttributes 15 H) as (_ & L & A & _).
  split; [exact A | exact L].
Defined.

(** ** Battles between characters with derived statistics *)



(** ** Levels and experience *)

Lemma growth_ge_1 (level : Z) : (1 <= level)%Z -> 1 <= (12 # 10) ^ (level - 1).
Proof. intros H. apply Qpower_1_le; [lra | lia]. Qed.

Lemma growth_succ (level : Z) :
  (12 # 10) ^ (level + 1 - 1) == (12 # 10) ^ (level - 1) * (12 # 10).
Proof.
  replace (level + 1 - 1)%Z with ((level - 1) + 1)%Z by lia.
  rewrite Qpower_plus by (intros H; discriminate H).
  rewrite Qpower_1_r. reflexivity.
Qed.

Lemma Math_round_100 : Math_round 100 == 100.
Proof. apply (Math_round_Z 100). Qed.

Lemma exp_curve (level : Z) :
  (1 <= level)%Z ->
  100 <= calculateExpForNextLevel level /\
  calculateExpForNextLevel level < calculateExpForNextLevel (level + 1).
Proof.
  intros H. unfold calculateExpForNextLevel. cbv zeta.
  pose proof (growth_ge_1 level H) as G.
  pose proof (growth_succ level) as E.
  set (p := (12 # 10) ^ (level - 1)) in *.
  set (p' := (12 # 10) ^ (level + 1 - 1)) in *.
  split.
  - pose proof Math_round_100 as R.
    assert (M : Math_round 100 <= Math_round (100 * p)) by (apply Math_round_mono; lra).
    revert R M. generalize (Math_round 100) (Math_round (100 * p)). intros; lra.
  - pose proof (Math_round_upper (100 * p)) as U.
    pose proof (Math_round_lower (100 * p')) as V.
    revert U V. generalize (Math_round (100 * p)) (Math_round (100 * p')). intros; lra.
Qed.

(** From level 1 on, the experience needed for the next level is at
    least 100; up to level 3868 it strictly increases with the level
    (from level 3869 on the power overflows the double range and the
    code's value stays at Infinity). *)
Theorem experience_curve_increases (level : Z) :
  (1 <= level)%Z ->
  100 <= calculateExpForNextLevel level /\
  ((level <= 3868)%Z ->
   calculateExpForNextLevel level < calculateExpForNextLevel (level + 1)).
Proof. intros H. split; [|intros _]; apply exp_curve, H. Qed.

Lemma experience_curve_increases_witness :
  (1 <= 3)%Z /\
  100 <= calculateExpForNextLevel 3 /\
  calculateExpForNextLevel 3 < calculateExpForNextLevel (3 + 1).
Proof.
  split; [lia|].
  destruct (experience_curve_increases 3 ltac:(lia)) as [A B].
  split; [exact A | apply B; lia].
Defined.

Lemma orElse_zero (o : option Q) : forall v, o = Some v -> orElse o 0 == v.
Proof.
  intros v ->. unfold orElse. destruct (Qeq_bool v 0) eqn:E; [|reflexivity].
  apply Qeq_bool_iff in E. symmetry. exact E.
Qed.

Lemma levelUpCharacter_step (c : StoredCharacter) (level : Z) (e : Q) :
  sc_level c = Some level -> sc_experience c = Some e -> canLevelUp c = true ->
  levelUpCharacter c
  = mkStored (sc_id c) (Some (level + 1)%Z) (Some (e - calculateExpForNextLevel level))
      (Some (pointsOf c + 2)).
Proof.
  intros L E C. unfold levelUpCharacter. rewrite C, L, E. reflexivity.
Qed.

Lemma no_level_up (fuel : nat) (c : StoredCharacter) (level : Z) (e : Q) :
  sc_level c = Some level -> sc_experience c = Some e -> canLevelUp c = false ->
  exists (k : nat) (c' : StoredCharacter) (e' : Q),
    Some c = Some c' /\
    (k <= fuel)%nat /\
    canLevelUp c' = false /\
    sc_id c' = sc_id c /\
    sc_level c' = Some (level + Z.of_nat k)%Z /\
    sc_experience c' = Some e' /\
    e' + expSpent level k == e /\
    pointsOf c' == pointsOf c + 2 * inject_Z (Z.of_nat k).
Proof.
  intros L E C. exists 0%nat, c, e.
  split; [reflexivity|]. split; [lia|]. split; [exact C|]. split; [reflexivity|].
  split; [rewrite Z.add_0_r; exact L|]. split; [exact E|].
  cbn [expSpent]. change (inject_Z (Z.of_nat 0)) with 0.
  split; [|generalize (pointsOf c); intros q]; lra.
Qed.

Lemma level_ups_end (fuel : nat) :
  forall (c : StoredCharacter) (level : Z) (e : Q),
    sc_level c = Some level -> sc_experience c = Some e ->
    (1 <= level)%Z -> e < 100 * (inject_Z (Z.of_nat fuel) + 1) ->
    exists (k : nat) (c' : StoredCharacter) (e' : Q),
      applyPendingLevelUps fuel c = Some c' /\
      (k <= fuel)%nat /\
      canLevelUp c' = false /\
      sc_id c' = sc_id c /\
      sc_level c' = Some (level + Z.of_nat k)%Z /\
      sc_experience c' = Some e' /\
      e' + expSpent level k == e /\
      pointsOf c' == pointsOf c + 2 * inject_Z (Z.of_nat k).
Proof.
  induction fuel as [|fuel IH]; intros c level e L E Hl He.
  - assert (C : canLevelUp c = false).
    { unfold canLevelUp. rewrite L, E. apply not_true_iff_false. intros G.
      apply geq_iff in G.
      pose proof (proj1 (exp_curve level Hl)) as T.
      change (inject_Z (Z.of_nat 0)) with 0 in He.
      revert G T. generalize (calculateExpForNextLevel level). intros; lra. }
    cbn [applyPendingLevelUps]. rewrite C. apply (no_level_up 0 c level e L E C).
  - cbn [applyPendingLevelUps]. destruct (canLevelUp c) eqn:C.
    + pose proof C as G. unfold canLevelUp in G. rewrite L, E in G. apply geq_iff in G.
      pose proof (proj1 (exp_curve level Hl)) as T.
      rewrite (levelUpCharacter_step c level e L E C).
      destruct (IH (mkStored (sc_id c) (Some (level + 1)%Z)
                      (Some (e - calculateExpForNextLevel level)) (Some (pointsOf c + 2)))
                  (level + 1)%Z (e - calculateExpForNextLevel level)
                  eq_refl eq_refl ltac:(lia))
        as (k & c' & e' & R & Hk & C' & I & L' & E' & S' & P').
      { rewrite Nat2Z.inj_succ in He. unfold Z.succ in He.
        rewrite inject_Z_plus in He. change (inject_Z 1) with 1 in He.
        revert G T He. generalize (calculateExpForNextLevel level) (inject_Z (Z.of_nat fuel)).
        intros; lra. }
      exists (S k), c', e'. rewrite R.
      split; [reflexivity|]. split; [lia|]. split; [exact C'|].
      split; [exact I|]. split; [rewrite L'; f_equal; lia|].
      split; [exact E'|]. split.
      * cbn [expSpent]. revert S'.
        generalize (calculateExpForNextLevel level) (expSpent (level + 1) k).
        intros; lra.
      * rewrite P'. unfold pointsOf at 1. cbn [sc_availableAttributePoints].
        rewrite (orElse_zero _ _ eq_refl).
        rewrite Nat2Z.inj_succ. unfold Z.succ. rewrite inject_Z_plus.
        change (inject_Z 1) with 1. lra.
    + apply (no_level_up (S fuel) c level e L E C).
Qed.

(** applyPendingLevelUps ends: for a character of level at least 1 whose
    experience is below 100 * (fuel + 1), the loop stops within [fuel]
    iterations.  If it ran [k] times, the result has the same id, is [k]
    levels higher, has 2 * k more attribute points, has lost exactly the
    experience that these [k] levels cost, and cannot level up again. *)
Theorem applyPendingLevelUps_ends (fuel : nat) (c : StoredCharacter) (level : Z) (e : Q) :
  sc_level c = Some level -> sc_experience c = Some e ->
  (1 <= level)%Z -> e < 100 * (inject_Z (Z.of_nat fuel) + 1) ->
  exists (k : nat) (c' : StoredCharacter) (e' : Q),
    applyPendingLevelUps fuel c = Some c' /\
    (k <= fuel)%nat /\
    canLevelUp c' = false /\
    sc_id c' = sc_id c /\
    sc_level c' = Some (level + Z.of_nat k)%Z /\
    sc_experience c' = Some e' /\
    e' + expSpent level k == e /\
    pointsOf c' == pointsOf c + 2 * inject_Z (Z.of_nat k).
Proof. apply level_ups_end. Qed.

Lemma applyPendingLevelUps_ends_witness :
  exists (k : nat) (c' : StoredCharacter) (e' : Q),
    applyPendingLevelUps 2 veteran = Some c' /\
    (k <= 2)%nat /\
    canLevelUp c' = false /\
    sc_id c' = sc_id veteran /\
    sc_level c' = Some (1 + Z.of_nat k)%Z /\
    sc_experience c' = Some e' /\
    e' + expSpent 1 k == 250 /\
    pointsOf c' == pointsOf veteran + 2 * inject_Z (Z.of_nat k).
Proof.
  apply (applyPendingLevelUps_ends 2 veteran 1%Z 250 eq_refl eq_refl); [lia|].
  vm_compute. reflexivity.
Defined.


(** ** The matchmaking queue under sequences of requests *)

Module MatchmakingRunFacts.
Import Matchmaking MatchmakingRuns.

Lemma filter_elem {A} (f : A -> bool) (l : list A) (x : A) :
  x ∈ List.filter f l <-> x ∈ l /\ f x = true.
Proof. rewrite !list_elem_of_In. apply filter_In. Qed.

Lemma NoDup_fmap_filter {A B} (g : A -> B) (f : A -> bool) (l : list A) :
  NoDup (g <$> l) -> NoDup (g <$> List.filter f l).
Proof.
  induction l as [|x l IH]; cbn [List.filter fmap list_fmap]; [auto|].
  intros H. apply NoDup_cons in H as [Hx Hl].
  destruct (f x); [|auto].
  rewrite fmap_cons. apply NoDup_cons. split; [|auto].
  intros Hin. apply Hx. apply list_elem_of_fmap in Hin as (y & -> & Hy).
  apply list_elem_of_fmap. exists y. split; [reflexivity|].
  apply filter_elem in Hy. tauto.
Qed.

Lemma NoDup_fmap_inj {A B} (g : A -> B) (l : list A) (x y : A) :
  NoDup (g <$> l) -> x ∈ l -> y ∈ l -> g x = g y -> x = y.
Proof.
  induction l as [|z l IH]; intros H Hx Hy E; [inversion Hx|].
  rewrite fmap_cons in H. apply NoDup_cons in H as [Hz Hl].
  apply elem_of_cons in Hx as [->|Hx]; apply elem_of_cons in Hy as [->|Hy].
  - reflexivity.
  - exfalso. apply Hz. rewrite E. apply list_elem_of_fmap. eauto.
  - exfalso. apply Hz. rewrite <- E. apply list_elem_of_fmap. eauto.
  - auto.
Qed.

Lemma find_id_none (cid : string) (q : list QueueEntry) :
  List.find (fun entry => String.eqb (characterId entry) cid) q = None <->
  cid ∉ characterId <$> q.
Proof.
  split.
  - intros H Hin. apply list_elem_of_fmap in Hin as (e & -> & He).
    pose proof (find_none _ _ H e (proj1 (list_elem_of_In _ _) He)) as F.
    cbn in F. rewrite String.eqb_refl in F. discriminate F.
  - intros H. destruct (List.find _ q) as [e|] eqn:F; [|reflexivity].
    apply find_some in F as [Hin He]. apply String.eqb_eq in He.
    exfalso. apply H. apply list_elem_of_fmap. exists e. split; [auto|].
    apply list_elem_of_In, Hin.
Qed.

Lemma find_id_some (cid : string) (q : list QueueEntry) (e : QueueEntry) :
  NoDup (characterId <$> q) -> e ∈ q -> characterId e = cid ->
  List.find (fun entry => String.eqb (characterId entry) cid) q = Some e.
Proof.
  intros N He Hc.
  destruct (List.find _ q) as [e'|] eqn:F.
  - apply find_some in F as [Hin H']. apply String.eqb_eq in H'.
    f_equal. apply (NoDup_fmap_inj characterId q); auto.
    + apply list_elem_of_In, Hin.
    + congruence.
  - apply find_id_none in F. exfalso. apply F. apply list_elem_of_fmap. eauto.
Qed.

Lemma list_find_id_none (cid : string) (q : list QueueEntry) :
  list_find (fun entry => characterId entry = cid) q = None ->
  cid ∉ characterId <$> q.
Proof.
  intros H Hin. apply list_find_None in H.
  apply list_elem_of_fmap in Hin as (e & -> & He).
  rewrite Forall_forall in H. apply (H e He). reflexivity.
Qed.

Section Facts.

Variable startBattle : nat -> string -> string -> string.

(** What findMatch needs of the queue and what it gives back. *)
Lemma findMatch_inv cid pid st :
  NoDup (characterId <$> matchmakingQueue st) ->
  (forall e, e ∈ matchmakingQueue st -> pendingMatchNotifications st !! characterId e = None) ->
  (forall e, e ∈ matchmakingQueue st -> characterId e = cid -> playerId e = pid) ->
  sameOwner (List.filter (fun e => negb (String.eqb (characterId e) cid))
               (matchmakingQueue st)) ->
  (fst (findMatch startBattle cid pid st) = None -> sameOwner (matchmakingQueue st)) /\
  (sameOwner (matchmakingQueue st) -> queueInv (snd (findMatch startBattle cid pid st))) /\
  (fst (findMatch startBattle cid pid st) <> None ->
   queueInv (snd (findMatch startBattle cid pid st))).
Proof.
  intros N U Hc Ho. unfold findMatch.
  destruct (List.find _ _) as [opp|] eqn:E; cbn [fst snd].
  - assert (Q : queueInv
                  (mkState
                     (List.filter (fun entry =>
                               negb (String.eqb (characterId entry) cid)
                               && negb (String.eqb (characterId entry) (characterId opp)))
                        (matchmakingQueue st))
                     (<[characterId opp := mkMatchInfo cid
                          (startBattle (battlesStarted st) cid (characterId opp))]>
                        (pendingMatchNotifications st))
                     (S (battlesStarted st)))).
    { constructor; cbn [matchmakingQueue pendingMatchNotifications].
      - apply NoDup_fmap_filter, N.
      - intros e He. apply filter_elem in He as [He Hf].
        apply andb_true_iff in Hf as [_ Hf]. rewrite negb_true_iff, String.eqb_neq in Hf.
        rewrite lookup_insert_ne by congruence. apply U, He.
      - intros e1 e2 H1 H2. apply filter_elem in H1 as [H1 F1].
        apply filter_elem in H2 as [H2 F2].
        apply andb_true_iff in F1 as [F1 _]. apply andb_true_iff in F2 as [F2 _].
        apply Ho; apply filter_elem; split; assumption. }
    split; [discriminate|]. split; intros _; exact Q.
  - split; [|split; [|congruence]].
    + intros _ e1 e2 H1 H2.
      pose proof (find_none_all _ _ E) as A. rewrite Forall_forall in A.
      assert (P : forall e, e ∈ matchmakingQueue st -> playerId e = pid).
      { intros e He. specialize (A e He).
        apply MatchmakingFacts.isOpponentFor_false in A as [A|A]; [apply Hc; assumption|exact A]. }
      rewrite (P e1 H1), (P e2 H2). reflexivity.
    + intros S. destruct st. constructor; assumption.
Qed.

Lemma sameOwner_filter (f : QueueEntry -> bool) (q : list QueueEntry) :
  sameOwner q -> sameOwner (List.filter f q).
Proof.
  intros H e1 e2 H1 H2. apply filter_elem in H1 as [H1 _]. apply filter_elem in H2 as [H2 _].
  apply H; assumption.
Qed.

Lemma queueInv_delivered cid st : queueInv st -> queueInv (delivered cid st).
Proof.
  intros [N U O]. constructor; cbn [delivered matchmakingQueue pendingMatchNotifications].
  - exact N.
  - intros e He. apply lookup_delete_None. right. apply U, He.
  - exact O.
Qed.

Lemma queueInv_addToQueue cid pid now st :
  queueInv st -> queueInv (snd (addToQueue startBattle cid pid now st)).
Proof.
  intros I. pose proof I as [N U O]. unfold addToQueue.
  destruct (pendingMatchNotifications st !! cid) as [m|] eqn:P.
  { apply (queueInv_delivered cid st I). }
  destruct (list_find _ _) as [[i ex]|] eqn:E.
  - cbn [fst snd]. apply list_find_Some in E as (Hl & Hty & _).
    assert (Hids : characterId <$> <[i:=mkQueueEntry (characterId ex) (playerId ex) now]>
                                     (matchmakingQueue st)
                   = characterId <$> matchmakingQueue st)
      by (apply (fmap_insert_same _ _ _ ex); [exact Hl | reflexivity]).
    assert (Hin : forall e, e ∈ <[i:=mkQueueEntry (characterId ex) (playerId ex) now]>
                                  (matchmakingQueue st) ->
                            exists e', e' ∈ matchmakingQueue st /\
                                       characterId e = characterId e' /\
                                       playerId e = playerId e').
    { intros e He. apply list_elem_of_lookup in He as [j Hj].
      destruct (decide (i = j)) as [<-|Hne].
      - rewrite list_lookup_insert_eq in Hj by (eapply lookup_lt_Some; eassumption).
        injection Hj as <-. exists ex. split; [eapply list_elem_of_lookup_2; eassumption|].
        split; reflexivity.
      - rewrite list_lookup_insert_ne in Hj by exact Hne.
        exists e. split; [eapply list_elem_of_lookup_2; eassumption|]. split; reflexivity. }
    constructor; cbn [matchmakingQueue pendingMatchNotifications].
    + rewrite Hids. exact N.
    + intros e He. destruct (Hin e He) as (e' & He' & -> & _). apply U, He'.
    + intros e1 e2 H1 H2. destruct (Hin e1 H1) as (e1' & He1 & _ & ->).
      destruct (Hin e2 H2) as (e2' & He2 & _ & ->). apply O; assumption.
  - apply list_find_id_none in E.
    set (st1 := mkState (matchmakingQueue st ++ [mkQueueEntry cid pid now])
                  (pendingMatchNotifications st) (battlesStarted st)).
    destruct (findMatch_inv cid pid st1) as (F1 & F2 & F3).
    + cbn [st1 matchmakingQueue]. rewrite fmap_app. apply NoDup_app.
      split; [exact N|]. split; [|apply NoDup_singleton].
      intros x Hx Hx'. apply list_elem_of_singleton in Hx'. subst x. apply E, Hx.
    + cbn [st1 matchmakingQueue pendingMatchNotifications]. intros e He.
      apply elem_of_app in He as [He|He]; [apply U, He|].
      apply list_elem_of_singleton in He. subst e. exact P.
    + cbn [st1 matchmakingQueue]. intros e He Hc.
      apply elem_of_app in He as [He|He].
      * exfalso. apply E. apply list_elem_of_fmap. eauto.
      * apply list_elem_of_singleton in He. subst e. reflexivity.
    + cbn [st1 matchmakingQueue]. intros e1 e2 H1 H2.
      apply filter_elem in H1 as [H1 G1]. apply filter_elem in H2 as [H2 G2].
      rewrite negb_true_iff, String.eqb_neq in G1, G2.
      apply elem_of_app in H1 as [H1|H1];
        [|apply list_elem_of_singleton in H1; subst e1; exfalso; apply G1; reflexivity].
      apply elem_of_app in H2 as [H2|H2];
        [|apply list_elem_of_singleton in H2; subst e2; exfalso; apply G2; reflexivity].
      apply O; assumption.
    + destruct (findMatch startBattle cid pid st1) as [[m|] st2] eqn:R; cbn [fst snd] in *.
      * apply F3. discriminate.
      * apply F2, F1. reflexivity.
Qed.

Lemma queueInv_removeFromQueue cid st :
  queueInv st -> queueInv (snd (removeFromQueue cid st)).
Proof.
  intros [N U O]. unfold removeFromQueue. cbn [snd].
  constructor; cbn [matchmakingQueue pendingMatchNotifications].
  - apply NoDup_fmap_filter, N.
  - intros e He. apply filter_elem in He as [He _].
    apply lookup_delete_None. right. apply U, He.
  - apply sameOwner_filter, O.
Qed.

Lemma queueInv_checkQueueStatus cid pid st :
  queueInv st -> queueInv (snd (checkQueueStatus startBattle cid pid st)).
Proof.
  intros I. pose proof I as [N U O]. unfold checkQueueStatus.
  destruct (pendingMatchNotifications st !! cid) as [m|] eqn:P.
  { apply (queueInv_delivered cid st I). }
  destruct (List.find _ _) as [entry|] eqn:E; [|exact I].
  assert (Q : queueInv (snd (findMatch startBattle cid pid st))).
  { unfold findMatch. destruct (List.find (isOpponentFor cid pid) _) as [opp|] eqn:F;
      cbn [snd]; [|exact I].
    constructor; cbn [matchmakingQueue pendingMatchNotifications].
    - apply NoDup_fmap_filter, N.
    - intros e He. apply filter_elem in He as [He Hf].
      apply andb_true_iff in Hf as [_ Hf]. rewrite negb_true_iff, String.eqb_neq in Hf.
      rewrite lookup_insert_ne by congruence. apply U, He.
    - apply sameOwner_filter, O. }
  destruct (findMatch startBattle cid pid st) as [[m|] st2]; exact Q.
Qed.

Lemma queueInv_handle st r : queueInv st -> queueInv (handle startBattle st r).
Proof.
  destruct r; cbn [handle];
    [apply queueInv_addToQueue | apply queueInv_removeFromQueue
     | apply queueInv_checkQueueStatus].
Qed.

Lemma queueInv_run rs : forall st, queueInv st -> queueInv (run startBattle rs st).
Proof.
  induction rs as [|r rs IH]; intros st I; [exact I|].
  cbn [run fold_left]. apply IH, queueInv_handle, I.
Qed.

Lemma queueInv_empty : queueInv emptyQueue.
Proof.
  constructor; cbn.
  - apply NoDup_nil_2.
  - intros e He. inversion He.
  - intros e1 e2 He. inversion He.
Qed.

Lemma queueInv_reachable rs : queueInv (run startBattle rs emptyQueue).
Proof. apply queueInv_run, queueInv_empty. Qed.

End Facts.

Lemma position_of (q : list QueueEntry) (e : QueueEntry) :
  NoDup (characterId <$> q) -> e ∈ q ->
  exists i, q !! i = Some e /\
            list_find (fun entry => characterId entry = characterId e) q = Some (i, e).
Proof.
  intros N He.
  destruct (list_find (fun entry => characterId entry = characterId e) q)
    as [[i e']|] eqn:F.
  - apply list_find_Some in F as (Hl & Hc & _).
    assert (e' = e) as ->.
    { apply (NoDup_fmap_inj characterId q); auto.
      eapply list_elem_of_lookup_2; eassumption. }
    exists i. split; [exact Hl | reflexivity].
  - apply list_find_None in F. rewrite Forall_forall in F.
    exfalso. apply (F e He). reflexivity.
Qed.

Lemma sublist_filter_std {A} (f : A -> bool) (l : list A) :
  List.filter f l `sublist_of` l.
Proof.
  induction l as [|x l IH]; cbn [List.filter]; [constructor|].
  destruct (f x); [apply sublist_skip | apply sublist_cons]; exact IH.
Qed.

Lemma filter_absent (cid : string) (q : list QueueEntry) :
  cid ∉ characterId <$> q ->
  List.filter (fun entry => negb (String.eqb (characterId entry) cid)) q = q.
Proof.
  induction q as [|x q IH]; intros H; [reflexivity|].
  rewrite fmap_cons in H. apply not_elem_of_cons in H as [H1 H2].
  cbn [List.filter]. destruct (String.eqb_spec (characterId x) cid) as [E|E].
  - exfalso. apply H1. symmetry. exact E.
  - cbn [negb]. rewrite IH by exact H2. reflexivity.
Qed.

Lemma filter_present (cid : string) (q : list QueueEntry) :
  NoDup (characterId <$> q) -> cid ∈ characterId <$> q ->
  S (length (List.filter (fun entry => negb (String.eqb (characterId entry) cid)) q))
  = length q.
Proof.
  induction q as [|x q IH]; intros N H; [inversion H|].
  rewrite fmap_cons in N, H. apply NoDup_cons in N as [Nx Nq].
  cbn [List.filter]. destruct (String.eqb_spec (characterId x) cid) as [E|E].
  - cbn [negb]. rewrite filter_absent by (rewrite <- E; exact Nx). reflexivity.
  - cbn [negb length]. f_equal. apply IH; [exact Nq|].
    apply elem_of_cons in H as [H|H]; [exfalso; apply E; symmetry; exact H | exact H].
Qed.

End MatchmakingRunFacts.

(** Whatever requests the service has answered since it started - joining,
    leaving and polling, in any order and with any arguments - no
    character waits twice in the queue, no waiting character has an
    undelivered match notification, and all waiting characters belong to
    one player. *)
Theorem queue_invariant (startBattle : nat -> string -> string -> string)
    (rs : list MatchmakingRuns.Request) :
  let st := MatchmakingRuns.run startBattle rs emptyQueue in
  NoDup (Matchmaking.characterId <$> Matchmaking.matchmakingQueue st) /\
  (forall e, e ∈ Matchmaking.matchmakingQueue st ->
     Matchmaking.pendingMatchNotifications st !! Matchmaking.characterId e = None) /\
  (forall e1 e2, e1 ∈ Matchmaking.matchmakingQueue st ->
     e2 ∈ Matchmaking.matchmakingQueue st ->
     Matchmaking.playerId e1 = Matchmaking.playerId e2).
Proof.
  cbv zeta.
  destruct (MatchmakingRunFacts.queueInv_reachable startBattle rs) as [N U O].
  split; [exact N|]. split; [exact U | exact O].
Qed.

(** A waiting character that is polled for its owner stays waiting: the
    attempt of checkQueueStatus to find a match never succeeds, the state
    is unchanged and the answer carries the entry's own position and
    timestamp.  Matches are only ever made by addToQueue. *)
Theorem poll_by_owner_keeps_waiting (startBattle : nat -> string -> string -> string)
    (rs : list MatchmakingRuns.Request) (e : Matchmaking.QueueEntry) :
  let st := MatchmakingRuns.run startBattle rs emptyQueue in
  e ∈ Matchmaking.matchmakingQueue st ->
  exists i : nat,
    Matchmaking.matchmakingQueue st !! i = Some e /\
    Matchmaking.checkQueueStatus startBattle
      (Matchmaking.characterId e) (Matchmaking.playerId e) st
    = (Matchmaking.InQueue (Some (i + 1)%nat) (Matchmaking.timestamp e), st).
Proof.
  cbv zeta. intros He.
  destruct (MatchmakingRunFacts.queueInv_reachable startBattle rs) as [N U O].
  set (st := MatchmakingRuns.run startBattle rs emptyQueue) in *.
  destruct (MatchmakingRunFacts.position_of _ e N He) as (i & Hi & F).
  exists i. split; [exact Hi|].
  unfold Matchmaking.checkQueueStatus.
  rewrite (U e He).
  rewrite (MatchmakingRunFacts.find_id_some _ _ e N He eq_refl).
  rewrite MatchmakingFacts.findMatch_same_owner.
  - unfold Matchmaking.getQueuePosition. rewrite F. reflexivity.
  - apply Forall_forall. intros e' He'. apply O; assumption.
Qed.

Lemma poll_by_owner_keeps_waiting_witness :
  let rs := [MatchmakingRuns.Enqueue "c1" "p1" "t1"; MatchmakingRuns.Enqueue "c2" "p1" "t2"] in
  let st := MatchmakingRuns.run battleIds rs emptyQueue in
  let e := Matchmaking.mkQueueEntry "c2" "p1" "t2" in
  e ∈ Matchmaking.matchmakingQueue st /\
  exists i : nat,
    Matchmaking.matchmakingQueue st !! i = Some e /\
    Matchmaking.checkQueueStatus battleIds "c2" "p1" st
    = (Matchmaking.InQueue (Some (i + 1)%nat) "t2", st).
Proof.
  cbv zeta.
  assert (H : Matchmaking.mkQueueEntry "c2" "p1" "t2"
              ∈ Matchmaking.matchmakingQueue
                  (MatchmakingRuns.run battleIds
                     [MatchmakingRuns.Enqueue "c1" "p1" "t1";
                      MatchmakingRuns.Enqueue "c2" "p1" "t2"] emptyQueue)).
  { vm_compute. apply list_elem_of_further, list_elem_of_here. }
  split; [exact H|].
  exact (poll_by_owner_keeps_waiting battleIds _ _ H).
Defined.

(** When addToQueue answers a character without pending notification
    with a freshly made match, the opponent is a character of another
    player that was waiting and had no notification, so that none is
    overwritten; both have left the queue; the battle is the next one
    started; and the opponent's notification, which names the character
    and the same battle, is handed out by its next poll or by its next
    attempt to join - without enqueueing it - and is gone afterwards. *)
Theorem match_delivered_once (startBattle : nat -> string -> string -> string)
    (cid pid now : string) (st st1 : Matchmaking.State) (m : Matchmaking.MatchInfo) :
  MatchmakingRuns.queueInv st ->
  Matchmaking.pendingMatchNotifications st !! cid = None ->
  Matchmaking.addToQueue startBattle cid pid now st = (Matchmaking.MatchFound m, st1) ->
  let opp := Matchmaking.opponentId m in
  let note := Matchmaking.mkMatchInfo cid (Matchmaking.battleId m) in
  opp <> cid /\
  (exists e, e ∈ Matchmaking.matchmakingQueue st /\ Matchmaking.characterId e = opp /\
             Matchmaking.playerId e <> pid) /\
  Matchmaking.pendingMatchNotifications st !! opp = None /\
  Matchmaking.pendingMatchNotifications st1
  = <[opp := note]> (Matchmaking.pendingMatchNotifications st) /\
  Matchmaking.battleId m = startBattle (Matchmaking.battlesStarted st) cid opp /\
  Matchmaking.battlesStarted st1 = S (Matchmaking.battlesStarted st) /\
  (cid ∉ Matchmaking.characterId <$> Matchmaking.matchmakingQueue st1) /\
  (opp ∉ Matchmaking.characterId <$> Matchmaking.matchmakingQueue st1) /\
  (forall p, Matchmaking.checkQueueStatus startBattle opp p st1
             = (Matchmaking.NotInQueue (Some note), MatchmakingRuns.delivered opp st1)) /\
  (forall p t, Matchmaking.addToQueue startBattle opp p t st1
               = (Matchmaking.MatchFound note, MatchmakingRuns.delivered opp st1)) /\
  (forall p, Matchmaking.checkQueueStatus startBattle opp p (MatchmakingRuns.delivered opp st1)
             = (Matchmaking.NotInQueue None, MatchmakingRuns.delivered opp st1)).
Proof.
  intros [N U O] P H. cbv zeta.
  unfold Matchmaking.addToQueue in H. rewrite P in H.
  destruct (list_find _ _) as [[i ex]|] eqn:E; [discriminate H|].
  unfold Matchmaking.findMatch in H. cbn [Matchmaking.matchmakingQueue] in H.
  destruct (List.find _ _) as [o|] eqn:F; [|discriminate H].
  cbn [Matchmaking.battlesStarted Matchmaking.pendingMatchNotifications] in H.
  injection H as <- <-.
  cbn [Matchmaking.opponentId Matchmaking.battleId Matchmaking.pendingMatchNotifications
         Matchmaking.battlesStarted Matchmaking.matchmakingQueue].
  apply find_some in F as [Hin Hop].
  apply MatchmakingFacts.isOpponentFor_true in Hop as [O1 O2].
  apply list_elem_of_In, elem_of_app in Hin as [Hin|Hin];
    [|apply list_elem_of_singleton in Hin; subst o; exfalso; apply O1; reflexivity].
  set (q1 := List.filter _ _).
  assert (C1 : cid ∉ Matchmaking.characterId <$> q1).
  { intros Hc. apply list_elem_of_fmap in Hc as (e & He & Hq).
    apply MatchmakingRunFacts.filter_elem in Hq as [_ Hq].
    apply andb_true_iff in Hq as [Hq _]. rewrite negb_true_iff, String.eqb_neq in Hq.
    congruence. }
  assert (C2 : Matchmaking.characterId o ∉ Matchmaking.characterId <$> q1).
  { intros Hc. apply list_elem_of_fmap in Hc as (e & He & Hq).
    apply MatchmakingRunFacts.filter_elem in Hq as [_ Hq].
    apply andb_true_iff in Hq as [_ Hq]. rewrite negb_true_iff, String.eqb_neq in Hq.
    congruence. }
  split; [exact O1|]. split; [exists o; auto|]. split; [apply U, Hin|].
  split; [reflexivity|]. split; [reflexivity|]. split; [reflexivity|].
  split; [exact C1|]. split; [exact C2|].
  split; [|split].
  - intros p. unfold Matchmaking.checkQueueStatus.
    cbn [Matchmaking.pendingMatchNotifications]. rewrite lookup_insert_eq. reflexivity.
  - intros p t. unfold Matchmaking.addToQueue.
    cbn [Matchmaking.pendingMatchNotifications]. rewrite lookup_insert_eq. reflexivity.
  - intros p. unfold Matchmaking.checkQueueStatus, MatchmakingRuns.delivered.
    cbn [Matchmaking.pendingMatchNotifications Matchmaking.matchmakingQueue].
    rewrite lookup_delete_eq.
    rewrite (proj2 (MatchmakingRunFacts.find_id_none _ q1) C2). reflexivity.
Qed.

Lemma match_delivered_once_witness :
  let st := Matchmaking.mkState [Matchmaking.mkQueueEntry "c1" "p1" "t1"] ∅ 0 in
  let st1 := Matchmaking.mkState []
               (<["c1"%string := Matchmaking.mkMatchInfo "c2" "battle-0"]> ∅) 1 in
  Matchmaking.addToQueue battleIds "c2" "p2" "t2" st
  = (Matchmaking.MatchFound (Matchmaking.mkMatchInfo "c1" "battle-0"), st1) /\
  Matchmaking.checkQueueStatus battleIds "c1" "p1" st1
  = (Matchmaking.NotInQueue (Some (Matchmaking.mkMatchInfo "c2" "battle-0")),
     MatchmakingRuns.delivered "c1" st1) /\
  Matchmaking.checkQueueStatus battleIds "c1" "p1" (MatchmakingRuns.delivered "c1" st1)
  = (Matchmaking.NotInQueue None, MatchmakingRuns.delivered "c1" st1).
Proof.
  cbv zeta.
  assert (I : MatchmakingRuns.queueInv
                (Matchmaking.mkState [Matchmaking.mkQueueEntry "c1" "p1" "t1"] ∅ 0)).
  { constructor; cbn.
    - apply NoDup_singleton.
    - intros e _. apply lookup_empty.
    - intros e1 e2 H1 H2. apply list_elem_of_singleton in H1, H2. subst. reflexivity. }
  assert (H : Matchmaking.addToQueue battleIds "c2" "p2" "t2"
                (Matchmaking.mkState [Matchmaking.mkQueueEntry "c1" "p1" "t1"] ∅ 0)
              = (Matchmaking.MatchFound (Matchmaking.mkMatchInfo "c1" "battle-0"),
                 Matchmaking.mkState []
                   (<["c1"%string := Matchmaking.mkMatchInfo "c2" "battle-0"]> ∅) 1))
    by (vm_compute; reflexivity).
  split; [exact H|].
  destruct (match_delivered_once battleIds "c2" "p2" "t2" _ _ _ I (lookup_empty _) H)
    as (_ & _ & _ & _ & _ & _ & _ & _ & D1 & _ & D2).
  split; [apply (D1 "p1"%string) | apply (D2 "p1"%string)].
Defined.

(** Joining without a pending notification.  A character that already
    waits keeps its place: only the timestamp of its entry is renewed, no
    match is attempted, and the answer is "still searching" with the
    entry's position.  A character that does not wait and is answered
    "added to queue" has been appended behind everyone, its position is
    the new length of the queue, and every waiting character belongs to
    its player. *)
Theorem join_answers_with_position (startBattle : nat -> string -> string -> string)
    (cid pid now : string) (st : Matchmaking.State) :
  MatchmakingRuns.queueInv st ->
  Matchmaking.pendingMatchNotifications st !! cid = None ->
  let q := Matchmaking.matchmakingQueue st in
  let r := Matchmaking.addToQueue startBattle cid pid now st in
  (forall e, e ∈ q -> Matchmaking.characterId e = cid ->
     exists i, q !! i = Some e /\
       r = (Matchmaking.StillSearching (Some (i + 1)%nat),
            Matchmaking.mkState
              (<[i := Matchmaking.mkQueueEntry cid (Matchmaking.playerId e) now]> q)
              (Matchmaking.pendingMatchNotifications st) (Matchmaking.battlesStarted st))) /\
  (forall p, fst r = Matchmaking.AddedToQueue p ->
     p = Some (length q + 1)%nat /\
     snd r = Matchmaking.mkState (q ++ [Matchmaking.mkQueueEntry cid pid now])
               (Matchmaking.pendingMatchNotifications st) (Matchmaking.battlesStarted st) /\
     Forall (fun e => Matchmaking.playerId e = pid) q /\
     (cid ∉ Matchmaking.characterId <$> q)).
Proof.
  intros [N U O] P. cbv zeta. split.
  - intros e He Hc.
    destruct (MatchmakingRunFacts.position_of _ e N He) as (i & Hi & F).
    rewrite Hc in F. exists i. split; [exact Hi|].
    unfold Matchmaking.addToQueue. rewrite P, F. rewrite Hc.
    set (q' := <[i:=_]> (Matchmaking.matchmakingQueue st)).
    assert (Hids : Matchmaking.characterId <$> q'
                   = Matchmaking.characterId <$> Matchmaking.matchmakingQueue st)
      by (apply (fmap_insert_same _ _ _ e); [exact Hi | symmetry; exact Hc]).
    assert (Hi' : q' !! i = Some (Matchmaking.mkQueueEntry cid (Matchmaking.playerId e) now))
      by (apply list_lookup_insert_eq; eapply lookup_lt_Some; eassumption).
    assert (N' : NoDup (Matchmaking.characterId <$> q')) by (rewrite Hids; exact N).
    destruct (MatchmakingRunFacts.position_of q' _ N'
                (list_elem_of_lookup_2 _ _ _ Hi')) as (j & Hj & F').
    assert (j = i) as ->.
    { apply (NoDup_lookup _ _ _ cid N'); rewrite list_lookup_fmap.
      - rewrite Hj. reflexivity.
      - rewrite Hi'. reflexivity. }
    unfold Matchmaking.getQueuePosition. cbn [Matchmaking.matchmakingQueue].
    cbn [Matchmaking.characterId] in F'. rewrite F'. reflexivity.
  - intros p Hp. unfold Matchmaking.addToQueue in *. rewrite P in *.
    destruct (list_find _ _) as [[i ex]|] eqn:E; [discriminate Hp|].
    apply MatchmakingRunFacts.list_find_id_none in E.
    set (st1 := Matchmaking.mkState _ _ _) in *.
    pose proof (MatchmakingFacts.isOpponentFor_false) as OF.
    unfold Matchmaking.findMatch in *.
    destruct (List.find (Matchmaking.isOpponentFor cid pid) _) as [o|] eqn:F;
      [discriminate Hp|].
    cbn [fst snd] in *. injection Hp as <-.
    assert (A : Forall (fun e => Matchmaking.playerId e = pid) (Matchmaking.matchmakingQueue st)).
    { apply Forall_forall. intros e He.
      pose proof (find_none_all _ _ F) as A. rewrite Forall_forall in A.
      destruct (proj1 (OF cid pid e) (A e ltac:(apply elem_of_app; left; exact He)))
        as [Hc|Hc]; [|exact Hc].
      exfalso. apply E. apply list_elem_of_fmap. eauto. }
    split; [|split; [reflexivity|split; [exact A|exact E]]].
    unfold Matchmaking.getQueuePosition. cbn [st1 Matchmaking.matchmakingQueue].
    assert (N1 : NoDup (Matchmaking.characterId
                        <$> Matchmaking.matchmakingQueue st
                            ++ [Matchmaking.mkQueueEntry cid pid now])).
    { rewrite fmap_app. apply NoDup_app. split; [exact N|]. split; [|apply NoDup_singleton].
      intros x Hx Hx'. apply list_elem_of_singleton in Hx'. subst x. apply E, Hx. }
    destruct (MatchmakingRunFacts.position_of _ (Matchmaking.mkQueueEntry cid pid now) N1)
      as (j & Hj & F1); [apply elem_of_app; right; apply list_elem_of_here|].
    cbn [Matchmaking.characterId] in F1. rewrite F1. do 2 f_equal.
    destruct (decide (j < length (Matchmaking.matchmakingQueue st))%nat) as [Hlt|Hge].
    + exfalso. rewrite lookup_app_l in Hj by exact Hlt.
      apply E. apply list_elem_of_fmap.
      exists (Matchmaking.mkQueueEntry cid pid now).
      split; [reflexivity | eapply list_elem_of_lookup_2; eassumption].
    + apply lookup_lt_Some in Hj. rewrite length_app in Hj. cbn [length] in Hj. lia.
Qed.

Lemma join_answers_with_position_witness :
  let st := Matchmaking.mkState
              [Matchmaking.mkQueueEntry "c1" "p1" "t1"; Matchmaking.mkQueueEntry "c2" "p1" "t2"]
              ∅ 0 in
  fst (Matchmaking.addToQueue battleIds "c2" "p1" "t3" st)
  = Matchmaking.StillSearching (Some 2%nat) /\
  fst (Matchmaking.addToQueue battleIds "c3" "p1" "t3" st)
  = Matchmaking.AddedToQueue (Some 3%nat).
Proof.
  cbv zeta.
  assert (I : MatchmakingRuns.queueInv
                (Matchmaking.mkState
                   [Matchmaking.mkQueueEntry "c1" "p1" "t1";
                    Matchmaking.mkQueueEntry "c2" "p1" "t2"] ∅ 0)).
  { constructor; cbn.
    - apply NoDup_cons. split; [|apply NoDup_singleton].
      intros H. apply list_elem_of_singleton in H. discriminate H.
    - intros e _. apply lookup_empty.
    - intros e1 e2 H1 H2.
      apply elem_of_cons in H1 as [->|H1]; [|apply list_elem_of_singleton in H1; subst e1];
        (apply elem_of_cons in H2 as [->|H2]; [|apply list_elem_of_singleton in H2; subst e2]);
        reflexivity. }
  split.
  - destruct (join_answers_with_position battleIds "c2" "p1" "t3" _ I (lookup_empty _))
      as [A _].
    destruct (A (Matchmaking.mkQueueEntry "c2" "p1" "t2")) as (i & Hi & R);
      [apply list_elem_of_further, list_elem_of_here | reflexivity |].
    destruct i as [|[|i]]; [discriminate Hi | | destruct i; discriminate Hi].
    rewrite R. reflexivity.
  - destruct (join_answers_with_position battleIds "c3" "p1" "t3" _ I (lookup_empty _))
      as [_ B].
    destruct (Matchmaking.addToQueue battleIds "c3" "p1" "t3" _) as [a s] eqn:R.
    destruct a as [m|p|p]; [vm_compute in R; discriminate R
                           | vm_compute in R; discriminate R|].
    cbn [fst] in *. destruct (B p eq_refl) as (-> & _). reflexivity.
Defined.

(** Leaving the queue forgets the character: afterwards it neither waits
    nor has a notification (one that was pending is dropped undelivered),
    the answer says whether an entry was removed, the queue is one entry
    shorter in that case and unchanged otherwise, and the others keep
    their entries, their order and their notifications. *)
Theorem leave_forgets_character (cid : string) (st : Matchmaking.State) :
  MatchmakingRuns.queueInv st ->
  let q := Matchmaking.matchmakingQueue st in
  let r := Matchmaking.removeFromQueue cid st in
  let q' := Matchmaking.matchmakingQueue (snd r) in
  (fst r = true <-> cid ∈ Matchmaking.characterId <$> q) /\
  (fst r = true -> S (length q') = length q) /\
  (fst r = false -> q' = q) /\
  (cid ∉ Matchmaking.characterId <$> q') /\
  Matchmaking.getQueuePosition (snd r) cid = None /\
  Matchmaking.pendingMatchNotifications (snd r) !! cid = None /\
  q' `sublist_of` q /\
  (forall e, e ∈ q' <-> e ∈ q /\ Matchmaking.characterId e <> cid) /\
  (forall c, c <> cid ->
     Matchmaking.pendingMatchNotifications (snd r) !! c
     = Matchmaking.pendingMatchNotifications st !! c) /\
  MatchmakingRuns.queueInv (snd r).
Proof.
  intros I. pose proof I as [N U O]. cbv zeta.
  unfold Matchmaking.removeFromQueue. cbn [fst snd Matchmaking.matchmakingQueue
    Matchmaking.pendingMatchNotifications].
  set (q := Matchmaking.matchmakingQueue st) in *.
  set (q' := List.filter _ q).
  assert (M : forall e, e ∈ q' <-> e ∈ q /\ Matchmaking.characterId e <> cid).
  { intros e. unfold q'. rewrite MatchmakingRunFacts.filter_elem.
    rewrite negb_true_iff, String.eqb_neq. reflexivity. }
  assert (C : cid ∉ Matchmaking.characterId <$> q').
  { intros Hc. apply list_elem_of_fmap in Hc as (e & He & Hq).
    apply M in Hq as [_ Hq]. congruence. }
  destruct (decide (cid ∈ Matchmaking.characterId <$> q)) as [Hin|Hout].
  - pose proof (MatchmakingRunFacts.filter_present cid q N Hin) as L. fold q' in L.
    assert (B : (length q' <? length q)%nat = true) by (apply Nat.ltb_lt; lia).
    rewrite B.
    split; [tauto|]. split; [intros _; exact L|]. split; [discriminate|].
    split; [exact C|]. split.
    { unfold Matchmaking.getQueuePosition. cbn [Matchmaking.matchmakingQueue].
      destruct (list_find _ q') as [[i e]|] eqn:F; [|reflexivity].
      apply list_find_Some in F as (Hl & Hc & _). exfalso. apply C.
      apply list_elem_of_fmap. exists e.
      split; [symmetry; exact Hc | eapply list_elem_of_lookup_2; eassumption]. }
    split; [apply lookup_delete_eq|]. split; [apply MatchmakingRunFacts.sublist_filter_std|].
    split; [exact M|]. split; [intros c Hc; apply lookup_delete_ne; congruence|].
    apply (MatchmakingRunFacts.queueInv_removeFromQueue cid st I).
  - pose proof (MatchmakingRunFacts.filter_absent cid q Hout) as L. fold q' in L.
    assert (B : (length q' <? length q)%nat = false) by (apply Nat.ltb_ge; rewrite L; lia).
    rewrite B.
    split; [split; [discriminate | tauto]|]. split; [discriminate|].
    split; [intros _; exact L|].
    split; [exact C|]. split.
    { unfold Matchmaking.getQueuePosition. cbn [Matchmaking.matchmakingQueue].
      destruct (list_find _ q') as [[i e]|] eqn:F; [|reflexivity].
      apply list_find_Some in F as (Hl & Hc & _). exfalso. apply C.
      apply list_elem_of_fmap. exists e.
      split; [symmetry; exact Hc | eapply list_elem_of_lookup_2; eassumption]. }
    split; [apply lookup_delete_eq|]. split; [apply MatchmakingRunFacts.sublist_filter_std|].
    split; [exact M|]. split; [intros c Hc; apply lookup_delete_ne; congruence|].
    apply (MatchmakingRunFacts.queueInv_removeFromQueue cid st I).
Qed.

Lemma leave_forgets_character_witness :
  let st := MatchmakingRuns.run battleIds
              [MatchmakingRuns.Enqueue "c1" "p1" "t1"; MatchmakingRuns.Enqueue "c2" "p1" "t2"]
              emptyQueue in
  MatchmakingRuns.queueInv st /\
  fst (Matchmaking.removeFromQueue "c1" st) = true /\
  Matchmaking.getQueuePosition (snd (Matchmaking.removeFromQueue "c1" st)) "c1" = None.
Proof.
  cbv zeta.
  pose proof (MatchmakingRunFacts.queueInv_reachable battleIds
                [MatchmakingRuns.Enqueue "c1" "p1" "t1";
                 MatchmakingRuns.Enqueue "c2" "p1" "t2"]) as I.
  split; [exact I|].
  destruct (leave_forgets_character "c1" _ I) as (A & _ & _ & _ & P & _).
  split; [|exact P].
  apply A. vm_compute. apply list_elem_of_here.
Defined.

(** ** The ability catalogue and its cache *)

Module AbilityServiceFacts.
Import AbilityService.

Lemma loadAbilities_cached st :
  abilityCache (snd (loadAbilities st)) = Some (fst (loadAbilities st)) /\
  file (snd (loadAbilities st)) = file st /\
  (abilityCache st = None -> fst (loadAbilities st) = readDataFile st) /\
  (forall cached, abilityCache st = Some cached -> fst (loadAbilities st) = cached).
Proof.
  unfold loadAbilities. destruct (abilityCache st) as [c|] eqn:E; cbn [fst snd].
  - repeat split; auto; [discriminate | congruence].
  - repeat split; auto. discriminate.
Qed.

Lemma uniqueIds_load st :
  uniqueIds st -> uniqueIds (snd (loadAbilities st)) /\ NoDup (ab_id <$> fst (loadAbilities st)).
Proof.
  intros [F C]. unfold loadAbilities.
  destruct (abilityCache st) as [c|] eqn:E; cbn [fst snd].
  - split; [split; [exact F | rewrite E; exact C] | apply C; reflexivity].
  - split; [split; [exact F|] | exact F].
    cbn [abilityCache]. intros c [= <-]. exact F.
Qed.

Lemma coherent_load st : coherent st -> coherent (snd (loadAbilities st)).
Proof.
  intros C. unfold loadAbilities.
  destruct (abilityCache st) as [c|] eqn:E; cbn [fst snd].
  - intros c' Hc'. apply C. congruence.
  - intros c' [= <-]. reflexivity.
Qed.

Lemma existsb_id_false (i : string) (l : list Ability) :
  existsb (fun a => String.eqb (ab_id a) i) l = false <-> i ∉ ab_id <$> l.
Proof.
  induction l as [|x l IH]; cbn [existsb].
  - split; [intros _ H; inversion H | reflexivity].
  - rewrite fmap_cons, orb_false_iff, IH, not_elem_of_cons, String.eqb_neq.
    split; intros [H1 H2]; split; auto.
Qed.

Lemma find_id_app (i : string) (l : list Ability) (x : Ability) :
  i ∉ ab_id <$> l -> ab_id x = i ->
  List.find (fun a => String.eqb (ab_id a) i) (l ++ [x]) = Some x.
Proof.
  intros H E. induction l as [|y l IH]; cbn [app List.find].
  - rewrite E, String.eqb_refl. reflexivity.
  - rewrite fmap_cons in H. apply not_elem_of_cons in H as [H1 H2].
    destruct (String.eqb_spec (ab_id y) i) as [E'|_]; [congruence|]. apply IH, H2.
Qed.

Lemma find_id_app_other (i : string) (l : list Ability) (x : Ability) :
  ab_id x <> i ->
  List.find (fun a => String.eqb (ab_id a) i) (l ++ [x])
  = List.find (fun a => String.eqb (ab_id a) i) l.
Proof.
  intros E. induction l as [|y l IH]; cbn [app List.find].
  - destruct (String.eqb_spec (ab_id x) i); [contradiction | reflexivity].
  - destruct (String.eqb (ab_id y) i); [reflexivity | exact IH].
Qed.

Lemma find_id_filter (i j : string) (l : list Ability) :
  List.find (fun a => String.eqb (ab_id a) i)
    (List.filter (fun a => negb (String.eqb (ab_id a) j)) l)
  = if String.eqb i j then None else List.find (fun a => String.eqb (ab_id a) i) l.
Proof.
  induction l as [|y l IH]; cbn [List.filter List.find].
  - destruct (String.eqb i j); reflexivity.
  - destruct (String.eqb_spec (ab_id y) j) as [E|E]; cbn [negb List.find].
    + rewrite IH. destruct (String.eqb_spec i j) as [E'|E']; [reflexivity|].
      destruct (String.eqb_spec (ab_id y) i) as [E''|_]; [congruence | reflexivity].
    + destruct (String.eqb_spec (ab_id y) i) as [E''|_].
      * destruct (String.eqb_spec i j) as [E'|_]; [congruence | reflexivity].
      * exact IH.
Qed.

Lemma find_id_insert (i j : string) (l : list Ability) (n : nat) (x y : Ability) :
  list_find (fun a => ab_id a = j) l = Some (n, x) -> ab_id y = j ->
  List.find (fun a => String.eqb (ab_id a) i) (<[n := y]> l)
  = if String.eqb i j then Some y else List.find (fun a => String.eqb (ab_id a) i) l.
Proof.
  revert n. induction l as [|z l IH]; intros n H E; [discriminate H|].
  cbn [list_find] in H. destruct (decide (ab_id z = j)) as [D|D].
  - injection H as <- <-. cbn [List.find]. change (<[0%nat:=y]> (z :: l)) with (y :: l).
    cbn [List.find]. rewrite E, D.
    rewrite (String.eqb_sym j i). destruct (String.eqb i j); reflexivity.
  - destruct (list_find _ l) as [[m w]|] eqn:F; [|discriminate H].
    cbn in H. injection H as <- <-.
    change (<[S m:=y]> (z :: l)) with (z :: <[m:=y]> l). cbn [List.find].
    rewrite (IH m eq_refl E).
    destruct (String.eqb_spec (ab_id z) i) as [Z|Z]; [|reflexivity].
    destruct (String.eqb_spec i j) as [E'|_]; [congruence | reflexivity].
Qed.

Lemma ids_insert (j : string) (l : list Ability) (n : nat) (x y : Ability) :
  list_find (fun a => ab_id a = j) l = Some (n, x) -> ab_id y = j ->
  ab_id <$> <[n := y]> l = ab_id <$> l.
Proof.
  intros H E. apply list_find_Some in H as (Hl & Hx & _).
  apply (fmap_insert_same _ _ _ x); [exact Hl | congruence].
Qed.

Lemma filter_same_length (j : string) (l : list Ability) :
  (length (List.filter (fun a => negb (String.eqb (ab_id a) j)) l) =? length l)%nat = true <->
  j ∉ ab_id <$> l.
Proof.
  rewrite Nat.eqb_eq. induction l as [|y l IH]; cbn [List.filter length].
  - split; [intros _ H; inversion H | reflexivity].
  - rewrite fmap_cons, not_elem_of_cons.
    pose proof (filter_length_le (fun a => negb (String.eqb (ab_id a) j)) l) as L.
    destruct (String.eqb_spec (ab_id y) j) as [E|E]; cbn [negb length].
    + split; [lia | intros [H _]; congruence].
    + split.
      * intros H. split; [congruence | apply IH; lia].
      * intros [_ H]. f_equal. apply IH, H.
Qed.

Lemma uniqueIds_exec st c : uniqueIds st -> uniqueIds (exec st c).
Proof.
  intros U. destruct (uniqueIds_load st U) as [[UF UC] UL].
  pose proof (loadAbilities_cached st) as (LC & LF & _).
  destruct c as [d ok|i d ok|i ok|i|n|]; cbn [exec].
  - unfold createAbility.
    destruct (blank _ || blank _ || blank _); [exact U|].
    destruct (loadAbilities st) as [abs st1] eqn:L. cbn [fst snd] in *.
    destruct (existsb _ abs) eqn:X; [split; assumption|].
    apply existsb_id_false in X.
    assert (N : NoDup (ab_id <$> abs ++ [d])).
    { rewrite fmap_app. apply NoDup_app. split; [exact UL|]. split; [|apply NoDup_singleton].
      intros x Hx Hx'. apply list_elem_of_singleton in Hx'. subst x. apply X, Hx. }
    destruct ok; cbn [writeDataFile snd clearAbilityCache file abilityCache].
    + split; [exact N | discriminate].
    + split; [exact UF|]. cbn [abilityCache]. intros c [= <-]. exact N.
  - unfold updateAbility.
    destruct (loadAbilities st) as [abs st1] eqn:L. cbn [fst snd] in *.
    destruct (list_find _ abs) as [[n x]|] eqn:F; [|split; assumption].
    assert (N : NoDup (ab_id <$> <[n := withId d i]> abs))
      by (rewrite (ids_insert i abs n x (withId d i) F eq_refl); exact UL).
    destruct ok; cbn [writeDataFile snd clearAbilityCache file abilityCache].
    + split; [exact N | discriminate].
    + split; [exact UF|]. cbn [abilityCache]. intros c [= <-]. exact N.
  - unfold deleteAbility.
    destruct (loadAbilities st) as [abs st1] eqn:L. cbn [fst snd] in *.
    destruct (_ =? _)%nat; [split; assumption|].
    destruct ok; cbn [writeDataFile snd clearAbilityCache file abilityCache];
      [|split; assumption].
    split; [|discriminate]. cbn [readDataFile file].
    apply MatchmakingRunFacts.NoDup_fmap_filter, UL.
  - unfold getAbility. destruct (loadAbilities st) as [abs st1]. split; assumption.
  - unfold getAbilityByName. destruct (loadAbilities st) as [abs st1]. split; assumption.
  - destruct U as [F _]. split; [exact F | discriminate].
Qed.

Lemma uniqueIds_execAll cs : forall st, uniqueIds st -> uniqueIds (execAll cs st).
Proof.
  induction cs as [|c cs IH]; intros st U; [exact U|].
  cbn [execAll fold_left]. apply IH, uniqueIds_exec, U.
Qed.

Lemma coherent_exec st c : saves c = true -> coherent st -> coherent (exec st c).
Proof.
  intros S C. pose proof (coherent_load st C) as CL.
  pose proof (loadAbilities_cached st) as (LC & LF & _).
  destruct c as [d ok|i d ok|i ok|i|n|]; cbn [exec]; cbn [saves] in S; subst.
  - unfold createAbility.
    destruct (blank _ || blank _ || blank _); [exact C|].
    destruct (loadAbilities st) as [abs st1] eqn:L. cbn [fst snd] in *.
    destruct (existsb _ abs); [exact CL|].
    cbn [writeDataFile snd clearAbilityCache file abilityCache]. intros c Hc. discriminate Hc.
  - unfold updateAbility.
    destruct (loadAbilities st) as [abs st1] eqn:L. cbn [fst snd] in *.
    destruct (list_find _ abs) as [[n x]|]; [|exact CL].
    cbn [writeDataFile snd clearAbilityCache file abilityCache]. intros c Hc. discriminate Hc.
  - unfold deleteAbility.
    destruct (loadAbilities st) as [abs st1] eqn:L. cbn [fst snd] in *.
    destruct (_ =? _)%nat; [exact CL|].
    destruct ok; cbn [writeDataFile snd clearAbilityCache file abilityCache]; [|exact CL].
    intros c Hc. discriminate Hc.
  - unfold getAbility. destruct (loadAbilities st) as [abs st1]. exact CL.
  - unfold getAbilityByName. destruct (loadAbilities st) as [abs st1]. exact CL.
  - intros c Hc. discriminate Hc.
Qed.

Lemma coherent_execAll cs : forall st,
  Forall (fun c => saves c = true) cs -> coherent st -> coherent (execAll cs st).
Proof.
  induction cs as [|c cs IH]; intros st F C; [exact C|].
  apply Forall_cons in F as [Fc Fcs].
  cbn [execAll fold_left]. apply IH; [exact Fcs | apply coherent_exec; assumption].
Qed.

Lemma getAbility_fst i st :
  fst (getAbility i st)
  = List.find (fun a => String.eqb (ab_id a) i) (fst (loadAbilities st)).
Proof. unfold getAbility. destruct (loadAbilities st). reflexivity. Qed.

Lemma getAbility_file i l :
  fst (getAbility i (mkStore (Some l) None)) = List.find (fun a => String.eqb (ab_id a) i) l.
Proof. reflexivity. Qed.

Lemma getAbility_cache i f l :
  fst (getAbility i (mkStore f (Some l))) = List.find (fun a => String.eqb (ab_id a) i) l.
Proof. reflexivity. Qed.

End AbilityServiceFacts.

(** Whatever calls the ability service answers - creations, updates,
    deletions, look-ups and cache resets, with saves that succeed or fail -
    the ids of the stored abilities stay pairwise different, and so do
    those of the cached ones. *)
Theorem ability_ids_stay_unique (cs : list AbilityService.Command)
    (st : AbilityService.Store) :
  AbilityService.uniqueIds st -> AbilityService.uniqueIds (AbilityService.execAll cs st).
Proof. apply AbilityServiceFacts.uniqueIds_execAll. Qed.

Lemma ability_ids_stay_unique_witness :
  AbilityService.uniqueIds
    (AbilityService.execAll
       [AbilityService.Create spark false; AbilityService.Create spark true;
        AbilityService.Update "nuke" spark true] stocked).
Proof.
  apply (ability_ids_stay_unique _ stocked). split; cbn.
  - apply NoDup_singleton.
  - intros c Hc. discriminate Hc.
Defined.

(** As long as the saves of createAbility and updateAbility succeed, a
    filled cache holds exactly what the file holds. *)
Theorem cache_coherent_while_saves_succeed (cs : list AbilityService.Command)
    (st : AbilityService.Store) :
  Forall (fun c => AbilityService.saves c = true) cs ->
  AbilityService.coherent st -> AbilityService.coherent (AbilityService.execAll cs st).
Proof. apply AbilityServiceFacts.coherent_execAll. Qed.

Lemma cache_coherent_while_saves_succeed_witness :
  AbilityService.coherent
    (AbilityService.execAll
       [AbilityService.Get "nuke"; AbilityService.Create spark true;
        AbilityService.Delete "nuke" false; AbilityService.Get "spark"] stocked).
Proof.
  apply (cache_coherent_while_saves_succeed _ stocked).
  - repeat constructor.
  - intros c Hc. discriminate Hc.
Defined.

(** When createAbility returns, the save has succeeded, the ability has
    non-empty id, name and type and an id that was not in use, the file
    holds the former abilities followed by it, the cache is empty, and
    getAbility finds it under its id and answers for every other id as
    before. *)
Theorem created_ability_is_found (abilityData a : Ability) (ok : bool)
    (st st' : AbilityService.Store) :
  AbilityService.createAbility abilityData ok st = (AbilityService.Returned a, st') ->
  let former := fst (AbilityService.loadAbilities st) in
  a = abilityData /\ ok = true /\
  ab_id a <> ""%string /\ ab_name a <> ""%string /\ ab_type a <> ""%string /\
  (ab_id a ∉ ab_id <$> former) /\
  st' = AbilityService.mkStore (Some (former ++ [a])) None /\
  fst (AbilityService.getAbility (ab_id a) st') = Some a /\
  (forall i, i <> ab_id a ->
     fst (AbilityService.getAbility i st') = fst (AbilityService.getAbility i st)).
Proof.
  intros H. cbv zeta. unfold AbilityService.createAbility in H.
  destruct (AbilityService.blank (ab_id abilityData)) eqn:B1; [discriminate H|].
  destruct (AbilityService.blank (ab_name abilityData)) eqn:B2; [discriminate H|].
  destruct (AbilityService.blank (ab_type abilityData)) eqn:B3; [discriminate H|].
  cbn [orb] in H.
  pose proof (AbilityServiceFacts.getAbility_fst) as G.
  destruct (AbilityService.loadAbilities st) as [abs st1] eqn:L.
  destruct (existsb _ abs) eqn:X; [discriminate H|].
  apply AbilityServiceFacts.existsb_id_false in X.
  destruct ok; cbn [AbilityService.writeDataFile] in H; [|discriminate H].
  injection H as <- <-. cbn [fst].
  unfold AbilityService.blank in B1, B2, B3. rewrite String.eqb_neq in B1, B2, B3.
  unfold AbilityService.clearAbilityCache. cbn [AbilityService.file].
  split; [reflexivity|]. split; [reflexivity|].
  split; [exact B1|]. split; [exact B2|]. split; [exact B3|]. split; [exact X|].
  split; [reflexivity|]. rewrite !AbilityServiceFacts.getAbility_file.
  split; [apply AbilityServiceFacts.find_id_app; [exact X | reflexivity]|].
  intros i Hi. rewrite (G i st), L. cbn [fst].
  apply AbilityServiceFacts.find_id_app_other. congruence.
Qed.

Lemma created_ability_is_found_witness :
  AbilityService.createAbility spark true stocked
  = (AbilityService.Returned spark, AbilityService.mkStore (Some [nuke; spark]) None) /\
  fst (AbilityService.getAbility "spark"
         (AbilityService.mkStore (Some [nuke; spark]) None)) = Some spark.
Proof.
  assert (H : AbilityService.createAbility spark true stocked
              = (AbilityService.Returned spark,
                 AbilityService.mkStore (Some [nuke; spark]) None)) by reflexivity.
  split; [exact H|].
  destruct (created_ability_is_found spark spark true stocked _ H)
    as (_ & _ & _ & _ & _ & _ & _ & F & _).
  exact F.
Defined.

(** When updateAbility returns, the save has succeeded and an ability
    with the given id existed; what is stored in its place is the new data
    under the old id, whatever id the data carried; the ids of the
    catalogue are the same as before; getAbility finds the stored ability
    under the id and answers for every other id as before. *)
Theorem updated_ability_keeps_id (abilityId : string) (abilityData u : Ability) (ok : bool)
    (st st' : AbilityService.Store) :
  AbilityService.updateAbility abilityId abilityData ok st
  = (AbilityService.Returned u, st') ->
  let former := fst (AbilityService.loadAbilities st) in
  u = AbilityService.withId abilityData abilityId /\ ab_id u = abilityId /\ ok = true /\
  AbilityService.abilityCache st' = None /\
  ab_id <$> AbilityService.readDataFile st' = ab_id <$> former /\
  abilityId ∈ ab_id <$> former /\
  fst (AbilityService.getAbility abilityId st') = Some u /\
  (forall i, i <> abilityId ->
     fst (AbilityService.getAbility i st') = fst (AbilityService.getAbility i st)).
Proof.
  intros H. cbv zeta. unfold AbilityService.updateAbility in H.
  pose proof (AbilityServiceFacts.getAbility_fst) as G.
  destruct (AbilityService.loadAbilities st) as [abs st1] eqn:L.
  destruct (list_find _ abs) as [[n x]|] eqn:F; [|discriminate H].
  destruct ok; cbn [AbilityService.writeDataFile] in H; [|discriminate H].
  injection H as <- <-. cbn [fst].
  unfold AbilityService.clearAbilityCache, AbilityService.readDataFile.
  cbn [AbilityService.file AbilityService.abilityCache].
  pose proof (AbilityServiceFacts.find_id_insert) as FI.
  split; [reflexivity|]. split; [reflexivity|]. split; [reflexivity|].
  split; [reflexivity|].
  split; [apply (AbilityServiceFacts.ids_insert abilityId abs n x (AbilityService.withId abilityData abilityId) F eq_refl)|].
  split.
  { apply list_find_Some in F as (Hl & Hx & _). apply list_elem_of_fmap.
    exists x. split; [symmetry; exact Hx | eapply list_elem_of_lookup_2; eassumption]. }
  rewrite !AbilityServiceFacts.getAbility_file.
  split.
  - rewrite (FI abilityId abilityId abs n x (AbilityService.withId abilityData abilityId) F eq_refl),
      String.eqb_refl. reflexivity.
  - intros i Hi. rewrite AbilityServiceFacts.getAbility_file.
    rewrite (FI i abilityId abs n x (AbilityService.withId abilityData abilityId) F eq_refl).
    apply String.eqb_neq in Hi. rewrite Hi, (G i st), L. reflexivity.
Qed.

Lemma updated_ability_keeps_id_witness :
  AbilityService.updateAbility "nuke" spark true stocked
  = (AbilityService.Returned (AbilityService.withId spark "nuke"),
     AbilityService.mkStore (Some [AbilityService.withId spark "nuke"]) None) /\
  fst (AbilityService.getAbility "nuke"
         (AbilityService.mkStore (Some [AbilityService.withId spark "nuke"]) None))
  = Some (AbilityService.withId spark "nuke").
Proof.
  assert (H : AbilityService.updateAbility "nuke" spark true stocked
              = (AbilityService.Returned (AbilityService.withId spark "nuke"),
                 AbilityService.mkStore (Some [AbilityService.withId spark "nuke"]) None))
    by reflexivity.
  split; [exact H|].
  destruct (updated_ability_keeps_id "nuke" spark _ true stocked _ H)
    as (_ & _ & _ & _ & _ & _ & F & _).
  exact F.
Defined.

(** When deleteAbility returns, it returns true, the save has succeeded
    and an ability with the id existed; afterwards getAbility finds
    nothing under the id and answers for every other id as before. *)
Theorem deleted_ability_is_gone (abilityId : string) (b ok : bool)
    (st st' : AbilityService.Store) :
  AbilityService.deleteAbility abilityId ok st = (AbilityService.Returned b, st') ->
  let former := fst (AbilityService.loadAbilities st) in
  b = true /\ ok = true /\
  abilityId ∈ ab_id <$> former /\
  AbilityService.abilityCache st' = None /\
  fst (AbilityService.getAbility abilityId st') = None /\
  (forall i, i <> abilityId ->
     fst (AbilityService.getAbility i st') = fst (AbilityService.getAbility i st)).
Proof.
  intros H. cbv zeta. unfold AbilityService.deleteAbility in H.
  pose proof (AbilityServiceFacts.getAbility_fst) as G.
  destruct (AbilityService.loadAbilities st) as [abs st1] eqn:L.
  destruct (_ =? _)%nat eqn:E; [discriminate H|].
  destruct ok; cbn [AbilityService.writeDataFile] in H; [|discriminate H].
  injection H as <- <-. cbn [fst].
  unfold AbilityService.clearAbilityCache.
  cbn [AbilityService.file AbilityService.abilityCache].
  split; [reflexivity|]. split; [reflexivity|].
  split.
  { destruct (decide (abilityId ∈ ab_id <$> abs)) as [Hin|Hout]; [exact Hin|].
    apply AbilityServiceFacts.filter_same_length in Hout. congruence. }
  split; [reflexivity|].
  rewrite !AbilityServiceFacts.getAbility_file.
  split.
  - rewrite AbilityServiceFacts.find_id_filter, String.eqb_refl. reflexivity.
  - intros i Hi. rewrite AbilityServiceFacts.getAbility_file.
    rewrite AbilityServiceFacts.find_id_filter.
    apply String.eqb_neq in Hi. rewrite Hi, (G i st), L. reflexivity.
Qed.

Lemma deleted_ability_is_gone_witness :
  AbilityService.deleteAbility "nuke" true stocked
  = (AbilityService.Returned true, AbilityService.mkStore (Some []) None) /\
  fst (AbilityService.getAbility "nuke" (AbilityService.mkStore (Some []) None)) = None.
Proof.
  assert (H : AbilityService.deleteAbility "nuke" true stocked
              = (AbilityService.Returned true, AbilityService.mkStore (Some []) None))
    by reflexivity.
  split; [exact H|].
  destruct (deleted_ability_is_gone "nuke" true true stocked _ H) as (_ & _ & _ & _ & F & _).
  exact F.
Defined.

(** When createAbility fails to save, the file is as before but the
    cache keeps the unsaved ability: getAbility finds it, and every
    further attempt to create it is refused as a duplicate, until the
    cache is cleared.  From a coherent state, the ability is unknown again
    once the cache is cleared. *)
Theorem unsaved_ability_stays_cached (abilityData : Ability) (ok : bool)
    (st st' : AbilityService.Store) :
  AbilityService.createAbility abilityData ok st
  = (AbilityService.Thrown AbilityService.SaveFailed, st') ->
  ok = false /\
  AbilityService.file st' = AbilityService.file st /\
  fst (AbilityService.getAbility (ab_id abilityData) st') = Some abilityData /\
  (forall ok', AbilityService.createAbility abilityData ok' st'
               = (AbilityService.Thrown (AbilityService.AlreadyExists (ab_id abilityData)),
                  st')) /\
  (AbilityService.coherent st ->
   ~ AbilityService.coherent st' /\
   fst (AbilityService.getAbility (ab_id abilityData) (AbilityService.clearAbilityCache st'))
   = None).
Proof.
  intros H. unfold AbilityService.createAbility in H.
  destruct (AbilityService.blank (ab_id abilityData) || AbilityService.blank (ab_name abilityData)
            || AbilityService.blank (ab_type abilityData)) eqn:B; [discriminate H|].
  pose proof (AbilityServiceFacts.loadAbilities_cached st) as (LC & LF & LN & LS).
  destruct (AbilityService.loadAbilities st) as [abs st1] eqn:L. cbn [fst snd] in *.
  destruct (existsb _ abs) eqn:X; [discriminate H|].
  pose proof X as X'. apply AbilityServiceFacts.existsb_id_false in X'.
  destruct ok; cbn [AbilityService.writeDataFile] in H; [discriminate H|].
  injection H as <-. cbn [AbilityService.file].
  pose proof (AbilityServiceFacts.find_id_app _ abs abilityData X' eq_refl) as FA.
  split; [reflexivity|]. split; [exact LF|].
  rewrite AbilityServiceFacts.getAbility_cache.
  split; [exact FA|]. split.
  - intros ok'. unfold AbilityService.createAbility. rewrite B.
    cbn [AbilityService.loadAbilities AbilityService.abilityCache].
    assert (E : existsb (fun a => String.eqb (ab_id a) (ab_id abilityData))
                  (abs ++ [abilityData]) = true).
    { rewrite existsb_app. cbn. rewrite String.eqb_refl. apply orb_true_r. }
    rewrite E. reflexivity.
  - intros C.
    assert (A : abs = AbilityService.readDataFile st).
    { destruct (AbilityService.abilityCache st) as [c|] eqn:Ec.
      - rewrite (LS c eq_refl). apply C, Ec.
      - apply LN. reflexivity. }
    split.
    + intros C'. specialize (C' _ eq_refl).
      unfold AbilityService.readDataFile in C', A. cbn [AbilityService.file] in C'.
      rewrite LF, <- A in C'.
      apply (f_equal (@length Ability)) in C'. rewrite length_app in C'. cbn in C'. lia.
    + unfold AbilityService.getAbility, AbilityService.loadAbilities,
        AbilityService.clearAbilityCache.
      cbn [AbilityService.abilityCache AbilityService.file fst].
      unfold AbilityService.readDataFile in *. cbn [AbilityService.file].
      rewrite LF, <- A.
      destruct (List.find _ abs) as [y|] eqn:Fy; [|reflexivity].
      apply find_some in Fy as [Hin Hy]. apply String.eqb_eq in Hy.
      exfalso. apply X'. apply list_elem_of_fmap. exists y.
      split; [symmetry; exact Hy | apply list_elem_of_In, Hin].
Qed.

Lemma unsaved_ability_stays_cached_witness :
  let st' := AbilityService.mkStore (Some [nuke]) (Some [nuke; spark]) in
  AbilityService.createAbility spark false stocked
  = (AbilityService.Thrown AbilityService.SaveFailed, st') /\
  fst (AbilityService.getAbility "spark" st') = Some spark /\
  AbilityService.createAbility spark true st'
  = (AbilityService.Thrown (AbilityService.AlreadyExists "spark"), st').
Proof.
  cbv zeta.
  assert (H : AbilityService.createAbility spark false stocked
              = (AbilityService.Thrown AbilityService.SaveFailed,
                 AbilityService.mkStore (Some [nuke]) (Some [nuke; spark]))) by reflexivity.
  split; [exact H|].
  destruct (unsaved_ability_stays_cached spark false stocked _ H) as (_ & _ & F & R & _).
  split; [exact F | exact (R true)].
Defined.

(** ** Health and mana stay within their bounds *)

Lemma Math_round_nonneg (x : Q) : 0 <= x -> 0 <= Math_round x.
Proof.
  intros H. pose proof (Math_round_mono 0 x H) as M.
  pose proof (Math_round_Z 0) as Z0. change (inject_Z 0) with 0 in Z0.
  revert M Z0. generalize (Math_round 0) (Math_round x). intros; lra.
Qed.

Lemma Math_min_cases (x y : Q) :
  (Math_min x y == x /\ x <= y) \/ (Math_min x y == y /\ y <= x).
Proof.
  unfold Math_min. destruct (Qlt_le_dec y x) as [H|H].
  - right. split; [apply Q.min_r; lra | lra].
  - left. split; [apply Q.min_l; exact H | exact H].
Qed.

Lemma Bnd_pushLog t m s : Bnd s -> Bnd (pushLog t m s).
Proof. intros H [|]; [exact (H First) | exact (H Second)]. Qed.

Lemma Bnd_if (b : bool) s1 s2 : Bnd s1 -> Bnd s2 -> Bnd (if b then s1 else s2).
Proof. destruct b; auto. Qed.

Lemma Bnd_updC x f s :
  Bnd s -> (bounded (getC s x) -> bounded (f (getC s x))) -> Bnd (updC x f s).
Proof.
  intros H Hf sd. destruct (decide (sd = x)) as [->|Hne].
  - rewrite getC_updC_same. apply Hf, H.
  - assert (sd = other x) as -> by (destruct sd, x; cbn; congruence).
    rewrite getC_updC_other. apply H.
Qed.

Lemma Bnd_draws s l r w n :
  Bnd s -> Bnd (mkBattleState (character1 s) (character2 s) l r w n).
Proof. intros H [|]; [exact (H First) | exact (H Second)]. Qed.

Lemma bounded_hit (d : Q) (c : Character) :
  0 <= d -> bounded c -> bounded (set_currentHealth (nsub (currentHealth c) d) c).
Proof.
  intros Hd [H1 H2 H3 H4].
  constructor; cbn [set_currentHealth currentHealth currentMana stats periodicEffects];
    try assumption.
  destruct (currentHealth c); cbn in *; [lra | contradiction].
Qed.

Lemma bounded_heal (h : Q) (c : Character) :
  bounded c ->
  bounded (set_currentHealth (nmin (health (stats c)) (nadd (currentHealth c) h)) c).
Proof.
  intros [H1 H2 H3 H4].
  constructor; cbn [set_currentHealth currentHealth currentMana stats periodicEffects];
    try assumption.
  destruct (currentHealth c); cbn in *; [apply Math_min_le_l | contradiction].
Qed.

Lemma bounded_gain (g : Q) (c : Character) :
  0 <= g -> bounded c ->
  bounded (set_currentMana (nmin (mana (stats c)) (nadd (currentMana c) g)) c).
Proof.
  intros Hg [H1 H2 H3 H4].
  constructor; cbn [set_currentMana currentHealth currentMana stats periodicEffects];
    try assumption.
  destruct (currentMana c) as [m|]; cbn in *; [|contradiction].
  split; [|apply Math_min_le_l].
  destruct (Math_min_cases (mana (stats c)) (m + g)) as [[E L]|[E L]]; rewrite E; lra.
Qed.

Lemma bounded_drain (g : Q) (c : Character) :
  0 <= g -> bounded c ->
  bounded (set_currentMana (nsub (currentMana c) (nmin (currentMana c) g)) c).
Proof.
  intros Hg [H1 H2 H3 H4].
  constructor; cbn [set_currentMana currentHealth currentMana stats periodicEffects];
    try assumption.
  destruct (currentMana c) as [m|]; cbn in *; [|contradiction].
  destruct (Math_min_cases m g) as [[E L]|[E L]]; rewrite E; lra.
Qed.

Lemma bounded_effects (es : list PeriodicEffect) (c : Character) :
  Forall okEffect es -> bounded c -> bounded (set_periodicEffects es c).
Proof. intros He [H1 H2 H3 H4]. constructor; cbn; assumption. Qed.

Ltac bnd_step :=
  lazymatch goal with
  | |- Bnd (pushLog _ _ _) => apply Bnd_pushLog
  | |- Bnd (if _ then _ else _) => apply Bnd_if
  | |- Bnd (mkBattleState (character1 ?s) (character2 ?s) _ _ _ _) => apply Bnd_draws
  end.

Section Bounds.

Variable random : nat -> Q.
Variable abilities : list Ability.

Lemma Bnd_performPhysicalAttack s a t n m g :
  Bnd s -> Bnd (snd (performPhysicalAttack random s a t n m g)).
Proof.
  intros H.
  unfold performPhysicalAttack, randomInt, calculateCritical, Math_random.
  destruct g; cbv zeta; cbn [snd fst]; repeat bnd_step;
    (apply Bnd_updC; [repeat bnd_step; exact H|]);
    apply bounded_hit;
    (eapply Qle_trans; [|apply applyDamageReduction_min]); lra.
Qed.

Lemma Bnd_performMagicAttack s a t n m :
  Bnd s -> Bnd (snd (performMagicAttack random abilities s a t n m)).
Proof.
  intros H.
  unfold performMagicAttack, randomInt, calculateCritical, Math_random.
  cbv zeta; cbn [snd fst]; repeat bnd_step;
    (apply Bnd_updC; [repeat bnd_step; exact H|]);
    apply bounded_hit;
    (eapply Qle_trans; [|apply applyDamageReduction_min]); lra.
Qed.

Lemma Bnd_performBasicAttack s a t :
  Bnd s -> Bnd (performBasicAttack random abilities s a t).
Proof.
  intros H. unfold performBasicAttack. apply Bnd_if.
  - apply Bnd_performMagicAttack, H.
  - apply Bnd_performPhysicalAttack, H.
Qed.

Lemma Bnd_applyHeal s a t he : Bnd s -> Bnd (snd (applyHeal s a t he)).
Proof.
  intros H. unfold applyHeal. cbv zeta. cbn [snd]. apply Bnd_pushLog.
  apply Bnd_updC; [exact H|]. apply bounded_heal.
Qed.

Lemma Bnd_applyBuff s target t b : Bnd s -> Bnd (applyBuff s target t b).
Proof.
  intros H. unfold applyBuff.
  destruct (findBuff _ _) as [[i ex]|]; cbv zeta; apply Bnd_pushLog;
    (apply Bnd_updC; [exact H|]); intros [H1 H2 H3 H4]; constructor; assumption.
Qed.

Lemma Bnd_applyPeriodicEffect s src target t e :
  okEffect e -> Bnd s -> Bnd (applyPeriodicEffect s src target t e).
Proof.
  intros He H. unfold applyPeriodicEffect.
  destruct (findEffect _ _) as [[i ex]|] eqn:F; cbv zeta; apply Bnd_pushLog;
    (apply Bnd_updC; [exact H|]); intros B; apply bounded_effects; try exact B.
  - apply list_find_Some in F as (Hl & _).
    apply Forall_insert; [apply B|].
    pose proof (bnd_effects _ B) as A. rewrite Forall_forall in A.
    apply (A ex). eapply list_elem_of_lookup_2; eassumption.
  - apply Forall_app. split; [apply B|]. constructor; [exact He | constructor].
Qed.

Lemma Bnd_multiAttackHit s a t ab k :
  Bnd s -> Bnd (multiAttackHit random abilities s a t ab k).
Proof.
  intros H. unfold multiAttackHit.
  apply Bnd_if; [apply Bnd_performPhysicalAttack, H |].
  apply Bnd_if; [apply Bnd_performMagicAttack, H | apply Bnd_performPhysicalAttack, H].
Qed.

Lemma Bnd_multiAttackLoop n : forall i s a t ab d,
  Bnd s -> Bnd (multiAttackLoop random abilities n i s a t ab d).
Proof.
  induction n as [|n IH]; intros i s a t ab d H; cbn [multiAttackLoop]; [exact H|].
  apply Bnd_if; [exact H|]. apply IH, Bnd_multiAttackHit, H.
Qed.

Lemma Bnd_processMultiAttackAbility s a t ab ma :
  Bnd s -> Bnd (processMultiAttackAbility random abilities s a t ab ma).
Proof.
  intros H. unfold processMultiAttackAbility.
  apply Bnd_multiAttackLoop, Bnd_multiAttackHit, Bnd_pushLog, H.
Qed.

Lemma Bnd_processBuffAbility s a t ab be :
  Bnd s -> Bnd (processBuffAbility s a t ab be).
Proof.
  intros H. unfold processBuffAbility. cbv zeta.
  repeat (apply Bnd_if); apply Bnd_pushLog, Bnd_applyBuff, H.
Qed.

Lemma Bnd_processHealAbility s a t ab he :
  Bnd s -> Bnd (processHealAbility s a t ab he).
Proof.
  intros H. unfold processHealAbility. apply Bnd_applyHeal, Bnd_pushLog, H.
Qed.

Lemma Bnd_processDotAbility s a t ab de :
  0 <= de_damage de /\ readsAmount (de_type de) = false ->
  Bnd s -> Bnd (processDotAbility random abilities s a t ab de).
Proof.
  intros [Hd Hty] H. unfold processDotAbility. cbv zeta.
  apply Bnd_applyPeriodicEffect.
  { split; cbn [pe_type pe_damage pe_amount]; [eauto | congruence]. }
  apply Bnd_if; [apply Bnd_performPhysicalAttack, H |].
  apply Bnd_if; [apply Bnd_performMagicAttack, H | exact H].
Qed.

Lemma Bnd_processPeriodicAbility s a t ab ps :
  0 <= ps_amount ps /\ readsDamage (ps_type ps) = false ->
  Bnd s -> Bnd (processPeriodicAbility s a t ab ps).
Proof.
  intros [Hp Hty] H. unfold processPeriodicAbility. cbv zeta.
  match goal with
  | |- context [applyPeriodicEffect s a (other a) t ?E] =>
      assert (H1 : Bnd (applyPeriodicEffect s a (other a) t E))
        by (apply Bnd_applyPeriodicEffect;
            [split; cbn [pe_type pe_damage pe_amount]; [congruence | eauto] | exact H]);
      generalize dependent (applyPeriodicEffect s a (other a) t E)
  end.
  intros s1 H1. apply Bnd_if; [|apply Bnd_pushLog, H1].
  assert (H2 : Bnd (updC (other a)
                      (fun d => set_currentMana
                         (nsub (currentMana d)
                            (nmin (currentMana (getC s1 (other a))) (ps_amount ps))) d) s1)).
  { apply Bnd_updC; [exact H1|]. apply bounded_drain, Hp. }
  apply Bnd_if; repeat apply Bnd_pushLog;
    (apply Bnd_updC; [exact H2|]); apply bounded_gain, Hp.
Qed.

Lemma Bnd_processDamageAbility s a t ab :
  saneAbility ab -> Bnd s -> Bnd (processDamageAbility random abilities s a t ab).
Proof.
  intros (_ & _ & _ & Hc) H. unfold processDamageAbility.
  apply Bnd_if; [apply Bnd_performPhysicalAttack, H |].
  apply Bnd_if; [| apply Bnd_performBasicAttack, H].
  pose proof (Bnd_performMagicAttack s a t (ab_name ab)
                (orElse (ab_damageMultiplier ab) (15 # 10)) H) as Hq.
  destruct (performMagicAttack _ _ _ _ _ _ _) as [res s1]. cbn [snd] in Hq.
  cbv zeta.
  match goal with
  | |- context [match ab_criticalEffect ab with Some _ => _ | None => ?S end] =>
      assert (Hs : Bnd S)
  end.
  { apply Bnd_if; [|exact Hq].
    destruct (gtq (Math_round _) 0) eqn:G; [|exact Hq].
    apply gtq_iff in G.
    apply Bnd_if; repeat apply Bnd_pushLog;
      (apply Bnd_updC; [exact Hq|]); apply bounded_hit; lra. }
  destruct (ab_criticalEffect ab) as [ce|]; [|exact Hs].
  apply Bnd_if; [|exact Hs].
  apply Bnd_pushLog, Bnd_applyPeriodicEffect; [|exact Hs].
  split; cbn [pe_type pe_damage pe_amount]; [|discriminate].
  intros _. eexists. split; [reflexivity|]. apply Math_round_nonneg.
  match goal with |- context [getC ?S a] => pose proof (bnd_magic _ (Hs a)) as M end.
  specialize (Hc ce eq_refl).
  apply Qmult_le_0_compat.
  - apply Qle_shift_div_l; lra.
  - apply Qle_shift_div_l; lra.
Qed.

Lemma Bnd_processAbility s a t ab :
  saneAbility ab -> Bnd s -> Bnd (processAbility random abilities s a t ab).
Proof.
  intros Hs H. pose proof Hs as (_ & Hp & Hd & _). unfold processAbility.
  destruct (ab_buffEffect ab); [apply Bnd_processBuffAbility, H|].
  destruct (ab_healEffect ab); [apply Bnd_processHealAbility, H|].
  destruct (ab_dotEffect ab) as [de|]; [apply Bnd_processDotAbility; auto|].
  destruct (ab_periodicEffect ab) as [ps|]; [apply Bnd_processPeriodicAbility; auto|].
  destruct (ab_guaranteedCrit ab); [apply Bnd_performPhysicalAttack, H|].
  destruct (ab_multiAttack ab); [apply Bnd_processMultiAttackAbility, H|].
  apply Bnd_processDamageAbility; assumption.
Qed.

Lemma Bnd_processAttack s a t :
  Forall saneAbility abilities -> Bnd s -> Bnd (processAttack random abilities s a t).
Proof.
  intros Hcat H. rewrite processAttack_unfold.
  destruct (usableAbility abilities (getC s a) t) as [ab|] eqn:U;
    [|apply Bnd_performBasicAttack, H].
  destruct (usableAbility_slot abilities _ _ _ U) as (_ & Hin & Hm & _).
  rewrite Forall_forall in Hcat.
  pose proof (Hcat ab (proj2 (list_elem_of_In _ _) Hin)) as Hs.
  cbv zeta.
  apply Bnd_updC; [|intros [H1 H2 H3 H4]; constructor; assumption].
  apply Bnd_processAbility; [exact Hs|].
  apply Bnd_updC; [|intros [H1 H2 H3 H4]; constructor; assumption].
  destruct (truthy (ab_manaCost ab)) eqn:T; [|exact H].
  apply Bnd_updC; [exact H|]. intros [H1 H2 H3 H4].
  unfold hasEnoughMana in Hm. rewrite T in Hm. cbn [negb orb] in Hm.
  destruct Hs as (Hc & _).
  constructor; cbn [set_currentMana currentHealth currentMana stats periodicEffects];
    try assumption.
  destruct (currentMana (getC s a)) as [m|]; cbn in *; [|contradiction].
  apply geq_iff in Hm. lra.
Qed.

Lemma Bnd_tickEffect s c t e : okEffect e -> Bnd s -> Bnd (tickEffect s c t e).
Proof.
  intros [Hd Ha] H. unfold tickEffect. cbv zeta.
  destruct (String.eqb (pe_type e) "poison") eqn:E1.
  { destruct Hd as (d & -> & Hd); [unfold readsDamage; rewrite E1; reflexivity|].
    apply Bnd_if; repeat apply Bnd_pushLog;
      (apply Bnd_updC; [exact H|]); apply bounded_hit, Hd. }
  destruct (String.eqb (pe_type e) "burning") eqn:E2.
  { destruct Hd as (d & -> & Hd); [unfold readsDamage; rewrite E1, E2; reflexivity|].
    apply Bnd_if; repeat apply Bnd_pushLog;
      (apply Bnd_updC; [exact H|]); apply bounded_hit, Hd. }
  destruct (String.eqb (pe_type e) "manaDrain") eqn:E3.
  { destruct Ha as (x & -> & Ha); [unfold readsAmount; rewrite E3; reflexivity|].
    cbn [fieldNumber].
    assert (H2 : Bnd (updC c
                        (fun ch => set_currentMana
                           (nsub (currentMana ch) (nmin (currentMana (getC s c)) x))
                           ch) s)).
    { apply Bnd_updC; [exact H|]. apply bounded_drain, Ha. }
    apply Bnd_if; repeat apply Bnd_pushLog;
      (apply Bnd_updC; [exact H2|]); apply bounded_gain, Ha. }
  destruct (String.eqb (pe_type e) "regeneration") eqn:E4.
  { destruct Ha as (x & -> & Ha); [unfold readsAmount; rewrite E3, E4; reflexivity|].
    apply Bnd_pushLog. apply Bnd_updC; [exact H|]. apply bounded_heal. }
  destruct (String.eqb (pe_type e) "manaRegen") eqn:E5; [|exact H].
  destruct Ha as (x & -> & Ha); [unfold readsAmount; rewrite E3, E4, E5; reflexivity|].
  apply Bnd_pushLog. apply Bnd_updC; [exact H|]. apply bounded_gain, Ha.
Qed.

Lemma Bnd_effectStep s c t i : Bnd s -> Bnd (effectStep s c t i).
Proof.
  intros H. unfold effectStep. destruct (_ !! i) as [e|] eqn:L; [|exact H].
  assert (He : okEffect e).
  { pose proof (bnd_effects _ (H c)) as A. rewrite Forall_forall in A.
    apply A. eapply list_elem_of_lookup_2; eassumption. }
  cbv zeta.
  assert (H1 : Bnd (if effectDue t e
                    then updC c (fun ch => set_periodicEffects
                                   (<[i := set_pe_lastProcTime t e]> (periodicEffects ch)) ch)
                           (tickEffect s c t e)
                    else s)).
  { apply Bnd_if; [|exact H].
    pose proof (Bnd_tickEffect s c t e He H) as Ht.
    apply Bnd_updC; [exact Ht|]. intros B. apply bounded_effects; [|exact B].
    apply Forall_insert; [apply B | exact He]. }
  apply Bnd_if; [|exact H1].
  apply Bnd_pushLog. apply Bnd_updC; [exact H1|]. intros B.
  apply bounded_effects; [|exact B].
  apply Forall_delete, B.
Qed.

Lemma Bnd_effectsLoop n : forall s c t, Bnd s -> Bnd (effectsLoop n s c t).
Proof.
  induction n as [|n IH]; intros s c t H; cbn [effectsLoop]; [exact H|].
  apply IH, Bnd_effectStep, H.
Qed.

Lemma Bnd_buffStep s c t i : Bnd s -> Bnd (buffStep s c t i).
Proof.
  intros H. unfold buffStep. destruct (_ !! i) as [b|]; [|exact H].
  apply Bnd_if; [|exact H]. cbv zeta. apply Bnd_pushLog.
  apply Bnd_updC; [exact H|]. intros [H1 H2 H3 H4]. constructor; assumption.
Qed.

Lemma Bnd_buffsLoop n : forall s c t, Bnd s -> Bnd (buffsLoop n s c t).
Proof.
  induction n as [|n IH]; intros s c t H; cbn [buffsLoop]; [exact H|].
  apply IH, Bnd_buffStep, H.
Qed.

Lemma Bnd_processEffects s t : Bnd s -> Bnd (processEffects s t).
Proof.
  intros H. unfold processEffects, processCharacterEffects. cbv zeta.
  repeat (apply Bnd_buffsLoop || apply Bnd_effectsLoop). exact H.
Qed.

Lemma Bnd_battleRound sch :
  Forall saneAbility abilities ->
  Bnd (battleState sch) -> Bnd (battleState (battleRound random abilities sch)).
Proof.
  intros Hcat H. unfold battleRound.
  destruct (leq _ _); cbn [battleState]; unfold incr_rounds;
    apply Bnd_draws, Bnd_processEffects, Bnd_processAttack; assumption.
Qed.

Lemma Bnd_initial d1 d2 :
  saneStats (cd_stats d1) -> saneStats (cd_stats d2) ->
  Bnd (battleState (initialSchedule d1 d2)).
Proof.
  intros [M1 G1] [M2 G2] [|]; constructor; cbn; try assumption; try lra; constructor.
Qed.

(** With a catalogue free of negative mana costs, periodic amounts,
    damage over time and burning percentages, whose effects carry the
    field that the tick of their type reads, and combatants whose mana
    pool and magic damage range are not negative: in every state that the
    battle loop reaches, each combatant's health and mana are numbers,
    the health is at most its maximum and the mana lies between 0 and
    its maximum. *)
Theorem resources_stay_in_bounds (d1 d2 : CharacterData) (n : nat) (sd : Side) :
  Forall saneAbility abilities ->
  saneStats (cd_stats d1) -> saneStats (cd_stats d2) ->
  let c := getC (battleState (Nat.iter n (battleRound random abilities)
                                (initialSchedule d1 d2))) sd in
  (exists h m,
     currentHealth c = Finite h /\ currentMana c = Finite m /\
     h <= health (stats c) /\ 0 <= m <= mana (stats c)) /\
  stats c = cd_stats (dataOf d1 d2 sd).
Proof.
  intros Hcat S1 S2. cbv zeta.
  assert (B : Bnd (battleState (Nat.iter n (battleRound random abilities)
                                  (initialSchedule d1 d2)))).
  { induction n as [|k IH]; [apply Bnd_initial; assumption|].
    rewrite Nat.iter_succ. apply Bnd_battleRound; assumption. }
  destruct (B sd) as [H1 H2 _ _].
  split.
  - destruct (currentHealth _) as [h|]; [|contradiction].
    destruct (currentMana _) as [m|]; [|contradiction].
    exists h, m. cbn in H1, H2. auto.
  - apply (inv_stats _ _ _ (Inv_iter_battleRound random abilities _ d1 d2
                              (catalogueOk_lowerFactor abilities d1 d2) n _
                              (Inv_initial _ d1 d2) sd)).
Qed.

End Bounds.

Lemma resources_stay_in_bounds_witness :
  let c := getC (battleState (Nat.iter 3 (battleRound halves [nuke])
                                (initialSchedule mage dummy))) Second in
  (exists h m,
     currentHealth c = Finite h /\ currentMana c = Finite m /\
     h <= health (stats c) /\ 0 <= m <= mana (stats c)) /\
  stats c = cd_stats (dataOf mage dummy Second).
Proof.
  apply (resources_stay_in_bounds halves [nuke] mage dummy 3 Second).
  - constructor; [|constructor].
    split; [cbn; lra|]. split; [|split]; intros x Hx; discriminate Hx.
  - split; cbn; lra.
  - split; cbn; lra.
Defined.

(** ** Experience awards *)

Lemma orLevel_ge_1 (o : option Z) :
  (forall l, o = Some l -> (0 <= l)%Z) -> (1 <= orLevel o)%Z.
Proof.
  intros H. unfold orLevel. destruct o as [l|]; [|lia].
  specialize (H l eq_refl). destruct (Z.eqb_spec l 0); lia.
Qed.

(** What awardExperience does to one of two different characters. *)
Lemma awarded_entry (fuel : nat) (c : StoredCharacter) (gained : Q) :
  (forall l, sc_level c = Some l -> (0 <= l)%Z) ->
  orElse (sc_experience c) 0 + gained < 100 * (inject_Z (Z.of_nat fuel) + 1) ->
  exists (k : nat) (c' : StoredCharacter) (e' : Q),
    applyPendingLevelUps fuel (addExperience gained (initProgress c)) = Some c' /\
    (k <= fuel)%nat /\
    canLevelUp c' = false /\
    sc_id c' = sc_id c /\
    sc_level c' = Some (orLevel (sc_level c) + Z.of_nat k)%Z /\
    sc_experience c' = Some e' /\
    e' + expSpent (orLevel (sc_level c)) k == orElse (sc_experience c) 0 + gained /\
    pointsOf c' == pointsOf c + 2 * inject_Z (Z.of_nat k).
Proof.
  intros Hl He.
  apply (level_ups_end fuel (addExperience gained (initProgress c))
           (orLevel (sc_level c)) (orElse (sc_experience c) 0 + gained)
           eq_refl eq_refl (orLevel_ge_1 _ Hl) He).
Qed.

Lemma award_lists (i1 i2 : nat) (f1 f2 g1 g2 : StoredCharacter -> StoredCharacter)
    (l1 l2 : StoredCharacter) (cs : list StoredCharacter) :
  <[i2 := l2]> (<[i1 := l1]> (alter g2 i2 (alter g1 i1 (alter f2 i2 (alter f1 i1 cs)))))
  = <[i2 := l2]> (<[i1 := l1]> cs).
Proof.
  apply list_eq. intros j.
  destruct (decide (i2 = j)) as [<-|N2].
  - destruct (decide (i2 < length cs)%nat) as [L|L].
    + rewrite !list_lookup_insert_eq; [reflexivity | |];
        rewrite ?length_insert, ?length_alter; exact L.
    + rewrite !lookup_ge_None_2; [reflexivity | |];
        rewrite ?length_insert, ?length_alter; lia.
  - rewrite !(list_lookup_insert_ne _ i2 j) by exact N2.
    destruct (decide (i1 = j)) as [<-|N1].
    + destruct (decide (i1 < length cs)%nat) as [L|L].
      * rewrite !list_lookup_insert_eq; [reflexivity | |];
          rewrite ?length_alter; exact L.
      * rewrite !lookup_ge_None_2; [reflexivity | |];
          rewrite ?length_insert, ?length_alter; lia.
    + rewrite !(list_lookup_insert_ne _ i1 j) by exact N1.
      rewrite !list_lookup_alter_ne by assumption. reflexivity.
Qed.

(** awardExperience for two different stored characters with levels
    that are absent or not negative: given enough iterations for their
    experience, it writes back the list in which exactly these two
    entries are replaced, each by the character after its award: same
    id, k levels above [level || 1], 2 k more attribute points, unable to
    level up again, and with experience plus the cost of the k levels
    equal to the former experience plus the award. *)
Theorem award_conserves_experience (fuel : nat) (id1 id2 : string) (gained1 gained2 : Q)
    (characters : list StoredCharacter) (i1 i2 : nat) (c1 c2 : StoredCharacter) :
  list_find (fun c => sc_id c = id1) characters = Some (i1, c1) ->
  list_find (fun c => sc_id c = id2) characters = Some (i2, c2) ->
  id1 <> id2 ->
  (forall l, sc_level c1 = Some l -> (0 <= l)%Z) ->
  (forall l, sc_level c2 = Some l -> (0 <= l)%Z) ->
  orElse (sc_experience c1) 0 + gained1 < 100 * (inject_Z (Z.of_nat fuel) + 1) ->
  orElse (sc_experience c2) 0 + gained2 < 100 * (inject_Z (Z.of_nat fuel) + 1) ->
  exists (c1' c2' : StoredCharacter),
    awardExperience fuel id1 id2 gained1 gained2 characters
    = Some (<[i2 := c2']> (<[i1 := c1']> characters)) /\
    awarded gained1 c1 c1' /\ awarded gained2 c2 c2' /\
    sc_id <$> <[i2 := c2']> (<[i1 := c1']> characters) = sc_id <$> characters.
Proof.
  intros F1 F2 Hne L1 L2 E1 E2.
  destruct (awarded_entry fuel c1 gained1 L1 E1)
    as (k1 & c1' & e1' & R1 & _ & A1).
  destruct (awarded_entry fuel c2 gained2 L2 E2)
    as (k2 & c2' & e2' & R2 & _ & A2).
  pose proof F1 as F1'. pose proof F2 as F2'.
  apply list_find_Some in F1' as (Hl1 & Hi1 & _).
  apply list_find_Some in F2' as (Hl2 & Hi2 & _).
  assert (Hi : i1 <> i2) by (intros ->; congruence).
  exists c1', c2'. split; [|split; [|split]].
  - unfold awardExperience. rewrite F1, F2. cbv zeta.
    rewrite (list_lookup_alter_ne _ _ i2 i1) by congruence.
    rewrite list_lookup_alter_eq.
    rewrite (list_lookup_alter_ne _ _ i2 i1) by congruence.
    rewrite list_lookup_alter_eq, Hl1. cbn [fmap option_fmap option_map].
    rewrite list_lookup_alter_eq.
    rewrite (list_lookup_alter_ne _ _ i1 i2) by exact Hi.
    rewrite list_lookup_alter_eq.
    rewrite (list_lookup_alter_ne _ _ i1 i2) by exact Hi.
    rewrite Hl2. cbn [fmap option_fmap option_map].
    rewrite R1, R2. f_equal. apply award_lists.
  - exists k1, e1'. exact A1.
  - exists k2, e2'. exact A2.
  - destruct A1 as (_ & I1 & _). destruct A2 as (_ & I2 & _).
    rewrite (fmap_insert_same sc_id _ i2 c2).
    + apply (fmap_insert_same sc_id _ i1 c1); [exact Hl1 | exact I1].
    + rewrite list_lookup_insert_ne by exact Hi. exact Hl2.
    + exact I2.
Qed.

Lemma award_conserves_experience_witness :
  exists (c1' c2' : StoredCharacter),
    awardExperience 1 "c1" "c2" 25 8 roster
    = Some (<[1%nat := c2']> (<[0%nat := c1']> roster)) /\
    awarded 25 (mkStored "c1" (Some 1%Z) (Some 90) None) c1' /\
    awarded 8 (mkStored "c2" None None None) c2' /\
    sc_id <$> <[1%nat := c2']> (<[0%nat := c1']> roster) = sc_id <$> roster.
Proof.
  apply (award_conserves_experience 1 "c1" "c2" 25 8 roster 0 1
           (mkStored "c1" (Some 1%Z) (Some 90) None) (mkStored "c2" None None None)).
  - reflexivity.
  - reflexivity.
  - discriminate.
  - intros l [= <-]. lia.
  - intros l H. discriminate H.
  - vm_compute. reflexivity.
  - vm_compute. reflexivity.
Defined.

(** ** Multi-attacks *)

Section MultiAttacks.

Variable random : nat -> Q.
Variable abilities : list Ability.

Lemma performPhysicalAttack_hit s a t n m g :
  hitBy a (damage (fst (performPhysicalAttack random s a t n m g))) s
    (snd (performPhysicalAttack random s a t n m g)).
Proof.
  unfold hitBy, performPhysicalAttack, randomInt, calculateCritical, Math_random.
  destruct g; cbv zeta; cbn [snd fst damage];
    (split; [apply applyDamageReduction_min|]);
    destruct s as [c1 c2 lg rd w dr], a;
    cbn [getC updC setC other character1 character2];
    match goal with |- context [if ?b then _ else _] => destruct b end;
    cbn [getC pushLog character1 character2 currentHealth set_currentHealth];
    (split; [reflexivity|]); (split; [reflexivity|]); intros [|]; reflexivity.
Qed.

Lemma performMagicAttack_hit s a t n m :
  hitBy a (damage (fst (performMagicAttack random abilities s a t n m))) s
    (snd (performMagicAttack random abilities s a t n m)).
Proof.
  unfold hitBy, performMagicAttack, randomInt, calculateCritical, Math_random.
  cbv zeta; cbn [snd fst damage];
    (split; [apply applyDamageReduction_min|]);
    destruct s as [c1 c2 lg rd w dr], a;
    cbn [getC updC setC other character1 character2];
    match goal with |- context [if ?b then _ else _] => destruct b end;
    cbn [getC pushLog character1 character2 currentHealth set_currentHealth];
    (split; [reflexivity|]); (split; [reflexivity|]); intros [|]; reflexivity.
Qed.

Lemma multiAttackHit_hit s a t ab k :
  exists d, hitBy a d s (multiAttackHit random abilities s a t ab k).
Proof.
  unfold multiAttackHit. cbv zeta.
  destruct (damageIs ab "physical"); [eexists; apply performPhysicalAttack_hit|].
  destruct (damageIs ab "magic");
    eexists; [apply performMagicAttack_hit | apply performPhysicalAttack_hit].
Qed.

Lemma multiAttackLoop_hits n : forall i s a t ab d,
  let s' := multiAttackLoop random abilities n i s a t ab d in
  (forall h, currentHealth (getC s (other a)) = Finite h ->
     exists h', currentHealth (getC s' (other a)) = Finite h' /\
                h' <= h /\
                (0 < h' -> h' <= h - inject_Z (Z.of_nat n))) /\
  (currentHealth (getC s (other a)) = NaN -> currentHealth (getC s' (other a)) = NaN) /\
  currentHealth (getC s' a) = currentHealth (getC s a) /\
  forall sd, currentMana (getC s' sd) = currentMana (getC s sd).
Proof.
  induction n as [|n IH]; intros i s a t ab d; cbv zeta; cbn [multiAttackLoop].
  - change (inject_Z (Z.of_nat 0)) with 0.
    split; [intros h Hh; exists h; repeat split; [exact Hh | lra | intros _; lra]|].
    split; [auto|]. split; reflexivity.
  - destruct (nleq (currentHealth (getC s (other a))) 0) eqn:E.
    + split.
      { intros h Hh. rewrite Hh in E. cbn in E. apply leq_iff in E.
        exists h. repeat split; [exact Hh | lra | intros H; lra]. }
      split; [auto|]. split; reflexivity.
    + destruct (multiAttackHit_hit s a (t + (1 # 10) + inject_Z (Z.of_nat i) * d) ab (i + 1))
        as (x & Hx & Hd & Ha & Hm).
      specialize (IH (S i) (multiAttackHit random abilities s a
                              (t + (1 # 10) + inject_Z (Z.of_nat i) * d) ab (i + 1))
                    a t ab d).
      cbv zeta in IH. destruct IH as (I1 & I2 & I3 & I4).
      rewrite Hd in I1, I2.
      split.
      { intros h Hh. rewrite Hh in I1. destruct (I1 _ eq_refl) as (h' & Eh & L1 & L2).
        exists h'. split; [exact Eh|].
        rewrite Nat2Z.inj_succ. unfold Z.succ. rewrite inject_Z_plus.
        change (inject_Z 1) with 1.
        revert L1 L2. generalize (inject_Z (Z.of_nat n)). intros k L1 L2.
        split; [lra|]. intros H. specialize (L2 H). lra. }
      split; [intros Hn; apply I2; rewrite Hn; reflexivity|].
      split; [congruence|]. intros sd. rewrite I4. apply Hm.
Qed.

(** A multi-attack always lands its first hit, so the defender loses at
    least 1 health; it stops early only when the defender is down: a
    defender that is still alive afterwards has been hit attackCount times
    (2 when the count is absent or 0) and has lost at least that much
    health.  A health that is NaN stays NaN.  The attacker's health and
    the mana of both sides are untouched. *)
Theorem multi_attack_hits (s : BattleState) (a : Side) (t : Q) (ab : Ability)
    (ma : MultiAttack) :
  let s' := processMultiAttackAbility random abilities s a t ab ma in
  let attackCount := match ma_count ma with Some O | None => 2%nat | Some c => c end in
  (forall h, currentHealth (getC s (other a)) = Finite h ->
     exists h', currentHealth (getC s' (other a)) = Finite h' /\
                h' <= h - 1 /\
                (0 < h' -> h' <= h - inject_Z (Z.of_nat attackCount))) /\
  (currentHealth (getC s (other a)) = NaN -> currentHealth (getC s' (other a)) = NaN) /\
  currentHealth (getC s' a) = currentHealth (getC s a) /\
  forall sd, currentMana (getC s' sd) = currentMana (getC s sd).
Proof.
  cbv zeta. unfold processMultiAttackAbility. cbv zeta.
  set (n := match ma_count ma with Some O | None => 2%nat | Some c => c end).
  assert (Hn : (1 <= n)%nat) by (unfold n; destruct (ma_count ma) as [[|c]|]; lia).
  set (s0 := pushLog t _ s).
  destruct (multiAttackHit_hit s0 a (t + (1 # 10)) ab 1) as (x & Hx & Hd & Ha & Hm).
  pose proof (multiAttackLoop_hits (n - 1) 1
                (multiAttackHit random abilities s0 a (t + (1 # 10)) ab 1) a t ab
                (orElse (ma_delay ma) (5 # 10))) as L.
  cbv zeta in L. destruct L as (I1 & I2 & I3 & I4).
  assert (E0 : forall sd, getC s0 sd = getC s sd) by (intros [|]; reflexivity).
  rewrite !E0 in Hd, Ha.
  assert (En : inject_Z (Z.of_nat n) == inject_Z (Z.of_nat (n - 1)) + 1).
  { rewrite <- (inject_Z_plus _ 1). apply inject_Z_injective. lia. }
  rewrite Hd in I1, I2.
  split.
  { intros h Hh. rewrite Hh in I1. destruct (I1 _ eq_refl) as (h' & Eh & L1 & L2).
    exists h'. split; [exact Eh|]. rewrite En.
    revert L1 L2. generalize (inject_Z (Z.of_nat (n - 1))). intros k L1 L2.
    split; [lra|]. intros H. specialize (L2 H). lra. }
  split; [intros Hnan; apply I2; rewrite Hnan; reflexivity|].
  split; [congruence|]. intros sd. rewrite I4, Hm, E0. reflexivity.
Qed.

End MultiAttacks.

(** ** Cooldowns *)

Section Cooldowns.

Variable random : nat -> Q.
Variable abilities : list Ability.

Lemma other_other (a : Side) : other (other a) = a.
Proof. destruct a; reflexivity. Qed.

Lemma processAttack_cooldowns_opponent s a t :
  cooldowns (getC (processAttack random abilities s (other a) t) a) = cooldowns (getC s a).
Proof.
  destruct (usableAbility abilities (getC s (other a)) t) as [ab|] eqn:U.
  - destruct (processAttack_uses random abilities s (other a) t ab U) as (_ & _ & _ & O).
    rewrite other_other in O. unfold core in O. congruence.
  - rewrite (processAttack_falls_back random abilities s (other a) t U).
    apply quiet_cooldowns, quiet_performBasicAttack.
Qed.

Lemma sinceUse_cooldown a i s s' :
  sinceUse random abilities a i s s' ->
  cooldowns (getC s' a) !! i = cooldowns (getC s a) !! i.
Proof.
  induction 1 as [s|s s' t _ IH|s s' _ IH|s s' t _ IH|s s' t _ IH Hn].
  - reflexivity.
  - rewrite (quiet_cooldowns _ _ a (quiet_processEffects s' t)). exact IH.
  - destruct a; exact IH.
  - rewrite processAttack_cooldowns_opponent. exact IH.
  - destruct (usableAbility abilities (getC s' a) t) as [ab|] eqn:U.
    + destruct (processAttack_uses random abilities s' a t ab U) as (_ & C & _).
      rewrite C, lookup_insert_ne by (apply Hn; reflexivity). exact IH.
    + rewrite (processAttack_falls_back random abilities s' a t U).
      rewrite (quiet_cooldowns _ _ a (quiet_performBasicAttack random abilities s' a t)).
      exact IH.
Qed.

(** An ability is never used again before its cooldown is over: when a
    combatant uses an ability at [t], then, whatever effect processing,
    turns of the opponent and turns of its own with other abilities
    follow, a turn that uses an ability with the same id again is at a time
    of at least [t] plus the cooldown. *)
Theorem cooldown_blocks_reuse (s s' : BattleState) (a : Side) (t t' : Q)
    (ab ab' : Ability) :
  usableAbility abilities (getC s a) t = Some ab ->
  sinceUse random abilities a (ab_id ab) (processAttack random abilities s a t) s' ->
  usableAbility abilities (getC s' a) t' = Some ab' ->
  ab_id ab' = ab_id ab ->
  t + ab_cooldown ab <= t'.
Proof.
  intros U S U' E.
  destruct (processAttack_uses random abilities s a t ab U) as (_ & C & _).
  pose proof (sinceUse_cooldown _ _ _ _ S) as K.
  rewrite C, lookup_insert_eq in K.
  destruct (usableAbility_slot abilities _ _ _ U') as (_ & _ & _ & Hc & _).
  rewrite E, K in Hc.
  pose proof (orElse_zero _ _ (eq_refl (Some (t + ab_cooldown ab)))) as Z.
  rewrite Z in Hc. exact Hc.
Qed.

End Cooldowns.

Lemma cooldown_blocks_reuse_witness :
  let s := battleState (initialSchedule sparky dummy) in
  let s' := processEffects (processAttack halves [spark] s First 0) 0 in
  usableAbility [spark] (getC s First) 0 = Some spark /\
  usableAbility [spark] (getC s' First) 5 = Some spark /\
  0 + ab_cooldown spark <= 5.
Proof.
  cbv zeta.
  assert (U : usableAbility [spark] (getC (battleState (initialSchedule sparky dummy)) First) 0
              = Some spark) by (vm_compute; reflexivity).
  assert (U' : usableAbility [spark]
                 (getC (processEffects
                          (processAttack halves [spark]
                             (battleState (initialSchedule sparky dummy)) First 0) 0) First) 5
               = Some spark) by (vm_compute; reflexivity).
  split; [exact U|]. split; [exact U'|].
  apply (cooldown_blocks_reuse halves [spark] _ _ First 0 5 spark spark U
           (su_effects _ _ _ _ _ _ 0 (su_here _ _ _ _ _)) U' eq_refl).
Defined.
